(** * AtomGL SDL display: damage tracking and span compositor

    A shallow embedding of the display-list differ and the per-row
    renderers of [sdl_display/display.c] together with the item record of
    [display_items.h].

    Conventions of the embedding.
    - C [int] values are integers in [Z]; signed overflow is undefined in C
      and is not modelled.  [/] and [%] on [int] are [Z.quot] and [Z.rem].
    - [uint32_t] colours and pixels are non-negative integers; shifts and
      masks are [Z.shiftr] and [Z.land].
    - Pointers are addresses.  The heap maps the address of an allocated
      block to its cells (32-bit words for pixel buffers, bytes for C
      strings, terminating NUL included).  An access outside a block, an
      array index outside the array and a division by zero are undefined
      behaviour in C: the embedding stops with [Crash].
    - The [for] loops have a known number of iterations and recurse on
      it.  The [while] loop of [do_update] takes one unit of fuel per
      iteration and stops with [NoFuel] when none is left.
    - The anonymous union [data] of [BaseDisplayItem] is kept as its raw
      storage, and each member is a view of that storage, since
      [cmp_display_item] reads a member that [init_item] did not write.
    - What the files use and do not define is a parameter: the colour
      mapping [SDL_MapRGB], the macro [READ_32_UNALIGNED] and the glyph
      table [fontdata]. *)

From Stdlib Require Import ZArith Lia Bool List.
From stdpp Require Import base option list gmap.

Local Open Scope Z_scope.

(** ** Outcomes of a computation *)

Inductive fault : Type :=
  | BadLoad (p i : Z)      (* read of cell [i] of the block at [p] *)
  | BadStore (i : Z)       (* write of pixel [i] of the frame buffer *)
  | BadIndex (i : Z)       (* read of element [i] of an item array *)
  | BadGlyph (i : Z)       (* read of byte [i] of the font table *)
  | DivZero.

Inductive result (A : Type) : Type :=
  | Done (a : A)
  | Crash (f : fault)
  | NoFuel.

Arguments Done {A} a.
Arguments Crash {A} f.
Arguments NoFuel {A}.

Definition rbind {A B : Type} (r : result A) (k : A → result B) : result B :=
  match r with
  | Done a => k a
  | Crash f => Crash f
  | NoFuel => NoFuel
  end.

Declare Scope result_scope.
Delimit Scope result_scope with result.
Notation "'do' x <- r ; k" := (rbind r (fun x => k))
  (at level 10, x name, r at level 100, k at level 200) : result_scope.
Notation "'do' ' p <- r ; k" := (rbind r (fun p => k))
  (at level 10, p pattern, r at level 100, k at level 200) : result_scope.
Local Open Scope result_scope.

(** ** Data model (display_items.h) *)

Inductive primitive : Type :=
  | Invalid
  | Image
  | ScaledCroppedImage
  | Rect
  | Text.

Definition primitive_eqb (p q : primitive) : bool :=
  match p, q with
  | Invalid, Invalid | Image, Image | ScaledCroppedImage, ScaledCroppedImage
  | Rect, Rect | Text, Text => true
  | _, _ => false
  end.

(** Data layout of the target: 32-bit [int] in both, 32- or 64-bit
    pointers, little-endian. *)
Inductive abi : Type :=
  | ILP32
  | LP64.

(** Raw storage of the union [data], as 32-bit words.  The largest
    member, [struct ImageDataWithSize], takes three words on [ILP32] and
    four on [LP64]. *)
Record DataUnion : Type := {
  raw0 : Z;
  raw1 : Z;
  raw2 : Z;
  raw3 : Z
}.

Record BaseDisplayItem : Type := {
  item_primitive : primitive;
  item_x : Z;
  item_y : Z;
  item_width : Z;
  item_height : Z;
  brcolor : Z;
  data : DataUnion;
  source_x : Z;
  source_y : Z;
  x_scale : Z;
  y_scale : Z
}.

Definition two32 : Z := 4294967296.

(** A stored word read back as an [int]. *)
Definition int_of_word (u : Z) : Z :=
  let v := u mod two32 in
  if v <? 2147483648 then v else v - two32.

Definition word_of_int (v : Z) : Z := v mod two32.

Section Layout.

Variable target : abi.

(** A pointer stored at word [i] of the union. *)
Definition ptr_at (i : nat) (d : DataUnion) : Z :=
  let ws := [raw0 d; raw1 d; raw2 d; raw3 d] in
  match target with
  | ILP32 => nth i ws 0
  | LP64 => nth i ws 0 + two32 * nth (S i) ws 0
  end.

(** [struct ImageData { const char *pix; }] *)
Definition image_data_pix (d : DataUnion) : Z := ptr_at 0 d.

(** [struct ImageDataWithSize { int width; int height; const char *pix; }] *)
Definition image_data_with_size_width (d : DataUnion) : Z := int_of_word (raw0 d).
Definition image_data_with_size_height (d : DataUnion) : Z := int_of_word (raw1 d).
Definition image_data_with_size_pix (d : DataUnion) : Z := ptr_at 2 d.

(** [struct TextData { uint32_t fgcolor; const char *text; }]: the
    pointer follows [fgcolor] directly on [ILP32] and after four bytes
    of padding on [LP64]. *)
Definition text_data_fgcolor (d : DataUnion) : Z := raw0 d.
Definition text_data_text (d : DataUnion) : Z :=
  match target with
  | ILP32 => ptr_at 1 d
  | LP64 => ptr_at 2 d
  end.

(** Stores into the members, as [init_item] performs them. *)
Definition set_word (i : nat) (v : Z) (d : DataUnion) : DataUnion :=
  match i with
  | 0%nat => {| raw0 := v; raw1 := raw1 d; raw2 := raw2 d; raw3 := raw3 d |}
  | 1%nat => {| raw0 := raw0 d; raw1 := v; raw2 := raw2 d; raw3 := raw3 d |}
  | 2%nat => {| raw0 := raw0 d; raw1 := raw1 d; raw2 := v; raw3 := raw3 d |}
  | _ => {| raw0 := raw0 d; raw1 := raw1 d; raw2 := raw2 d; raw3 := v |}
  end.

Definition set_ptr (i : nat) (p : Z) (d : DataUnion) : DataUnion :=
  match target with
  | ILP32 => set_word i (p mod two32) d
  | LP64 => set_word (S i) (p / two32 mod two32) (set_word i (p mod two32) d)
  end.

Definition set_image_data (pix : Z) (d : DataUnion) : DataUnion :=
  set_ptr 0 pix d.

Definition set_image_data_with_size (width height pix : Z) (d : DataUnion)
  : DataUnion :=
  set_ptr 2 pix (set_word 1 (word_of_int height) (set_word 0 (word_of_int width) d)).

Definition set_text_data (fgcolor text : Z) (d : DataUnion) : DataUnion :=
  match target with
  | ILP32 => set_ptr 1 text (set_word 0 fgcolor d)
  | LP64 => set_ptr 2 text (set_word 0 fgcolor d)
  end.

End Layout.

(** ** Rectangles and damage (display.c) *)

Record Rectangle : Type := {
  rect_x : Z;
  rect_y : Z;
  rect_width : Z;
  rect_height : Z;
  valid : bool
}.

Definition int_min (a b : Z) : Z := if a >? b then b else a.

Definition int_max (a b : Z) : Z := if a >? b then a else b.

(** The assignments are sequential: [area->x] and [area->y] are already
    overwritten when the new width and height are computed. *)
Definition update_damaged_area (area damage : Rectangle) : Rectangle :=
  if valid area then
    let x1 := int_min (rect_x area) (rect_x damage) in
    let y1 := int_min (rect_y area) (rect_y damage) in
    let width1 :=
      int_max (x1 + rect_width area) (rect_x damage + rect_width damage) - x1 in
    let height1 :=
      int_max (y1 + rect_height area) (rect_y damage + rect_height damage) - y1 in
    {| rect_x := x1; rect_y := y1; rect_width := width1; rect_height := height1;
       valid := true |}
  else
    {| rect_x := rect_x damage; rect_y := rect_y damage;
       rect_width := rect_width damage; rect_height := rect_height damage;
       valid := true |}.

Definition clip_rectangle (rectangle clip_region : Rectangle) : Rectangle :=
  let x1 := int_max (rect_x rectangle) (rect_x clip_region) in
  let y1 := int_max (rect_y rectangle) (rect_y clip_region) in
  let width1 :=
    int_min (x1 + rect_width rectangle)
            (rect_x clip_region + rect_width clip_region) - x1 in
  let height1 :=
    int_min (y1 + rect_height rectangle)
            (rect_y clip_region + rect_height clip_region) - y1 in
  {| rect_x := x1; rect_y := y1; rect_width := width1; rect_height := height1;
     valid := valid rectangle |}.

(** [struct Rectangle damaged; damaged.valid = false;] of [do_update].
    The other fields are indeterminate in C; they are never read while
    [valid] is false, and are 0 here. *)
Definition no_damage : Rectangle :=
  {| rect_x := 0; rect_y := 0; rect_width := 0; rect_height := 0;
     valid := false |}.

(** The [irect] initialiser used three times in [dumb_diff]. *)
Definition item_rect (it : BaseDisplayItem) : Rectangle :=
  {| rect_x := item_x it; rect_y := item_y it;
     rect_width := item_width it; rect_height := item_height it;
     valid := true |}.

(** ** Memory *)

Section Memory.

Variable heap : gmap Z (list Z).

Definition load (p i : Z) : result Z :=
  match heap !! p with
  | Some cells =>
      if i <? 0 then Crash (BadLoad p i)
      else match cells !! Z.to_nat i with
           | Some v => Done v
           | None => Crash (BadLoad p i)
           end
  | None => Crash (BadLoad p i)
  end.

(** [strcmp]: walk both strings while the bytes agree and are not NUL. *)
Fixpoint strcmp_cells (pa pb : Z) (i : Z) (sa sb : list Z) : result Z :=
  match sa, sb with
  | ca :: sa', cb :: sb' =>
      if (ca =? cb) && negb (ca =? 0)
      then strcmp_cells pa pb (i + 1) sa' sb'
      else Done (ca - cb)
  | [], _ => Crash (BadLoad pa i)
  | _ :: _, [] => Crash (BadLoad pb i)
  end.

Definition strcmp (pa pb : Z) : result Z :=
  match heap !! pa, heap !! pb with
  | Some sa, Some sb => strcmp_cells pa pb 0 sa sb
  | None, _ => Crash (BadLoad pa 0)
  | Some _, None => Crash (BadLoad pb 0)
  end.

(** [strlen], used by [init_item] for the width of a text item. *)
Fixpoint strlen_cells (p : Z) (i : Z) (s : list Z) : result Z :=
  match s with
  | c :: s' => if c =? 0 then Done i else strlen_cells p (i + 1) s'
  | [] => Crash (BadLoad p i)
  end.

Definition strlen (p : Z) : result Z :=
  match heap !! p with
  | Some s => strlen_cells p 0 s
  | None => Crash (BadLoad p 0)
  end.

End Memory.

(** ** Filling an item (display_items.h, [init_item])

    The decoding of the request tuple is outside this model; the
    functions below perform the stores of [init_item] for already decoded
    fields, on the slot [old] that [malloc] returned.  Fields that
    [init_item] does not assign keep the content of [old]. *)

Section InitItem.

Variable target : abi.
Variable heap : gmap Z (list Z).

(** [transparent] gives 0, a colour gives [color << 8 | 0xFF]. *)
Definition brcolor_of (bgcolor : option Z) : Z :=
  match bgcolor with
  | None => 0
  | Some c => Z.lor (Z.shiftl c 8 mod two32) 255
  end.

Definition init_image (old : BaseDisplayItem) (x y : Z) (bgcolor : option Z)
    (width height pix : Z) : BaseDisplayItem :=
  {| item_primitive := Image; item_x := x; item_y := y;
     item_width := width; item_height := height;
     brcolor := brcolor_of bgcolor;
     data := set_image_data target pix (data old);
     source_x := source_x old; source_y := source_y old;
     x_scale := x_scale old; y_scale := y_scale old |}.

Definition init_scaled_cropped_image (old : BaseDisplayItem)
    (x y width height : Z) (bgcolor : option Z) (sx sy xs ys : Z)
    (img_width img_height pix : Z) : BaseDisplayItem :=
  {| item_primitive := ScaledCroppedImage; item_x := x; item_y := y;
     item_width := width; item_height := height;
     brcolor := brcolor_of bgcolor;
     data := set_image_data_with_size target img_width img_height pix (data old);
     source_x := sx; source_y := sy; x_scale := xs; y_scale := ys |}.

Definition init_rect (old : BaseDisplayItem) (x y width height color : Z)
  : BaseDisplayItem :=
  {| item_primitive := Rect; item_x := x; item_y := y;
     item_width := width; item_height := height;
     brcolor := brcolor_of (Some color);
     data := data old;
     source_x := source_x old; source_y := source_y old;
     x_scale := x_scale old; y_scale := y_scale old |}.

Definition init_text (old : BaseDisplayItem) (x y fgcolor : Z)
    (bgcolor : option Z) (text : Z) : result BaseDisplayItem :=
  do len <- strlen heap text;
  Done {| item_primitive := Text; item_x := x; item_y := y;
          item_width := len * 8; item_height := 16;
          brcolor := brcolor_of bgcolor;
          data := set_text_data target (brcolor_of (Some fgcolor)) text (data old);
          source_x := source_x old; source_y := source_y old;
          x_scale := x_scale old; y_scale := y_scale old |}.

End InitItem.

(** ** The differ *)

Section Diff.

Variable target : abi.
Variable heap : gmap Z (list Z).

Definition cmp_display_item (a b : BaseDisplayItem) : result bool :=
  if negb (primitive_eqb (item_primitive a) (item_primitive b))
     || negb (item_x a =? item_x b) || negb (item_y a =? item_y b)
     || negb (item_width a =? item_width b)
     || negb (item_height a =? item_height b)
     || negb (brcolor a =? brcolor b)
  then Done false
  else
    match item_primitive a with
    | Image =>
        Done (image_data_pix target (data a) =? image_data_pix target (data b))
    | Rect => Done true
    | Text =>
        if text_data_fgcolor (data a) =? text_data_fgcolor (data b)
        then do r <- strcmp heap (text_data_text target (data a))
                                 (text_data_text target (data b));
             Done (r =? 0)
        else Done false
    | ScaledCroppedImage =>
        Done ((image_data_pix target (data a) =? image_data_pix target (data b))
              && (x_scale a =? x_scale b) && (y_scale a =? y_scale b)
              && (source_x a =? source_x b) && (source_y a =? source_y b))
    | Invalid => Done true
    end.

(** [orig[i]] for an array of [length orig] elements. *)
Definition item_at (arr : list BaseDisplayItem) (i : Z) : result BaseDisplayItem :=
  if i <? 0 then Crash (BadIndex i)
  else match arr !! Z.to_nat i with
       | Some it => Done it
       | None => Crash (BadIndex i)
       end.

Section WithOrig.

Variable orig : list BaseDisplayItem.

(** [for (int l = ...; l < k; l++)] with [n] iterations left. *)
Fixpoint damage_skipped (n : nat) (l : Z) (damaged : Rectangle)
  : result Rectangle :=
  match n with
  | O => Done damaged
  | S n' =>
      do ol <- item_at orig l;
      damage_skipped n' (l + 1) (update_damaged_area damaged (item_rect ol))
  end.

(** [for (int k = ...; k < orig_len; k++)] with [n] iterations left:
    the position of the first element equivalent to [it], if any. *)
Fixpoint scan_orig (n : nat) (k : Z) (it : BaseDisplayItem)
  : result (option Z) :=
  match n with
  | O => Done None
  | S n' =>
      do ok <- item_at orig k;
      do same <- cmp_display_item it ok;
      if same then Done (Some k) else scan_orig n' (k + 1) it
  end.

(** [for (int i = 0; i < new_len; i++)] over the remaining new items;
    [j] and [damaged] are the loop-carried variables. *)
Fixpoint diff_loop (new : list BaseDisplayItem) (j : Z) (damaged : Rectangle)
  : result Rectangle :=
  match new with
  | [] => Done damaged
  | ni :: rest =>
      do oj <- item_at orig j;
      do same <- cmp_display_item ni oj;
      if same then diff_loop rest (j + 1) damaged
      else
        do found <- scan_orig (Z.to_nat (Z.of_nat (length orig) - (j + 1)))
                              (j + 1) ni;
        match found with
        | Some k =>
            do damaged' <- damage_skipped (Z.to_nat (k - (k - j))) (k - j)
                                          damaged;
            diff_loop rest (k + 1) damaged'
        | None =>
            diff_loop rest j (update_damaged_area damaged (item_rect ni))
        end
  end.

End WithOrig.

Definition dumb_diff (orig new : list BaseDisplayItem) (damaged : Rectangle)
  : result Rectangle :=
  if Z.of_nat (length orig) =? 0
  then Done (fold_left (fun d it => update_damaged_area d (item_rect it))
                       new damaged)
  else diff_loop orig new 0 damaged.

End Diff.

(** ** The frame buffer and the row renderers *)

(** [struct Screen]: [pixels] holds [w * h] 32-bit pixels, row after row.
    The pixel format is part of [SDL_MapRGB] below; [scale] is only used
    when the buffer is copied to the window. *)
Record Screen : Type := {
  screen_w : Z;
  screen_h : Z;
  screen_pixels : list Z
}.

Definition CHAR_WIDTH : Z := 8.

(** [pixmem32[...] = v], as an index from the start of [screen->pixels]. *)
Definition store_pixel (i v : Z) (s : Screen) : result Screen :=
  if (0 <=? i) && (i <? Z.of_nat (length (screen_pixels s)))
  then Done {| screen_w := screen_w s; screen_h := screen_h s;
               screen_pixels := <[Z.to_nat i := v]> (screen_pixels s) |}
  else Crash (BadStore i).

Section Render.

Variable target : abi.
Variable heap : gmap Z (list Z).
(** The colour mapping of the SDL surface, for the format of the screen. *)
Variable SDL_MapRGB : Z → Z → Z → Z.
(** The macro [READ_32_UNALIGNED] of the virtual machine's headers.
    [READ_32_UNALIGNED (pixels)] reads the four bytes that [*pixels]
    reads; the parameter gives its value for the word that [*pixels]
    yields, which the byte order of the target decides. *)
Variable READ_32_UNALIGNED : Z → Z.
(** The glyph table of [font.c]: sixteen bytes per character code. *)
Variable fontdata : list Z.

Definition uint32_color_to_surface (color : Z) : Z :=
  SDL_MapRGB (Z.land (Z.shiftr color 24) 255)
             (Z.land (Z.shiftr color 16) 255)
             (Z.land (Z.shiftr color 8) 255).

Definition glyph_byte (i : Z) : result Z :=
  if i <? 0 then Crash (BadGlyph i)
  else match fontdata !! Z.to_nat i with
       | Some v => Done v
       | None => Crash (BadGlyph i)
       end.

(** The loop of [draw_image_x], [n] iterations left; [src] is the
    offset of [pixels] from [data], [base] that of [pixmem32] from the
    start of the frame buffer.  The alpha test is on [*pixels], the
    colour is taken from [img_pixel = READ_32_UNALIGNED (pixels)]. *)
Fixpoint image_run (n : nat) (pix src base : Z) (visible_bg : bool)
    (bgcolor drawn_pixels : Z) (s : Screen) : result (Z * Screen) :=
  match n with
  | O => Done (drawn_pixels, s)
  | S n' =>
      do word <- load heap pix src;
      let img_pixel := READ_32_UNALIGNED word in
      if negb (Z.land (Z.shiftr word 24) 255 =? 0) then
        do s' <- store_pixel (base + drawn_pixels)
                             (uint32_color_to_surface img_pixel) s;
        image_run n' pix (src + 1) base visible_bg bgcolor (drawn_pixels + 1) s'
      else if visible_bg then
        do s' <- store_pixel (base + drawn_pixels) bgcolor s;
        image_run n' pix (src + 1) base visible_bg bgcolor (drawn_pixels + 1) s'
      else Done (drawn_pixels, s)
  end.

Definition draw_image_x (xpos ypos max_line_len : Z) (item : BaseDisplayItem)
    (s : Screen) : result (Z * Screen) :=
  let x := item_x item in
  let y := item_y item in
  let bgcolor := uint32_color_to_surface (brcolor item) in
  let visible_bg := negb (brcolor item =? 0) in
  let width := item_width item in
  let pix := image_data_pix target (data item) in
  let src := (ypos - y) * width + (xpos - x) in
  let base := screen_w s * ypos + xpos in
  let width :=
    if width >? xpos - x + max_line_len then xpos - x + max_line_len else width in
  image_run (Z.to_nat (width - (xpos - x))) pix src base visible_bg bgcolor 0 s.

(** The loop of [draw_scaled_cropped_img_x]: [pixels] is recomputed at
    the end of each iteration from the value [j] has then, that is
    before [j++].  As in [draw_image_x], the alpha test is on [*pixels]
    and the colour is [READ_32_UNALIGNED (pixels)]. *)
Fixpoint scaled_run (n : nat) (j : Z) (pix src row_off sx xs base : Z)
    (visible_bg : bool) (bgcolor drawn_pixels : Z) (s : Screen)
    : result (Z * Screen) :=
  match n with
  | O => Done (drawn_pixels, s)
  | S n' =>
      do word <- load heap pix src;
      let img_pixel := READ_32_UNALIGNED word in
      if negb (Z.land (Z.shiftr word 24) 255 =? 0) then
        do s' <- store_pixel (base + drawn_pixels)
                             (uint32_color_to_surface img_pixel) s;
        scaled_run n' (j + 1) pix (row_off + sx + Z.quot j xs) row_off sx xs
                   base visible_bg bgcolor (drawn_pixels + 1) s'
      else if visible_bg then
        do s' <- store_pixel (base + drawn_pixels) bgcolor s;
        scaled_run n' (j + 1) pix (row_off + sx + Z.quot j xs) row_off sx xs
                   base visible_bg bgcolor (drawn_pixels + 1) s'
      else Done (drawn_pixels, s)
  end.

Definition draw_scaled_cropped_img_x (xpos ypos max_line_len : Z)
    (item : BaseDisplayItem) (s : Screen) : result (Z * Screen) :=
  let x := item_x item in
  let y := item_y item in
  let bgcolor := uint32_color_to_surface (brcolor item) in
  let visible_bg := negb (brcolor item =? 0) in
  let width := item_width item in
  let pix := image_data_with_size_pix target (data item) in
  let ys := y_scale item in
  let xs := x_scale item in
  let img_width := image_data_with_size_width (data item) in
  let sx := source_x item in
  let sy := source_y item in
  if (ys =? 0) || (xs =? 0) then Crash DivZero
  else
    let row_off := (sy + Z.quot (ypos - y) ys) * img_width in
    let src := row_off + sx + Z.quot (xpos - x) xs in
    let base := screen_w s * ypos + xpos in
    let width :=
      if sx + Z.quot width xs >? img_width then (img_width - sx) * xs else width in
    let width :=
      if width >? xpos - x + max_line_len then xpos - x + max_line_len else width in
    scaled_run (Z.to_nat (width - (xpos - x))) (xpos - x) pix src row_off sx xs
               base visible_bg bgcolor 0 s.

Fixpoint rect_run (n : nat) (base color drawn_pixels : Z) (s : Screen)
    : result (Z * Screen) :=
  match n with
  | O => Done (drawn_pixels, s)
  | S n' =>
      do s' <- store_pixel (base + drawn_pixels) color s;
      rect_run n' base color (drawn_pixels + 1) s'
  end.

Definition draw_rect_x (xpos ypos max_line_len : Z) (item : BaseDisplayItem)
    (s : Screen) : result (Z * Screen) :=
  let x := item_x item in
  let width := item_width item in
  let color := uint32_color_to_surface (brcolor item) in
  let base := screen_w s * ypos + xpos in
  let width :=
    if width >? xpos - x + max_line_len then xpos - x + max_line_len else width in
  rect_run (Z.to_nat (width - (xpos - x))) base color 0 s.

Fixpoint text_run (n : nat) (j : Z) (text dy base fgcolor : Z)
    (visible_bg : bool) (bgcolor drawn_pixels : Z) (s : Screen)
    : result (Z * Screen) :=
  match n with
  | O => Done (drawn_pixels, s)
  | S n' =>
      let char_index := Z.quot j CHAR_WIDTH in
      do c <- load heap text char_index;
      do row <- glyph_byte (c mod 256 * 16 + dy);
      let k := Z.rem j CHAR_WIDTH in
      let opaque := negb (Z.land row (Z.shiftl 1 (7 - k)) =? 0) in
      if opaque then
        do s' <- store_pixel (base + drawn_pixels) fgcolor s;
        text_run n' (j + 1) text dy base fgcolor visible_bg bgcolor
                 (drawn_pixels + 1) s'
      else if visible_bg then
        do s' <- store_pixel (base + drawn_pixels) bgcolor s;
        text_run n' (j + 1) text dy base fgcolor visible_bg bgcolor
                 (drawn_pixels + 1) s'
      else Done (drawn_pixels, s)
  end.

Definition draw_text_x (xpos ypos max_line_len : Z) (item : BaseDisplayItem)
    (s : Screen) : result (Z * Screen) :=
  let x := item_x item in
  let y := item_y item in
  let fgcolor := uint32_color_to_surface (text_data_fgcolor (data item)) in
  let bgcolor := uint32_color_to_surface (brcolor item) in
  let visible_bg := negb (brcolor item =? 0) in
  let text := text_data_text target (data item) in
  let width := item_width item in
  let base := screen_w s * ypos + xpos in
  let width :=
    if width >? xpos - x + max_line_len then xpos - x + max_line_len else width in
  text_run (Z.to_nat (width - (xpos - x))) (xpos - x) text (ypos - y) base
           fgcolor visible_bg bgcolor 0 s.

(** ** The compositor *)

Definition find_max_line_len (items : list BaseDisplayItem) (count : Z)
    (xpos ypos : Z) (s : Screen) : Z :=
  fold_left
    (fun line_len item =>
       if (xpos <? item_x item) && (ypos >=? item_y item)
          && (ypos <? item_y item + item_height item)
       then
         let len_to_item := item_x item - xpos in
         if line_len >? len_to_item then len_to_item else line_len
       else line_len)
    (take (Z.to_nat count) items) (screen_w s).

Definition outside (xpos ypos : Z) (item : BaseDisplayItem) : bool :=
  (xpos <? item_x item) || (xpos >=? item_x item + item_width item)
  || (ypos <? item_y item) || (ypos >=? item_y item + item_height item).

(** The loop of [draw_x] over [items[i..]]; [rest] is that suffix. *)
Fixpoint draw_x_from (rest : list BaseDisplayItem) (i : Z) (below : bool)
    (xpos ypos : Z) (items : list BaseDisplayItem) (s : Screen)
    : result (Z * Screen) :=
  match rest with
  | [] => Done (1, s)
  | item :: rest' =>
      if outside xpos ypos item
      then draw_x_from rest' (i + 1) below xpos ypos items s
      else
        let max_line_len :=
          if below then 1 else find_max_line_len items i xpos ypos s in
        do '(drawn_pixels, s') <-
          match item_primitive item with
          | Image => draw_image_x xpos ypos max_line_len item s
          | ScaledCroppedImage =>
              draw_scaled_cropped_img_x xpos ypos max_line_len item s
          | Rect => draw_rect_x xpos ypos max_line_len item s
          | Text => draw_text_x xpos ypos max_line_len item s
          | Invalid => Done (0, s)
          end;
        if negb (drawn_pixels =? 0) then Done (drawn_pixels, s')
        else draw_x_from rest' (i + 1) true xpos ypos items s'
  end.

Definition draw_x (xpos ypos : Z) (items : list BaseDisplayItem) (s : Screen)
  : result (Z * Screen) :=
  draw_x_from items 0 false xpos ypos items s.

(** [while (xpos < damaged.x + damaged.width) xpos += draw_x (...)]:
    each iteration takes one unit of [fuel]. *)
Fixpoint repaint_row (fuel : nat) (xpos xend ypos : Z)
    (items : list BaseDisplayItem) (s : Screen) : result Screen :=
  if xpos <? xend then
    match fuel with
    | O => NoFuel
    | S fuel' =>
        do '(drawn_pixels, s') <- draw_x xpos ypos items s;
        repaint_row fuel' (xpos + drawn_pixels) xend ypos items s'
    end
  else Done s.

(** [for (ypos = ...; ypos < damaged.y + damaged.height; ypos++)] with
    [rows] iterations left. *)
Fixpoint repaint_rows (fuel : nat) (rows : nat) (ypos : Z) (damaged : Rectangle)
    (items : list BaseDisplayItem) (s : Screen) : result Screen :=
  match rows with
  | O => Done s
  | S rows' =>
      do s' <- repaint_row fuel (rect_x damaged)
                           (rect_x damaged + rect_width damaged) ypos items s;
      repaint_rows fuel rows' (ypos + 1) damaged items s'
  end.

Definition repaint (fuel : nat) (damaged : Rectangle)
    (items : list BaseDisplayItem) (s : Screen) : result Screen :=
  repaint_rows fuel (Z.to_nat (rect_height damaged)) (rect_y damaged)
               damaged items s.

(** The state kept between two updates: the retained item array and the
    screen.  [do_update] is taken after [init_item] has filled [items];
    releasing the previous array and message does not touch this state. *)
Record Display : Type := {
  prev_items : list BaseDisplayItem;
  screen : Screen
}.

Definition do_update (fuel : nat) (items : list BaseDisplayItem) (st : Display)
  : result Display :=
  let damaged := no_damage in
  do damaged <- dumb_diff target heap (prev_items st) items damaged;
  if negb (valid damaged) then
    Done {| prev_items := items; screen := screen st |}
  else
    let screen_rect :=
      {| rect_x := 0; rect_y := 0; rect_width := screen_w (screen st);
         rect_height := screen_h (screen st); valid := true |} in
    let damaged := clip_rectangle damaged screen_rect in
    let damaged :=
      {| rect_x := 0; rect_y := 0; rect_width := screen_w (screen st);
         rect_height := screen_h (screen st); valid := valid damaged |} in
    do s' <- repaint fuel damaged items (screen st);
    Done {| prev_items := items; screen := s' |}.

End Render.

(** ** Well-formed values and concrete scenes *)

(** Addresses that fit a pointer of the target. *)
Definition ptr_limit (target : abi) : Z :=
  match target with
  | ILP32 => two32
  | LP64 => two32 * two32
  end.

(** The text of a text item is a NUL-terminated string of the heap. *)
Definition text_ok (target : abi) (heap : gmap Z (list Z)) (it : BaseDisplayItem)
  : Prop :=
  item_primitive it = Text →
  ∃ cells, heap !! text_data_text target (data it) = Some cells ∧ 0 ∈ cells.

(** The frame buffer of [s'] is that of [s] with the colour [blue] in the
    pixels 0..3. *)
Definition fall_through_outcome (blue : Z) (s s' : Screen) : Prop :=
  (∀ i, (i < 4)%nat → screen_pixels s' !! i = Some blue)
  ∧ (∀ i, (4 ≤ i)%nat → screen_pixels s' !! i = screen_pixels s !! i)
  ∧ length (screen_pixels s') = length (screen_pixels s)
  ∧ screen_w s' = screen_w s ∧ screen_h s' = screen_h s.

(** A slot as [malloc] may return it: no field has a meaningful value. *)
Definition stale_slot : BaseDisplayItem :=
  {| item_primitive := Invalid; item_x := 7; item_y := 7;
     item_width := 7; item_height := 7; brcolor := 7;
     data := {| raw0 := 111; raw1 := 222; raw2 := 333; raw3 := 444 |};
     source_x := 7; source_y := 7; x_scale := 7; y_scale := 7 |}.

(** Two rectangles, red at the origin and blue further down. *)
Definition rect_a : BaseDisplayItem := init_rect stale_slot 0 0 10 10 16711680.
Definition rect_b : BaseDisplayItem := init_rect stale_slot 20 20 5 5 255.

(** A heap with a fully transparent 4x1 image at 4096, a 10x1 image at
    8192, a 4x1 image at 20480 whose pixels are in turn opaque (the word
    0xFF332211) and
    transparent, and the string "Hi" at 12288 and again at 16384. *)
Definition demo_heap : gmap Z (list Z) :=
  <[4096 := [0; 0; 0; 0]]>
  (<[8192 := [4278190081; 4278190082; 4278190083; 4278190084; 4278190085;
              4278190086; 4278190087; 4278190088; 4278190089; 4278190090]]>
  (<[20480 := [4281541137; 0; 4281541137; 0]]>
  (<[12288 := [72; 105; 0]]>
  (<[16384 := [72; 105; 0]]> ∅)))).

(** A text item as [init_item] fills it for the string at [text]. *)
Definition demo_text (target : abi) (text : Z) : BaseDisplayItem :=
  match init_text target demo_heap stale_slot 0 32 16777215 None text with
  | Done it => it
  | _ => stale_slot
  end.

(** An 11 pixel wide view, magnified twice, that starts at column 5 of
    the 10x1 image at 8192. *)
Definition wide_crop (target : abi) : BaseDisplayItem :=
  init_scaled_cropped_image target stale_slot 0 0 11 1 None 5 0 2 1 10 1 8192.

(** The example of the specification: a 10 pixel wide view, magnified
    twice, that starts at column 8 of the 10x1 image at 8192. *)
Definition narrow_crop (target : abi) : BaseDisplayItem :=
  init_scaled_cropped_image target stale_slot 0 0 10 1 None 8 0 2 1 10 1 8192.

(** The 4x1 image at 20480, without background. *)
Definition demo_sprite (target : abi) : BaseDisplayItem :=
  init_image target stale_slot 0 0 None 4 1 20480.

(** A 16x1 screen. *)
Definition wide_screen : Screen :=
  {| screen_w := 16; screen_h := 1; screen_pixels := repeat 2155905152 16 |}.

(** A colour mapping for a 0x00RRGGBB surface. *)
Definition rgb888 (r g b : Z) : Z := r * 65536 + g * 256 + b.

(** A reading for [READ_32_UNALIGNED] on a little-endian target: the
    four bytes of the word taken as a big-endian number, the byte at the
    lowest address first. *)
Definition read_32_be (w : Z) : Z :=
  Z.lor (Z.shiftl (Z.land w 255) 24)
    (Z.lor (Z.shiftl (Z.land (Z.shiftr w 8) 255) 16)
       (Z.lor (Z.shiftl (Z.land (Z.shiftr w 16) 255) 8)
              (Z.land (Z.shiftr w 24) 255))).

(** An 8x2 screen filled with the grey that [display_loop] sets. *)
Definition demo_screen : Screen :=
  {| screen_w := 8; screen_h := 2; screen_pixels := repeat 2155905152 16 |}.

(** ** Releasing an item array (display_items.h, [destroy_items]) *)

(** [free]: the null pointer is accepted and ignored; any other pointer
    must be the address of a live block, which is released.  Anything else
    (a pointer that was never allocated, or was freed already) is undefined
    in C: [None]. *)
Definition free (p : Z) (heap : gmap Z (list Z)) : option (gmap Z (list Z)) :=
  if p =? 0 then Some heap
  else match heap !! p with
       | Some _ => Some (delete p heap)
       | None => None
       end.

(** The loop of [destroy_items]: only text items own storage.  The final
    [free (items)] releases the array itself, which is a list here. *)
Fixpoint destroy_items (target : abi) (items : list BaseDisplayItem)
    (heap : gmap Z (list Z)) : option (gmap Z (list Z)) :=
  match items with
  | [] => Some heap
  | item :: rest =>
      match item_primitive item with
      | Text =>
          match free (text_data_text target (data item)) heap with
          | Some heap' => destroy_items target rest heap'
          | None => None
          end
      | _ => destroy_items target rest heap
      end
  end.

(** The addresses that [destroy_items] passes to [free]. *)
Fixpoint text_pointers (target : abi) (items : list BaseDisplayItem) : list Z :=
  match items with
  | [] => []
  | item :: rest =>
      match item_primitive item with
      | Text => text_data_text target (data item) :: text_pointers target rest
      | _ => text_pointers target rest
      end
  end.

(** The last branch of [init_item]: an unknown command. *)
Definition init_invalid (old : BaseDisplayItem) : BaseDisplayItem :=
  {| item_primitive := Invalid; item_x := -1; item_y := -1;
     item_width := 1; item_height := 1;
     brcolor := brcolor old; data := data old;
     source_x := source_x old; source_y := source_y old;
     x_scale := x_scale old; y_scale := y_scale old |}.

(** ** Drawing one pixel of a surface (display.c, [epd_draw_pixel]) *)

(** [struct Surface]: [buffer] holds 32-bit pixels, row after row. *)
Record Surface : Type := {
  surface_width : Z;
  surface_height : Z;
  surface_buffer : list Z
}.

(** The colour argument is unused; the pixel becomes opaque black. *)
Definition epd_draw_pixel (xpos ypos color : Z) (surface : Surface)
  : result Surface :=
  if (xpos <? 0) || (ypos <? 0) || (xpos >=? surface_width surface)
     || (ypos >=? surface_height surface)
  then Done surface
  else
    let i := surface_width surface * ypos + xpos in
    if (0 <=? i) && (i <? Z.of_nat (length (surface_buffer surface)))
    then Done {| surface_width := surface_width surface;
                 surface_height := surface_height surface;
                 surface_buffer :=
                   <[Z.to_nat i := 4278190080]> (surface_buffer surface) |}
    else Crash (BadStore i).

(** ** Copying the screen to the window (display.c, [process_message]) *)

(** The SDL surface of the window, as far as the copy uses it. *)
Record Window : Type := {
  window_w : Z;
  window_h : Z;
  window_pixels : list Z
}.

(** [*srcpix] for [srcpix = screen->pixels + i]. *)
Definition load_pixel (i : Z) (s : Screen) : result Z :=
  if i <? 0 then Crash (BadLoad 0 i)
  else match screen_pixels s !! Z.to_nat i with
       | Some v => Done v
       | None => Crash (BadLoad 0 i)
       end.

(** [*destpix = v] for [destpix = surface->pixels + i]. *)
Definition store_window (i v : Z) (win : Window) : result Window :=
  if (0 <=? i) && (i <? Z.of_nat (length (window_pixels win)))
  then Done {| window_w := window_w win; window_h := window_h win;
               window_pixels := <[Z.to_nat i := v]> (window_pixels win) |}
  else Crash (BadStore i).

(** [for (xpos = ...; xpos < surface->w; xpos++)] with [n] iterations
    left. *)
Fixpoint scale_up_row (n : nat) (xpos ypos scale : Z) (s : Screen) (win : Window)
  : result Window :=
  match n with
  | O => Done win
  | S n' =>
      if scale =? 0 then Crash DivZero
      else
        do v <- load_pixel (screen_w s * Z.quot ypos scale + Z.quot xpos scale) s;
        do win' <- store_window (window_w win * ypos + xpos) v win;
        scale_up_row n' (xpos + 1) ypos scale s win'
  end.

(** [for (ypos = ...; ypos < surface->h; ypos++)] with [n] iterations
    left. *)
Fixpoint scale_up_rows (n : nat) (ypos scale : Z) (s : Screen) (win : Window)
  : result Window :=
  match n with
  | O => Done win
  | S n' =>
      do win' <- scale_up_row (Z.to_nat (window_w win)) 0 ypos scale s win;
      scale_up_rows n' (ypos + 1) scale s win'
  end.

(** The "copy and scale up" loops after [do_update]. *)
Definition scale_up (scale : Z) (s : Screen) (win : Window) : result Window :=
  scale_up_rows (Z.to_nat (window_h win)) 0 scale s win.

(** ** Keyboard events (display.c, [send_keyboard_event]) *)




(** ** Notions used to state the further properties *)

(** [r] covers [q]: every edge of [q] lies inside [r]. *)
Definition covers (r q : Rectangle) : Prop :=
  rect_x r ≤ rect_x q ∧ rect_y r ≤ rect_y q
  ∧ rect_x q + rect_width q ≤ rect_x r + rect_width r
  ∧ rect_y q + rect_height q ≤ rect_y r + rect_height r.

(** The C string stored in a block: its bytes up to the first NUL. *)
Fixpoint c_string (cells : list Z) : list Z :=
  match cells with
  | [] => []
  | c :: rest => if c =? 0 then [] else c :: c_string rest
  end.

(** The pixel of the frame buffer at column [x] of row [y]. *)
Definition pixel_at (s : Screen) (x y : Z) : option Z :=
  screen_pixels s !! Z.to_nat (screen_w s * y + x).

(** A screen whose buffer has [w * h] pixels. *)
Definition screen_ok (s : Screen) : Prop :=
  0 ≤ screen_w s ∧ 0 ≤ screen_h s
  ∧ Z.of_nat (length (screen_pixels s)) = screen_w s * screen_h s.

(** Between [s] and [s'] only the [n] pixels from [base] on may differ. *)
Definition only_span_written (base n : Z) (s s' : Screen) : Prop :=
  screen_w s' = screen_w s ∧ screen_h s' = screen_h s
  ∧ length (screen_pixels s') = length (screen_pixels s)
  ∧ ∀ i : nat, Z.of_nat i < base ∨ base + n ≤ Z.of_nat i →
      screen_pixels s' !! i = screen_pixels s !! i.

(** What one iteration of a row renderer decides for the pixel [k] of
    its run: a colour to store, or [None] to stop.  The four loops of the
    renderers are instances of [pixel_run] below. *)
Section Samples.

Variable heap : gmap Z (list Z).
Variable SDL_MapRGB : Z → Z → Z → Z.
Variable READ_32_UNALIGNED : Z → Z.
Variable fontdata : list Z.

Definition pixel_choice (opaque : bool) (color : Z) (visible_bg : bool) (bgcolor : Z)
  : option Z :=
  if opaque then Some color else if visible_bg then Some bgcolor else None.

Definition image_sample (pix src : Z) (visible_bg : bool) (bgcolor : Z) (k : Z)
  : result (option Z) :=
  do p <- load heap pix (src + k);
  Done (pixel_choice (negb (Z.land (Z.shiftr p 24) 255 =? 0))
                     (uint32_color_to_surface SDL_MapRGB (READ_32_UNALIGNED p))
                     visible_bg bgcolor).

(** The run that starts at offset [j0] of the box reads [src] for its
    first pixel and, for pixel [k > 0], the source column of offset
    [j0 + k - 1]. *)
Definition scaled_sample (pix src row_off sx xs j0 : Z) (visible_bg : bool)
    (bgcolor : Z) (k : Z) : result (option Z) :=
  do p <- load heap pix
            (if k =? 0 then src else row_off + sx + Z.quot (j0 + k - 1) xs);
  Done (pixel_choice (negb (Z.land (Z.shiftr p 24) 255 =? 0))
                     (uint32_color_to_surface SDL_MapRGB (READ_32_UNALIGNED p))
                     visible_bg bgcolor).

Definition text_sample (text dy fgcolor : Z) (visible_bg : bool) (bgcolor : Z)
    (j0 k : Z) : result (option Z) :=
  do c <- load heap text (Z.quot (j0 + k) CHAR_WIDTH);
  do row <- glyph_byte fontdata (c mod 256 * 16 + dy);
  Done (pixel_choice
          (negb (Z.land row (Z.shiftl 1 (7 - Z.rem (j0 + k) CHAR_WIDTH)) =? 0))
          fgcolor visible_bg bgcolor).

Fixpoint pixel_run (n : nat) (sample : Z → result (option Z))
    (base drawn_pixels : Z) (s : Screen) : result (Z * Screen) :=
  match n with
  | O => Done (drawn_pixels, s)
  | S n' =>
      do choice <- sample drawn_pixels;
      match choice with
      | Some v =>
          do s' <- store_pixel (base + drawn_pixels) v s;
          pixel_run n' sample base (drawn_pixels + 1) s'
      | None => Done (drawn_pixels, s)
      end
  end.

End Samples.

(** ** Further concrete scenes *)

(** A glyph table in which every row of every glyph is 10101010. *)
Definition demo_font : list Z := repeat 170 4096.

(** A 16x16 screen. *)
Definition text_screen : Screen :=
  {| screen_w := 16; screen_h := 16; screen_pixels := repeat 2155905152 256 |}.

(** The text "Hi" of [demo_heap] at the origin, white without background. *)
Definition demo_label (target : abi) : BaseDisplayItem :=
  match init_text target demo_heap stale_slot 0 0 16777215 None 12288 with
  | Done it => it
  | _ => stale_slot
  end.

(** The transparent image at 4096 with a blue background. *)
Definition demo_backed (target : abi) : BaseDisplayItem :=
  init_image target stale_slot 0 0 (Some 255) 4 1 4096.

(** The example view of the specification with a blue background: its
    box is 10 pixels wide, its clipped width is 4. *)
Definition backed_crop (target : abi) : BaseDisplayItem :=
  init_scaled_cropped_image target stale_slot 0 0 10 1 (Some 255) 8 0 2 1 10 1 8192.

(** A 16x4 window, for the 8x2 screen magnified twice. *)
Definition demo_window : Window :=
  {| window_w := 16; window_h := 4; window_pixels := repeat 0 64 |}.

(** A 4x2 surface. *)
Definition demo_surface : Surface :=
  {| surface_width := 4; surface_height := 2; surface_buffer := repeat 0 8 |}.

(** * Properties *)

(** ** Rectangle union *)

Lemma int_min_spec a b : int_min a b = Z.min a b.
Proof. unfold int_min. destruct (Z.gtb_spec a b); lia. Qed.

Lemma int_max_spec a b : int_max a b = Z.max a b.
Proof. unfold int_max. destruct (Z.gtb_spec a b); lia. Qed.

Lemma update_damaged_area_invalid area damage :
  valid area = false →
  update_damaged_area area damage =
    {| rect_x := rect_x damage; rect_y := rect_y damage;
       rect_width := rect_width damage; rect_height := rect_height damage;
       valid := true |}.
Proof. intros Hv. unfold update_damaged_area. by rewrite Hv. Qed.

(** What the sequential assignments compute for a valid accumulator: the
    right and bottom edges are taken from the already lowered origin. *)
Lemma update_damaged_area_valid area damage :
  valid area = true →
  let r := update_damaged_area area damage in
  rect_x r = Z.min (rect_x area) (rect_x damage)
  ∧ rect_y r = Z.min (rect_y area) (rect_y damage)
  ∧ rect_x r + rect_width r =
      Z.max (rect_x r + rect_width area) (rect_x damage + rect_width damage)
  ∧ rect_y r + rect_height r =
      Z.max (rect_y r + rect_height area) (rect_y damage + rect_height damage)
  ∧ valid r = true.
Proof.
  intros Hv. unfold update_damaged_area. rewrite Hv. cbn.
  rewrite !int_min_spec, !int_max_spec. repeat split; lia.
Qed.

(** C2.  [update_damaged_area] does not yield the rectangle covering both
    arguments: with the accumulator (10, 0, 10x10) and the damage
    (0, 0, 5x10) it returns (0, 0, 10x10), whose right edge 10 lies left
    of the accumulator's right edge 20, the maximum of the two right
    edges taken before the update.  The first diff of a scene made of
    these two rectangles returns that rectangle as its damage. *)
Theorem update_damaged_area_stale_x :
  let area := {| rect_x := 10; rect_y := 0; rect_width := 10; rect_height := 10;
                 valid := true |} in
  let damage := {| rect_x := 0; rect_y := 0; rect_width := 5; rect_height := 10;
                   valid := true |} in
  let r := update_damaged_area area damage in
  r = {| rect_x := 0; rect_y := 0; rect_width := 10; rect_height := 10;
         valid := true |}
  ∧ rect_x r + rect_width r = 10
  ∧ Z.max (rect_x area + rect_width area) (rect_x damage + rect_width damage) = 20
  ∧ ∀ target heap,
      dumb_diff target heap []
        [init_rect stale_slot 10 0 10 10 255; init_rect stale_slot 0 0 5 10 255]
        no_damage = Done r.
Proof. cbn. repeat split; reflexivity. Qed.

(** ** The differ *)

Section DiffFacts.

Variable target : abi.
Variable heap : gmap Z (list Z).

Lemma item_at_lookup (arr : list BaseDisplayItem) (i : nat) it :
  arr !! i = Some it → item_at arr (Z.of_nat i) = Done it.
Proof.
  intros Hi. unfold item_at.
  destruct (Z.ltb_spec (Z.of_nat i) 0); [lia|].
  by rewrite Nat2Z.id, Hi.
Qed.

Lemma item_at_past_end (arr : list BaseDisplayItem) (i : Z) :
  Z.of_nat (length arr) ≤ i → item_at arr i = Crash (BadIndex i).
Proof.
  intros Hi. unfold item_at.
  destruct (Z.ltb_spec i 0); [done|].
  rewrite (lookup_ge_None_2 arr (Z.to_nat i)); [done | lia].
Qed.

(** Matching item by item never moves the damage rectangle. *)
Lemma diff_loop_equivalent (pre suf new : list BaseDisplayItem) damaged :
  Forall2 (λ n o, cmp_display_item target heap n o = Done true) new suf →
  diff_loop target heap (pre ++ suf) new (Z.of_nat (length pre)) damaged
  = Done damaged.
Proof.
  intros Hall. revert pre.
  induction Hall as [| n o new' suf' Hcmp _ IH]; intros pre; [done|].
  cbn [diff_loop].
  rewrite (item_at_lookup _ _ o) by (by apply list_lookup_middle).
  cbn [rbind]. rewrite Hcmp. cbn [rbind].
  specialize (IH (pre ++ [o])).
  rewrite <- app_assoc, length_app in IH. cbn in IH.
  replace (Z.of_nat (length pre) + 1) with (Z.of_nat (length pre + 1)) by lia.
  exact IH.
Qed.

Lemma diff_equivalent (orig new : list BaseDisplayItem) damaged :
  Forall2 (λ n o, cmp_display_item target heap n o = Done true) new orig →
  dumb_diff target heap orig new damaged = Done damaged.
Proof.
  intros Hall. unfold dumb_diff. destruct orig as [| o orig'].
  - inversion Hall; subst. reflexivity.
  - change (Z.of_nat (length (o :: orig')) =? 0) with false.
    cbv iota.
    exact (diff_loop_equivalent [] (o :: orig') new damaged Hall).
Qed.

(** C4.  Diffing a list against an element-wise equivalent list (every
    new item compares equal to the previous item at the same position)
    returns the damage rectangle it was given; starting from the
    invalid rectangle of [do_update], the result is still invalid. *)
Theorem dumb_diff_equivalent_lists (orig new : list BaseDisplayItem) damaged :
  Forall2 (λ n o, cmp_display_item target heap n o = Done true) new orig →
  dumb_diff target heap orig new damaged = Done damaged
  ∧ (valid damaged = false →
     ∃ d, dumb_diff target heap orig new damaged = Done d ∧ valid d = false).
Proof.
  intros Hall. pose proof (diff_equivalent orig new damaged Hall) as Hd.
  split; [exact Hd|]. intros Hv. exists damaged. by split.
Qed.

End DiffFacts.

(** When a later previous item matches while [j] is still 0, the loop
    [for (l = k - j; l < k; l++)] has no iteration. *)
Lemma damage_skipped_from_start orig k damaged :
  damage_skipped orig (Z.to_nat (k - (k - 0))) (k - 0) damaged = Done damaged.
Proof. replace (k - (k - 0)) with 0 by lia. reflexivity. Qed.

(** C3.  The previous items skipped by the forward scan are not all
    added to the damage: with previous list [rect_a; rect_b] and new list
    [rect_b], the scan finds [rect_b] at k = 1 while j = 0, the loop over
    l runs from k - j = 1 to k = 1, that is not at all, and the bounding
    box of the skipped [rect_a] is not added: the damage rectangle is still
    invalid after the diff, and the update that removes [rect_a] from the
    scene leaves the screen as it is. *)
Theorem dumb_diff_skipped_not_damaged (target : abi) (heap : gmap Z (list Z)) :
  dumb_diff target heap [rect_a; rect_b] [rect_b] no_damage = Done no_damage
  ∧ ∀ SDL_MapRGB READ_32_UNALIGNED fontdata fuel s,
      do_update target heap SDL_MapRGB READ_32_UNALIGNED fontdata fuel [rect_b]
        {| prev_items := [rect_a; rect_b]; screen := s |}
      = Done {| prev_items := [rect_b]; screen := s |}.
Proof. split; reflexivity. Qed.

(** Once every previous item has been matched, the next new item is
    compared with [orig[orig_len]]. *)
Lemma diff_loop_past_end target heap (orig new : list BaseDisplayItem) j damaged :
  Z.of_nat (length orig) ≤ j → new ≠ [] →
  diff_loop target heap orig new j damaged = Crash (BadIndex j).
Proof.
  intros Hj Hnew. destruct new as [| n new']; [done|].
  cbn [diff_loop]. by rewrite item_at_past_end.
Qed.

Lemma diff_loop_equivalent_then_more target heap
    (pre suf new more : list BaseDisplayItem) damaged :
  Forall2 (λ n o, cmp_display_item target heap n o = Done true) new suf →
  more ≠ [] →
  diff_loop target heap (pre ++ suf) (new ++ more) (Z.of_nat (length pre)) damaged
  = Crash (BadIndex (Z.of_nat (length (pre ++ suf)))).
Proof.
  intros Hall Hmore. revert pre.
  induction Hall as [| n o new' suf' Hcmp _ IH]; intros pre.
  - rewrite app_nil_r. cbn [app]. apply diff_loop_past_end; [lia | done].
  - cbn [diff_loop app].
    rewrite (item_at_lookup _ _ o) by (by apply list_lookup_middle).
    cbn [rbind]. rewrite Hcmp. cbn [rbind].
    specialize (IH (pre ++ [o])).
    rewrite <- app_assoc, length_app in IH. cbn in IH.
    replace (Z.of_nat (length pre) + 1) with (Z.of_nat (length pre + 1)) by lia.
    exact IH.
Qed.

(** A new list that extends an equivalent copy of a non-empty previous
    list makes [dumb_diff] read one element past the previous array. *)
Lemma dumb_diff_longer_new target heap (orig new more : list BaseDisplayItem) damaged :
  Forall2 (λ n o, cmp_display_item target heap n o = Done true) new orig →
  orig ≠ [] → more ≠ [] →
  dumb_diff target heap orig (new ++ more) damaged
  = Crash (BadIndex (Z.of_nat (length orig))).
Proof.
  intros Hall Horig Hmore. unfold dumb_diff.
  destruct orig as [| o orig']; [done|].
  change (Z.of_nat (length (o :: orig')) =? 0) with false. cbv iota.
  exact (diff_loop_equivalent_then_more target heap [] (o :: orig') new more
           damaged Hall Hmore).
Qed.

(** C6.  [dumb_diff] does read [previous[j]] with [j] equal to the length
    of the previous list: with previous list [rect_a] and new list
    [rect_a; rect_b], the first new item matches and moves j to 1, and the
    second new item is compared with [orig[1]] of a one-element array.
    The update that adds [rect_b] to the scene [rect_a] stops there. *)
Theorem dumb_diff_reads_past_orig (target : abi) (heap : gmap Z (list Z)) :
  dumb_diff target heap [rect_a] [rect_a; rect_b] no_damage = Crash (BadIndex 1)
  ∧ ∀ SDL_MapRGB READ_32_UNALIGNED fontdata fuel s,
      do_update target heap SDL_MapRGB READ_32_UNALIGNED fontdata fuel [rect_a; rect_b]
        {| prev_items := [rect_a]; screen := s |}
      = Crash (BadIndex 1).
Proof. split; reflexivity. Qed.

(** ** Equivalence of scaled cropped images *)

Lemma image_data_with_size_pix_set target width height pix d :
  0 ≤ pix < ptr_limit target →
  image_data_with_size_pix target (set_image_data_with_size target width height pix d)
  = pix.
Proof.
  intros Hp. destruct target; cbn in *; unfold two32 in *.
  - apply Z.mod_small. lia.
  - rewrite (Z.mod_small (pix / 4294967296)).
    + pose proof (Z.div_mod pix 4294967296). lia.
    + split; [apply Z.div_pos; lia | apply Z.div_lt_upper_bound; lia].
Qed.

Lemma image_data_pix_of_with_size target width height pix d :
  image_data_pix target (set_image_data_with_size target width height pix d)
  = match target with
    | ILP32 => word_of_int width
    | LP64 => word_of_int width + two32 * word_of_int height
    end.
Proof. by destruct target. Qed.

(** Two scaled cropped images that differ in nothing but their pixel
    buffers are equivalent for [cmp_display_item]: the member it compares,
    [data.image_data.pix], lies over [width] and [height] of
    [data.image_data_with_size]. *)
Lemma cmp_display_item_scaled_any_pix target heap old1 old2
    x y width height bgcolor sx sy xs ys img_width img_height pix1 pix2 :
  cmp_display_item target heap
    (init_scaled_cropped_image target old1 x y width height bgcolor sx sy xs ys
       img_width img_height pix1)
    (init_scaled_cropped_image target old2 x y width height bgcolor sx sy xs ys
       img_width img_height pix2)
  = Done true.
Proof.
  unfold cmp_display_item. cbn -[image_data_pix set_image_data_with_size].
  rewrite !Z.eqb_refl. cbn -[image_data_pix set_image_data_with_size].
  by rewrite !image_data_pix_of_with_size, Z.eqb_refl.
Qed.

(** The same buffer presented with another backing width is not
    equivalent, although every field the comparison is meant to look at
    agrees. *)
Lemma cmp_display_item_scaled_same_pix target heap :
  cmp_display_item target heap
    (init_scaled_cropped_image target stale_slot 0 0 32 32 None 0 0 2 2 16 16 4096)
    (init_scaled_cropped_image target stale_slot 0 0 32 32 None 0 0 2 2 8 32 4096)
  = Done false.
Proof. by destruct target. Qed.

(** C7.  Equivalence of two scaled cropped images does not depend on the
    identity of the backing pixel buffer: two items that agree on kind,
    geometry, background colour, scale factors, source origin and backing
    image size, with the distinct buffers 4096 and 8192, compare equal,
    and the update that replaces one by the other repaints nothing. *)
Theorem cmp_display_item_scaled_ignores_pix (target : abi) (heap : gmap Z (list Z)) :
  let a := init_scaled_cropped_image target stale_slot 0 0 32 32 None 0 0 2 2
             16 16 4096 in
  let b := init_scaled_cropped_image target stale_slot 0 0 32 32 None 0 0 2 2
             16 16 8192 in
  cmp_display_item target heap a b = Done true
  ∧ image_data_with_size_pix target (data a) = 4096
  ∧ image_data_with_size_pix target (data b) = 8192
  ∧ ∀ SDL_MapRGB READ_32_UNALIGNED fontdata fuel s,
      do_update target heap SDL_MapRGB READ_32_UNALIGNED fontdata fuel [b]
        {| prev_items := [a]; screen := s |}
      = Done {| prev_items := [b]; screen := s |}.
Proof. by destruct target. Qed.

(** ** The renderers always make progress *)

(** Case analysis on the next operation of a run. *)
Ltac run_step H :=
  match type of H with
  | rbind ?r _ = _ =>
      let E := fresh "E" in
      destruct r eqn:E; cbn [rbind] in H; try discriminate H
  | (if ?b then _ else _) = _ =>
      let E := fresh "E" in destruct b eqn:E
  end.

Section Progress.

Variable target : abi.
Variable heap : gmap Z (list Z).
Variable SDL_MapRGB : Z → Z → Z → Z.
Variable READ_32_UNALIGNED : Z → Z.
Variable fontdata : list Z.




Lemma image_run_count n pix src base vb bg drawn s r s' :
  image_run heap SDL_MapRGB READ_32_UNALIGNED
      n pix src base vb bg drawn s = Done (r, s') →
  drawn ≤ r ≤ drawn + Z.of_nat n.
Proof.
  revert src drawn s. induction n as [| n IH]; intros src drawn s H.
  - cbn in H. injection H as -> _. lia.
  - cbn [image_run] in H. repeat run_step H;
      try (apply IH in H; lia); injection H as -> _; lia.
Qed.

Lemma scaled_run_count n j pix src row_off sx xs base vb bg drawn s r s' :
  scaled_run heap SDL_MapRGB READ_32_UNALIGNED
      n j pix src row_off sx xs base vb bg drawn s
  = Done (r, s') →
  drawn ≤ r ≤ drawn + Z.of_nat n.
Proof.
  revert j src drawn s. induction n as [| n IH]; intros j src drawn s H.
  - cbn in H. injection H as -> _. lia.
  - cbn [scaled_run] in H. repeat run_step H;
      try (apply IH in H; lia); injection H as -> _; lia.
Qed.

Lemma rect_run_count n base color drawn s r s' :
  rect_run n base color drawn s = Done (r, s') → r = drawn + Z.of_nat n.
Proof.
  revert drawn s. induction n as [| n IH]; intros drawn s H.
  - cbn in H. injection H as -> _. lia.
  - cbn [rect_run] in H. run_step H. apply IH in H. lia.
Qed.

Lemma text_run_count n j text dy base fg vb bg drawn s r s' :
  text_run heap fontdata n j text dy base fg vb bg drawn s = Done (r, s') →
  drawn ≤ r ≤ drawn + Z.of_nat n.
Proof.
  revert j drawn s. induction n as [| n IH]; intros j drawn s H.
  - cbn in H. injection H as -> _. lia.
  - cbn [text_run] in H. cbv zeta in H. repeat run_step H;
      try (apply IH in H; lia); injection H as -> _; lia.
Qed.





(** Every row renderer returns a count that is not negative. *)
Lemma renderer_count xpos ypos max_line_len item s r s' :
  match item_primitive item with
  | Image => draw_image_x target heap SDL_MapRGB READ_32_UNALIGNED
      xpos ypos max_line_len item s
  | ScaledCroppedImage =>
      draw_scaled_cropped_img_x target heap SDL_MapRGB READ_32_UNALIGNED
          xpos ypos max_line_len item s
  | Rect => draw_rect_x SDL_MapRGB xpos ypos max_line_len item s
  | Text => draw_text_x target heap SDL_MapRGB fontdata xpos ypos max_line_len item s
  | Invalid => Done (0, s)
  end = Done (r, s') →
  0 ≤ r.
Proof.
  destruct (item_primitive item); intros H.
  - injection H as <- _. lia.
  - apply image_run_count in H. lia.
  - unfold draw_scaled_cropped_img_x in H. cbv zeta in H.
    destruct (_ || _); [done|]. apply scaled_run_count in H. lia.
  - apply rect_run_count in H. lia.
  - apply text_run_count in H. lia.
Qed.


Lemma draw_x_from_positive rest i below xpos ypos items s n s' :
  draw_x_from target heap SDL_MapRGB READ_32_UNALIGNED fontdata
      rest i below xpos ypos items s
  = Done (n, s') →
  1 ≤ n.
Proof.
  revert i below s.
  induction rest as [| item rest IH]; intros i below s H.
  - cbn in H. injection H as <- _. lia.
  - cbn [draw_x_from] in H. cbv zeta in H.
    destruct (outside xpos ypos item); [by apply IH in H|].
    match type of H with
    | rbind ?r _ = _ => destruct r as [[d t] | |] eqn:Er
    end; cbn [rbind] in H; try done.
    apply renderer_count in Er.
    destruct (Z.eqb_spec d 0); cbn [negb] in H.
    + by apply IH in H.
    + injection H as <- _. lia.
Qed.





End Progress.

(** ** What an update and an image run write *)

Lemma store_pixel_inside i v s :
  0 ≤ i < Z.of_nat (length (screen_pixels s)) →
  store_pixel i v s
  = Done {| screen_w := screen_w s; screen_h := screen_h s;
            screen_pixels := <[Z.to_nat i := v]> (screen_pixels s) |}.
Proof.
  intros Hi. unfold store_pixel.
  destruct (Z.leb_spec 0 i), (Z.ltb_spec i (Z.of_nat (length (screen_pixels s))));
    try lia. reflexivity.
Qed.


Section Effects.

Variable target : abi.
Variable heap : gmap Z (list Z).
Variable SDL_MapRGB : Z → Z → Z → Z.
Variable READ_32_UNALIGNED : Z → Z.
Variable fontdata : list Z.

(** C9.  When the diff leaves the damage rectangle invalid, [do_update]
    returns right after adopting the new list: the screen of the
    resulting state is the screen it started with, pixel for pixel. *)
Theorem do_update_skips_repaint fuel items st d :
  dumb_diff target heap (prev_items st) items no_damage = Done d →
  valid d = false →
  do_update target heap SDL_MapRGB READ_32_UNALIGNED fontdata fuel items st
  = Done {| prev_items := items; screen := screen st |}.
Proof.
  intros Hd Hv. unfold do_update. cbv zeta.
  rewrite Hd. cbn [rbind]. by rewrite Hv.
Qed.

Lemma store_pixel_done i v s s' :
  store_pixel i v s = Done s' →
  0 ≤ i < Z.of_nat (length (screen_pixels s))
  ∧ screen_w s' = screen_w s ∧ screen_h s' = screen_h s
  ∧ screen_pixels s' = <[Z.to_nat i := v]> (screen_pixels s).
Proof.
  unfold store_pixel. intros H.
  destruct (Z.leb_spec 0 i), (Z.ltb_spec i (Z.of_nat (length (screen_pixels s))));
    cbn in H; try discriminate H.
  injection H as <-. cbn. repeat split; lia.
Qed.

(** The outcome of the loop of [draw_image_x], started with
    [drawn] pixels already counted. *)
Lemma image_run_outcome n pix src base vb bg drawn s r s' :
  image_run heap SDL_MapRGB READ_32_UNALIGNED
      n pix src base vb bg drawn s = Done (r, s') →
  screen_w s' = screen_w s ∧ screen_h s' = screen_h s
  ∧ length (screen_pixels s') = length (screen_pixels s)
  ∧ (∀ i : nat, Z.of_nat i < base + drawn ∨ base + r ≤ Z.of_nat i →
       screen_pixels s' !! i = screen_pixels s !! i)
  ∧ (∀ k, drawn ≤ k < r →
       ∃ p, load heap pix (src + (k - drawn)) = Done p
            ∧ (Z.land (p ≫ 24) 255 = 0 → vb = true)
            ∧ screen_pixels s' !! Z.to_nat (base + k)
              = Some (if Z.land (p ≫ 24) 255 =? 0 then bg
                      else uint32_color_to_surface SDL_MapRGB (READ_32_UNALIGNED p)))
  ∧ (r < drawn + Z.of_nat n →
       ∃ p, load heap pix (src + (r - drawn)) = Done p
            ∧ Z.land (p ≫ 24) 255 = 0 ∧ vb = false).
Proof.
  revert src drawn s. induction n as [| n IH]; intros src drawn s H.
  - cbn in H. injection H as <- <-.
    repeat split; try done; intros; lia.
  - cbn [image_run] in H.
    destruct (load heap pix src) as [p | |] eqn:El; cbn [rbind] in H;
      try discriminate H.
    assert (Hstep : ∀ v t,
      store_pixel (base + drawn) v s = Done t →
      image_run heap SDL_MapRGB READ_32_UNALIGNED n pix (src + 1) base vb bg (drawn + 1) t
      = Done (r, s') →
      (Z.land (p ≫ 24) 255 = 0 → vb = true) →
      v = (if Z.land (p ≫ 24) 255 =? 0 then bg
           else uint32_color_to_surface SDL_MapRGB (READ_32_UNALIGNED p)) →
      screen_w s' = screen_w s ∧ screen_h s' = screen_h s
      ∧ length (screen_pixels s') = length (screen_pixels s)
      ∧ (∀ i : nat, Z.of_nat i < base + drawn ∨ base + r ≤ Z.of_nat i →
           screen_pixels s' !! i = screen_pixels s !! i)
      ∧ (∀ k, drawn ≤ k < r →
           ∃ q, load heap pix (src + (k - drawn)) = Done q
                ∧ (Z.land (q ≫ 24) 255 = 0 → vb = true)
                ∧ screen_pixels s' !! Z.to_nat (base + k)
                  = Some (if Z.land (q ≫ 24) 255 =? 0 then bg
                          else uint32_color_to_surface SDL_MapRGB (READ_32_UNALIGNED q)))
      ∧ (r < drawn + Z.of_nat (S n) →
           ∃ q, load heap pix (src + (r - drawn)) = Done q
                ∧ Z.land (q ≫ 24) 255 = 0 ∧ vb = false)).
    { intros v t Hst Hrun Hvb Hv.
      apply store_pixel_done in Hst as (Hi & Hw & Hh & Hpx).
      pose proof Hrun as Hr. apply image_run_count in Hr.
      apply IH in Hrun as (Hw' & Hh' & Hlen & Hframe & Hdrawn & Hstop).
      split; [congruence|]. split; [congruence|].
      split; [by rewrite Hlen, Hpx, length_insert|].
      split; [| split].
      - intros i Hi'. rewrite Hframe by lia. rewrite Hpx.
        apply list_lookup_insert_ne. lia.
      - intros k Hk. destruct (Z.eq_dec k drawn) as [-> | Hne].
        + exists p. replace (src + (drawn - drawn)) with src by lia.
          split; [done|]. split; [done|].
          rewrite Hframe by lia. rewrite Hpx, <- Hv.
          apply list_lookup_insert_eq. lia.
        + destruct (Hdrawn k) as (q & Hq & Hqvb & Hqpx); [lia|].
          exists q. replace (src + (k - drawn)) with (src + 1 + (k - (drawn + 1)))
            by lia. done.
      - intros Hlt. destruct Hstop as (q & Hq & Hqa & Hqvb); [lia|].
        exists q. replace (src + (r - drawn)) with (src + 1 + (r - (drawn + 1)))
          by lia. done. }
    destruct (Z.eqb_spec (Z.land (p ≫ 24) 255) 0) as [Ha | Ha]; cbn [negb] in H.
    + destruct vb.
      * destruct (store_pixel (base + drawn) bg s) as [t | |] eqn:Est;
          cbn [rbind] in H; try discriminate H.
        apply (Hstep bg t); [done | done | done |].
        destruct (Z.eqb_spec (Z.land (p ≫ 24) 255) 0); [done | lia].
      * injection H as <- <-.
        repeat split; try done; try (intros; lia).
        intros _. exists p. replace (src + (drawn - drawn)) with src by lia.
        done.
    + destruct (store_pixel (base + drawn)
                  (uint32_color_to_surface SDL_MapRGB (READ_32_UNALIGNED p)) s)
        as [t | |] eqn:Est; cbn [rbind] in H; try discriminate H.
      apply (Hstep (uint32_color_to_surface SDL_MapRGB (READ_32_UNALIGNED p)) t);
        [done | done | lia |].
      destruct (Z.eqb_spec (Z.land (p ≫ 24) 255) 0); [lia | done].
Qed.

(** The loop of [draw_image_x] returns when the samples lie inside the
    pixel buffer and the run fits the frame buffer. *)
Lemma image_run_returns n pix cells src base vb bg drawn s :
  heap !! pix = Some cells →
  0 ≤ src → src + Z.of_nat n ≤ Z.of_nat (length cells) →
  0 ≤ base + drawn →
  base + drawn + Z.of_nat n ≤ Z.of_nat (length (screen_pixels s)) →
  ∃ r s', image_run heap SDL_MapRGB READ_32_UNALIGNED
      n pix src base vb bg drawn s = Done (r, s').
Proof.
  intros Hcells. revert src drawn s.
  induction n as [| n IH]; intros src drawn s Hsrc Hsrc' Hbase Hbase'.
  - by exists drawn, s.
  - cbn [image_run].
    assert (Hload : ∃ p, load heap pix src = Done p).
    { unfold load. rewrite Hcells. destruct (Z.ltb_spec src 0); [lia|].
      destruct (lookup_lt_is_Some_2 cells (Z.to_nat src)) as [p Hp]; [lia|].
      exists p. by rewrite Hp. }
    destruct Hload as [p ->]. cbn [rbind].
    assert (Hnext : ∀ v,
      ∃ r s', (do t <- store_pixel (base + drawn) v s;
               image_run heap SDL_MapRGB READ_32_UNALIGNED
                   n pix (src + 1) base vb bg (drawn + 1) t)
              = Done (r, s')).
    { intros v. rewrite store_pixel_inside by lia. cbn [rbind].
      apply IH; cbn [screen_pixels]; rewrite ?length_insert; lia. }
    destruct (negb (Z.land (p ≫ 24) 255 =? 0)); [apply Hnext|].
    destruct vb; [apply Hnext|]. by exists drawn, s.
Qed.

Lemma draw_image_x_returns xpos ypos max_line_len item s cells :
  item_x item ≤ xpos < item_x item + item_width item →
  item_y item ≤ ypos < item_y item + item_height item →
  1 ≤ max_line_len →
  heap !! image_data_pix target (data item) = Some cells →
  item_width item * item_height item ≤ Z.of_nat (length cells) →
  0 ≤ screen_w s * ypos + xpos →
  screen_w s * ypos + xpos
    + Z.min (item_width item - (xpos - item_x item)) max_line_len
  ≤ Z.of_nat (length (screen_pixels s)) →
  ∃ n s', draw_image_x target heap SDL_MapRGB READ_32_UNALIGNED
      xpos ypos max_line_len item s
          = Done (n, s').
Proof.
  intros Hx Hy Hmax Hcells Hsize Hbase Hroom. unfold draw_image_x. cbv zeta.
  set (iters := Z.to_nat _).
  assert (Hiters : Z.of_nat iters
                   = Z.min (item_width item - (xpos - item_x item)) max_line_len).
  { subst iters. destruct (Z.gtb_spec (item_width item)
      (xpos - item_x item + max_line_len)); lia. }
  assert (Hrow : 0 ≤ (ypos - item_y item) * item_width item) by nia.
  assert (Hrow' : (ypos - item_y item) * item_width item + item_width item
                  ≤ item_width item * item_height item) by nia.
  apply (image_run_returns _ _ cells); try done; lia.
Qed.

(** What a returning call of [draw_image_x] has written. *)
Lemma draw_image_x_written xpos ypos max_line_len item s n s' :
  item_x item ≤ xpos < item_x item + item_width item →
  item_y item ≤ ypos < item_y item + item_height item →
  1 ≤ max_line_len →
  draw_image_x target heap SDL_MapRGB READ_32_UNALIGNED xpos ypos max_line_len item s
  = Done (n, s') →
  let pix := image_data_pix target (data item) in
  let src := (ypos - item_y item) * item_width item + (xpos - item_x item) in
  let base := screen_w s * ypos + xpos in
  let span := Z.min (item_width item - (xpos - item_x item)) max_line_len in
  0 ≤ n ≤ span
  ∧ (∃ p0, load heap pix src = Done p0
           ∧ (n = 0 ↔ Z.land (p0 ≫ 24) 255 = 0 ∧ brcolor item = 0))
  ∧ (∀ k, 0 ≤ k < n →
       ∃ p, load heap pix (src + k) = Done p
            ∧ (Z.land (p ≫ 24) 255 = 0 → brcolor item ≠ 0)
            ∧ screen_pixels s' !! Z.to_nat (base + k)
              = Some (uint32_color_to_surface SDL_MapRGB
                        (if Z.land (p ≫ 24) 255 =? 0 then brcolor item
                         else READ_32_UNALIGNED p)))
  ∧ (n < span →
       ∃ p, load heap pix (src + n) = Done p
            ∧ Z.land (p ≫ 24) 255 = 0 ∧ brcolor item = 0)
  ∧ (∀ i : nat, Z.of_nat i < base ∨ base + n ≤ Z.of_nat i →
       screen_pixels s' !! i = screen_pixels s !! i)
  ∧ length (screen_pixels s') = length (screen_pixels s)
  ∧ screen_w s' = screen_w s ∧ screen_h s' = screen_h s.
Proof.
  intros Hx Hy Hmax H pix src base span.
  unfold draw_image_x in H. cbv zeta in H.
  fold pix src base in H.
  set (iters := Z.to_nat _) in H.
  assert (Hiters : Z.of_nat iters = span).
  { subst iters span. destruct (Z.gtb_spec (item_width item)
      (xpos - item_x item + max_line_len)); lia. }
  pose proof H as Hn. apply image_run_count in Hn.
  apply image_run_outcome in H as (Hw & Hh & Hlen & Hframe & Hdrawn & Hstop).
  assert (Hvb : ∀ b : bool, negb (brcolor item =? 0) = b →
                (b = true ↔ brcolor item ≠ 0)).
  { intros b <-. destruct (Z.eqb_spec (brcolor item) 0); cbn; split; done. }
  assert (Hwritten : ∀ k, 0 ≤ k < n →
       ∃ p, load heap pix (src + k) = Done p
            ∧ (Z.land (p ≫ 24) 255 = 0 → brcolor item ≠ 0)
            ∧ screen_pixels s' !! Z.to_nat (base + k)
              = Some (uint32_color_to_surface SDL_MapRGB
                        (if Z.land (p ≫ 24) 255 =? 0 then brcolor item
                         else READ_32_UNALIGNED p))).
  { intros k Hk. destruct (Hdrawn k) as (p & Hp & Hpvb & Hpx); [lia|].
    exists p. rewrite Z.sub_0_r in Hp. split; [done|]. split.
    - intros Ha. by apply (Hvb _ eq_refl), Hpvb.
    - rewrite Hpx. by destruct (Z.land (p ≫ 24) 255 =? 0). }
  assert (Hshort : n < span →
       ∃ p, load heap pix (src + n) = Done p
            ∧ Z.land (p ≫ 24) 255 = 0 ∧ brcolor item = 0).
  { intros Hlt. destruct Hstop as (p & Hp & Ha & Hpvb); [lia|].
    exists p. rewrite Z.sub_0_r in Hp. split; [done|]. split; [done|].
    destruct (Z.eqb_spec (brcolor item) 0); [done | by cbn in Hpvb]. }
  split; [lia|]. split; [| repeat split; try done].
  - destruct (Z.eq_dec n 0) as [-> | Hn0].
    + destruct Hshort as (p & Hp & Ha & Hb); [lia|].
      exists p. rewrite Z.add_0_r in Hp. by repeat split.
    + destruct (Hwritten 0) as (p & Hp & Hpb & _); [lia|].
      exists p. rewrite Z.add_0_r in Hp. split; [done|].
      split; [done|]. intros [Ha Hb]. by apply Hpb in Ha.
  - intros i Hi. apply Hframe. rewrite Z.add_0_r. exact Hi.
Qed.

(** C8.  For a position inside the box of an image item and a span of at
    least one pixel, [draw_image_x] returns when the image buffer holds
    [width * height] pixels and the run fits the frame buffer; and the
    count [n] of any returning call is the number of pixels it wrote: the
    pixels [base .. base + n - 1] of the frame buffer hold the mapped
    value that [READ_32_UNALIGNED] gives for the source pixel, or the
    mapped background where the source pixel is transparent, and every
    other pixel is left as it was, in particular
    those from the stopping column on.  The count is 0 exactly when the
    first sampled pixel has alpha 0 and the item has the no-fill
    background 0; and the run stops short of the span only on such a
    pixel. *)
Theorem draw_image_x_counts_written xpos ypos max_line_len item s :
  item_x item ≤ xpos < item_x item + item_width item →
  item_y item ≤ ypos < item_y item + item_height item →
  1 ≤ max_line_len →
  let pix := image_data_pix target (data item) in
  let src := (ypos - item_y item) * item_width item + (xpos - item_x item) in
  let base := screen_w s * ypos + xpos in
  let span := Z.min (item_width item - (xpos - item_x item)) max_line_len in
  (∀ cells,
     heap !! pix = Some cells →
     item_width item * item_height item ≤ Z.of_nat (length cells) →
     0 ≤ base → base + span ≤ Z.of_nat (length (screen_pixels s)) →
     ∃ n s', draw_image_x target heap SDL_MapRGB READ_32_UNALIGNED
         xpos ypos max_line_len item s
             = Done (n, s'))
  ∧ (∀ n s',
       draw_image_x target heap SDL_MapRGB READ_32_UNALIGNED xpos ypos max_line_len item s
       = Done (n, s') →
       0 ≤ n ≤ span
       ∧ (∃ p0, load heap pix src = Done p0
                ∧ (n = 0 ↔ Z.land (p0 ≫ 24) 255 = 0 ∧ brcolor item = 0))
       ∧ (∀ k, 0 ≤ k < n →
            ∃ p, load heap pix (src + k) = Done p
                 ∧ (Z.land (p ≫ 24) 255 = 0 → brcolor item ≠ 0)
                 ∧ screen_pixels s' !! Z.to_nat (base + k)
                   = Some (uint32_color_to_surface SDL_MapRGB
                             (if Z.land (p ≫ 24) 255 =? 0 then brcolor item
                              else READ_32_UNALIGNED p)))
       ∧ (n < span →
            ∃ p, load heap pix (src + n) = Done p
                 ∧ Z.land (p ≫ 24) 255 = 0 ∧ brcolor item = 0)
       ∧ (∀ i : nat, Z.of_nat i < base ∨ base + n ≤ Z.of_nat i →
            screen_pixels s' !! i = screen_pixels s !! i)
       ∧ length (screen_pixels s') = length (screen_pixels s)
       ∧ screen_w s' = screen_w s ∧ screen_h s' = screen_h s).
Proof.
  intros Hx Hy Hmax pix src base span. split.
  - intros cells Hcells Hsize Hbase Hroom.
    by apply (draw_image_x_returns _ _ _ _ _ cells).
  - intros n s' H. by apply draw_image_x_written.
Qed.

End Effects.

(** ** Falling through a transparent image *)

Lemma image_data_pix_set target pix d :
  0 ≤ pix < ptr_limit target →
  image_data_pix target (set_image_data target pix d) = pix.
Proof.
  intros Hp. destruct target; cbn in *; unfold two32 in *.
  - apply Z.mod_small. lia.
  - rewrite (Z.mod_small (pix / 4294967296)).
    + pose proof (Z.div_mod pix 4294967296). lia.
    + split; [apply Z.div_pos; lia | apply Z.div_lt_upper_bound; lia].
Qed.

Section FallThrough.

Variable target : abi.
Variable heap : gmap Z (list Z).
Variable SDL_MapRGB : Z → Z → Z → Z.
Variable READ_32_UNALIGNED : Z → Z.
Variable fontdata : list Z.

Lemma outside_false xpos ypos item :
  outside xpos ypos item = false ↔
  item_x item ≤ xpos < item_x item + item_width item
  ∧ item_y item ≤ ypos < item_y item + item_height item.
Proof.
  unfold outside. rewrite !orb_false_iff.
  rewrite !Z.ltb_ge, !Z.geb_leb, !Z.leb_gt. lia.
Qed.

(** A transparent first pixel and no background: nothing is drawn. *)
Lemma draw_image_x_transparent xpos ypos max_line_len item s p :
  item_x item ≤ xpos < item_x item + item_width item →
  1 ≤ max_line_len →
  brcolor item = 0 →
  load heap (image_data_pix target (data item))
       ((ypos - item_y item) * item_width item + (xpos - item_x item)) = Done p →
  Z.land (p ≫ 24) 255 = 0 →
  draw_image_x target heap SDL_MapRGB READ_32_UNALIGNED
      xpos ypos max_line_len item s = Done (0, s).
Proof.
  intros Hx Hmax Hbr Hload Ha. unfold draw_image_x. cbv zeta.
  set (iters := Z.to_nat _).
  assert (Hit : ∃ m, iters = S m).
  { exists (Nat.pred iters). subst iters.
    destruct (Z.gtb_spec (item_width item) (xpos - item_x item + max_line_len));
      lia. }
  destruct Hit as [m ->]. cbn [image_run].
  rewrite Hload. cbn [rbind]. by rewrite Ha, Hbr.
Qed.

(** A span of one pixel inside a rectangle: exactly that pixel is stored. *)
Lemma draw_rect_x_single xpos ypos item s :
  item_x item ≤ xpos < item_x item + item_width item →
  draw_rect_x SDL_MapRGB xpos ypos 1 item s
  = do s' <- store_pixel (screen_w s * ypos + xpos)
               (uint32_color_to_surface SDL_MapRGB (brcolor item)) s;
    Done (1, s').
Proof.
  intros Hx. unfold draw_rect_x. cbv zeta.
  set (iters := Z.to_nat _).
  assert (iters = 1%nat) as ->.
  { subst iters.
    destruct (Z.gtb_spec (item_width item) (xpos - item_x item + 1)); lia. }
  cbn [rect_run]. rewrite Z.add_0_r.
  by destruct (store_pixel _ _ s).
Qed.

(** The compositor step at a pixel covered by a transparent image
    without background lying over a rectangle: the image reports no
    progress, and the rectangle below draws the single pixel. *)
Lemma draw_x_falls_through img rect xpos ypos s p :
  item_primitive img = Image → outside xpos ypos img = false →
  brcolor img = 0 →
  load heap (image_data_pix target (data img))
       ((ypos - item_y img) * item_width img + (xpos - item_x img)) = Done p →
  Z.land (p ≫ 24) 255 = 0 →
  item_primitive rect = Rect → outside xpos ypos rect = false →
  1 ≤ screen_w s →
  draw_x target heap SDL_MapRGB READ_32_UNALIGNED fontdata xpos ypos [img; rect] s
  = do s' <- store_pixel (screen_w s * ypos + xpos)
               (uint32_color_to_surface SDL_MapRGB (brcolor rect)) s;
    Done (1, s').
Proof.
  intros Hi Hin Hbr Hload Ha Hr Hinr Hw.
  unfold draw_x. cbn [draw_x_from]. cbv zeta.
  rewrite Hin, Hinr, Hi, Hr.
  apply outside_false in Hin as [Hx _]. apply outside_false in Hinr as [Hxr _].
  rewrite (draw_image_x_transparent _ _ _ _ _ p) by done.
  cbn [rbind Z.eqb negb].
  rewrite draw_rect_x_single by done.
  by destruct (store_pixel _ _ s).
Qed.

Lemma repaint_row_step fuel xpos xend ypos items s d s' :
  xpos < xend →
  draw_x target heap SDL_MapRGB READ_32_UNALIGNED fontdata
      xpos ypos items s = Done (d, s') →
  repaint_row target heap SDL_MapRGB READ_32_UNALIGNED fontdata
      (S fuel) xpos xend ypos items s
  = repaint_row target heap SDL_MapRGB READ_32_UNALIGNED fontdata
      fuel (xpos + d) xend ypos items s'.
Proof.
  intros Hlt Hd. cbn [repaint_row].
  destruct (Z.ltb_spec xpos xend); [| lia]. by rewrite Hd.
Qed.

Lemma repaint_row_end fuel xpos xend ypos items s :
  xend ≤ xpos →
  repaint_row target heap SDL_MapRGB READ_32_UNALIGNED fontdata
      fuel xpos xend ypos items s = Done s.
Proof.
  intros Hge. destruct fuel; cbn [repaint_row];
    by destruct (Z.ltb_spec xpos xend); [lia |].
Qed.

(** A pixel that no item covers: one column is skipped, nothing is
    written. *)
Lemma draw_x_from_uncovered rest i below xpos ypos items s :
  Forall (λ it, outside xpos ypos it = true) rest →
  draw_x_from target heap SDL_MapRGB READ_32_UNALIGNED fontdata
      rest i below xpos ypos items s
  = Done (1, s).
Proof.
  intros Hout. revert i.
  induction Hout as [| it rest Hit _ IH]; intros i; [done|].
  cbn [draw_x_from]. by rewrite Hit.
Qed.

Lemma repaint_row_uncovered fuel xpos xend ypos items s :
  (∀ x, xpos ≤ x < xend → Forall (λ it, outside x ypos it = true) items) →
  (Z.to_nat (xend - xpos) ≤ fuel)%nat →
  repaint_row target heap SDL_MapRGB READ_32_UNALIGNED fontdata
      fuel xpos xend ypos items s = Done s.
Proof.
  revert xpos. induction fuel as [| fuel IH]; intros xpos Hout Hfuel.
  - apply repaint_row_end. lia.
  - destruct (Z.lt_ge_cases xpos xend) as [Hlt | Hge];
      [| by apply repaint_row_end].
    erewrite repaint_row_step;
      [| done | apply draw_x_from_uncovered, Hout; lia].
    apply IH; [| lia]. intros x Hx. apply Hout. lia.
Qed.

Lemma repaint_rows_uncovered fuel rows ypos damaged items s :
  (∀ x y, ypos ≤ y → Forall (λ it, outside x y it = true) items) →
  (Z.to_nat (rect_width damaged) ≤ fuel)%nat →
  repaint_rows target heap SDL_MapRGB READ_32_UNALIGNED fontdata
      fuel rows ypos damaged items s
  = Done s.
Proof.
  revert ypos. induction rows as [| rows IH]; intros ypos Hout Hfuel; [done|].
  cbn [repaint_rows].
  rewrite repaint_row_uncovered; [| intros x _; by apply Hout | lia].
  cbn [rbind]. apply IH; [| done]. intros x y Hy. apply Hout. lia.
Qed.

(** Row 0 of the scene of C1, repainted from column 0 to [xend]. *)
Lemma repaint_row_falls_through fuel xend old1 old2 pix cells s :
  0 ≤ pix < ptr_limit target →
  heap !! pix = Some cells →
  length cells = 4%nat →
  Forall (λ p, Z.land (p ≫ 24) 255 = 0) cells →
  4 ≤ screen_w s →
  4 ≤ Z.of_nat (length (screen_pixels s)) →
  4 ≤ xend →
  (Z.to_nat xend ≤ fuel)%nat →
  ∃ s', repaint_row target heap SDL_MapRGB READ_32_UNALIGNED fontdata fuel 0 xend 0
          [init_image target old1 0 0 None 4 1 pix; init_rect old2 0 0 4 1 255] s
        = Done s'
        ∧ fall_through_outcome (SDL_MapRGB 0 0 255) s s'.
Proof.
  intros Hpix Hheap Hlen Hcells Hw Hlen4 Hxend Hfuel.
  set (items := [init_image target old1 0 0 None 4 1 pix;
                 init_rect old2 0 0 4 1 255]).
  assert (Hstep : ∀ xpos t,
    0 ≤ xpos < 4 → screen_w t = screen_w s →
    length (screen_pixels t) = length (screen_pixels s) →
    draw_x target heap SDL_MapRGB READ_32_UNALIGNED fontdata xpos 0 items t
    = Done (1, {| screen_w := screen_w t; screen_h := screen_h t;
                  screen_pixels :=
                    <[Z.to_nat xpos := SDL_MapRGB 0 0 255]> (screen_pixels t) |})).
  { intros xpos t Hxpos Hwt Hlt.
    assert (Hload : ∃ p, load heap pix xpos = Done p ∧ Z.land (p ≫ 24) 255 = 0).
    { unfold load. rewrite Hheap.
      destruct (Z.ltb_spec xpos 0); [lia|].
      destruct (lookup_lt_is_Some_2 cells (Z.to_nat xpos)) as [p Hp]; [lia|].
      exists p. rewrite Hp. split; [done|].
      exact (Forall_lookup_1 _ _ _ _ Hcells Hp). }
    destruct Hload as (p & Hload & Ha).
    subst items.
    rewrite (draw_x_falls_through _ _ _ _ _ p); try done.
    - rewrite store_pixel_inside by lia.
      cbn [rbind]. by replace (screen_w t * 0 + xpos) with xpos by lia.
    - apply outside_false. cbn. lia.
    - cbn -[image_data_pix set_image_data].
      rewrite image_data_pix_set by done.
      by replace ((0 - 0) * 4 + (xpos - 0)) with xpos by lia.
    - apply outside_false. cbn. lia.
    - lia. }
  do 4 (destruct fuel as [| fuel]; [lia|]).
  erewrite repaint_row_step; [| lia | by apply Hstep; [lia | |]].
  erewrite repaint_row_step;
    [| lia | by apply Hstep; cbn; rewrite ?length_insert; [lia | |]].
  erewrite repaint_row_step;
    [| lia | by apply Hstep; cbn; rewrite ?length_insert; [lia | |]].
  erewrite repaint_row_step;
    [| lia | by apply Hstep; cbn; rewrite ?length_insert; [lia | |]].
  rewrite repaint_row_uncovered; [| | lia].
  2:{ intros x Hx. subst items. repeat constructor.
      - unfold outside. cbn. destruct (Z.geb_spec x (0 + 4)); [|lia].
        by rewrite orb_true_r.
      - unfold outside. cbn. destruct (Z.geb_spec x (0 + 4)); [|lia].
        by rewrite orb_true_r. }
  eexists. split; [reflexivity|]. unfold fall_through_outcome.
  cbn [screen_pixels screen_w screen_h].
  change (Z.to_nat 0) with 0%nat. change (Z.to_nat 1) with 1%nat.
  change (Z.to_nat 2) with 2%nat. change (Z.to_nat 3) with 3%nat.
  split; [| split; [| split; [| done]]].
  - intros i Hi.
    destruct (decide (i = 3%nat)) as [-> |];
      [apply list_lookup_insert_eq; rewrite !length_insert; lia|].
    rewrite list_lookup_insert_ne by done.
    destruct (decide (i = 2%nat)) as [-> |];
      [apply list_lookup_insert_eq; rewrite !length_insert; lia|].
    rewrite list_lookup_insert_ne by done.
    destruct (decide (i = 1%nat)) as [-> |];
      [apply list_lookup_insert_eq; rewrite !length_insert; lia|].
    rewrite list_lookup_insert_ne by done.
    assert (i = 0%nat) as -> by lia.
    apply list_lookup_insert_eq. lia.
  - intros i Hi. rewrite !list_lookup_insert_ne by lia. done.
  - by rewrite !length_insert.
Qed.

(** C1.  A 4x1 image at the origin whose four pixels all have alpha 0,
    with the no-fill background, lies over a 4x1 rectangle at the origin
    filled with BLUE (0x0000FF).  Repainting the rectangle (0, 0, 4x1)
    ends, and afterwards each of the pixels 0..3 of the frame buffer
    holds the colour that [SDL_MapRGB] gives for (0, 0, 255), the rest of
    the frame buffer being as before.  The first [do_update] with this
    scene, which repaints the whole screen, has the same outcome. *)
Theorem fall_through_to_rect fuel old1 old2 pix cells s :
  0 ≤ pix < ptr_limit target →
  heap !! pix = Some cells →
  length cells = 4%nat →
  Forall (λ p, Z.land (p ≫ 24) 255 = 0) cells →
  4 ≤ screen_w s → 1 ≤ screen_h s →
  Z.of_nat (length (screen_pixels s)) = screen_w s * screen_h s →
  (Z.to_nat (screen_w s) ≤ fuel)%nat →
  let items := [init_image target old1 0 0 None 4 1 pix;
                init_rect old2 0 0 4 1 255] in
  let damaged := {| rect_x := 0; rect_y := 0; rect_width := 4; rect_height := 1;
                    valid := true |} in
  (∃ s', repaint target heap SDL_MapRGB READ_32_UNALIGNED fontdata
      fuel damaged items s = Done s'
         ∧ fall_through_outcome (SDL_MapRGB 0 0 255) s s')
  ∧ (∃ s', do_update target heap SDL_MapRGB READ_32_UNALIGNED fontdata fuel items
             {| prev_items := []; screen := s |}
           = Done {| prev_items := items; screen := s' |}
           ∧ fall_through_outcome (SDL_MapRGB 0 0 255) s s').
Proof.
  intros Hpix Hheap Hlen Hcells Hw Hh Hpx Hfuel items damaged.
  assert (Hlen4 : 4 ≤ Z.of_nat (length (screen_pixels s))) by nia.
  split.
  - destruct (repaint_row_falls_through fuel 4 old1 old2 pix cells s)
      as (s' & Hrow & Hout); try done; [lia|].
    exists s'. split; [| done].
    unfold repaint, damaged. cbn [rect_height rect_y rect_x rect_width].
    change (Z.to_nat 1) with 1%nat.
    cbn [repaint_rows rect_height rect_y rect_x rect_width].
    change (0 + 4) with 4. subst items. by rewrite Hrow.
  - destruct (repaint_row_falls_through fuel (screen_w s) old1 old2 pix cells s)
      as (s' & Hrow & Hout); try done.
    exists s'. split; [| done].
    assert (Hdiff : dumb_diff target heap [] items no_damage
                    = Done {| rect_x := 0; rect_y := 0; rect_width := 4;
                              rect_height := 1; valid := true |}) by reflexivity.
    unfold do_update. cbv zeta. cbn [prev_items screen].
    rewrite Hdiff. cbn [rbind valid clip_rectangle negb].
    unfold repaint. cbn [rect_height rect_y rect_x rect_width].
    destruct (Z.to_nat (screen_h s)) as [| rows] eqn:Hrows; [lia|].
    cbn [repaint_rows rect_height rect_y rect_x rect_width].
    rewrite Z.add_0_l. subst items. rewrite Hrow. cbn [rbind].
    rewrite repaint_rows_uncovered; [done | | cbn [rect_width]; lia].
    intros x y Hy. repeat constructor.
    + unfold outside. cbn. destruct (Z.geb_spec y (0 + 1)); [|lia].
      by rewrite !orb_true_r.
    + unfold outside. cbn. destruct (Z.geb_spec y (0 + 1)); [|lia].
      by rewrite !orb_true_r.
Qed.

End FallThrough.

(** ** Sampling a scaled cropped image *)

Lemma store_pixel_no_bad_load i v s p k : store_pixel i v s ≠ Crash (BadLoad p k).
Proof. unfold store_pixel. by destruct (_ && _). Qed.

(** The loop of [draw_scaled_cropped_img_x] reads [src] first and then,
    at the start of each further iteration, the offset computed from the
    previous value of [j].  When all of these lie inside the buffer, no
    read fails. *)
Lemma scaled_run_loads_inside heap SDL_MapRGB READ_32_UNALIGNED
    n j pix cells src row_off sx xs
    base vb bg drawn s p k :
  heap !! pix = Some cells →
  ((0 < n)%nat → 0 ≤ src < Z.of_nat (length cells)) →
  (∀ j', j ≤ j' < j + Z.of_nat n - 1 →
         0 ≤ row_off + sx + Z.quot j' xs < Z.of_nat (length cells)) →
  scaled_run heap SDL_MapRGB READ_32_UNALIGNED
      n j pix src row_off sx xs base vb bg drawn s
  ≠ Crash (BadLoad p k).
Proof.
  intros Hcells. revert j src drawn s.
  induction n as [| n IH]; intros j src drawn s Hsrc Hnext; [done|].
  cbn [scaled_run].
  assert (Hload : ∃ q, load heap pix src = Done q).
  { unfold load. rewrite Hcells. destruct (Z.ltb_spec src 0); [lia|].
    destruct (lookup_lt_is_Some_2 cells (Z.to_nat src)) as [q Hq]; [lia|].
    exists q. by rewrite Hq. }
  destruct Hload as [q ->]. cbn [rbind].
  assert (Hrec : ∀ v,
    (do t <- store_pixel (base + drawn) v s;
     scaled_run heap SDL_MapRGB READ_32_UNALIGNED
         n (j + 1) pix (row_off + sx + Z.quot j xs)
                row_off sx xs base vb bg (drawn + 1) t)
    ≠ Crash (BadLoad p k)).
  { intros v. destruct (store_pixel (base + drawn) v s) as [t | f |] eqn:Est;
      cbn [rbind];
      [| intros Heq; injection Heq as ->; by apply store_pixel_no_bad_load in Est
       | done].
    apply IH.
    - intros Hn. apply Hnext. lia.
    - intros j' Hj'. apply Hnext. lia. }
  destruct (negb (Z.land (q ≫ 24) 255 =? 0)); [apply Hrec|].
  destruct vb; [apply Hrec | done].
Qed.

(** The example of the specification is clipped to 4 pixels, and no run
    on it, from any column of its box and with any span, reads outside the
    one row of the backing image. *)
Lemma narrow_crop_loads_inside target SDL_MapRGB READ_32_UNALIGNED
    xpos max_line_len s p k :
  0 ≤ xpos < 10 →
  draw_scaled_cropped_img_x target demo_heap SDL_MapRGB READ_32_UNALIGNED
      xpos 0 max_line_len
    (narrow_crop target) s
  ≠ Crash (BadLoad p k).
Proof.
  intros Hx.
  assert (Hpix : image_data_with_size_pix target (data (narrow_crop target)) = 8192)
    by by destruct target.
  assert (Hwidth : image_data_with_size_width (data (narrow_crop target)) = 10)
    by by destruct target.
  unfold draw_scaled_cropped_img_x. cbv zeta. rewrite Hpix, Hwidth.
  cbn [narrow_crop init_scaled_cropped_image y_scale x_scale source_x source_y
       item_x item_y item_width brcolor].
  change ((1 =? 0) || (2 =? 0)) with false. cbv iota.
  change (8 + Z.quot 10 2 >? 10) with true. cbv iota.
  change ((10 - 8) * 2) with 4. change (Z.quot (0 - 0) 1) with 0.
  apply (scaled_run_loads_inside _ _ _ _ _ _
           [4278190081; 4278190082; 4278190083; 4278190084; 4278190085;
            4278190086; 4278190087; 4278190088; 4278190089; 4278190090]);
    [reflexivity | |].
  - intros Hn. cbn [length].
    destruct (Z.gtb_spec 4 (xpos - 0 + max_line_len));
      pose proof (Z.quot_rem' (xpos - 0) 2);
      pose proof (Z.rem_bound_pos (xpos - 0) 2); lia.
  - intros j' Hj'. cbn [length].
    destruct (Z.gtb_spec 4 (xpos - 0 + max_line_len));
      pose proof (Z.quot_rem' j' 2);
      pose proof (Z.rem_bound_pos j' 2); lia.
Qed.

(** C5.  The clipping of [draw_scaled_cropped_img_x] does not keep every
    sample inside the backing row.  For the 11 pixel wide, twice magnified
    view from source column 5 of a 10x1 image, [5 + 11 / 2 = 10] is not
    greater than the backing width 10, so the width is not clipped; the
    run that starts at the last column of the box, 10, samples source
    column [5 + 10 / 2 = 10], one past the last column 9 and, the image
    having one row, outside the buffer.  The compositor starts such a run
    when a rectangle covers the columns 0..9 of the view: the first update
    with that scene stops on the read. *)
Theorem draw_scaled_cropped_img_x_reads_past_row (target : abi)
    (SDL_MapRGB : Z → Z → Z → Z) (READ_32_UNALIGNED : Z → Z)
    (fontdata : list Z) (s : Screen) :
  outside 10 0 (wide_crop target) = false
  ∧ 0 < x_scale (wide_crop target) ∧ 0 < y_scale (wide_crop target)
  ∧ image_data_with_size_width (data (wide_crop target)) = 10
  ∧ draw_scaled_cropped_img_x target demo_heap SDL_MapRGB READ_32_UNALIGNED
      10 0 1 (wide_crop target) s
    = Crash (BadLoad 8192 10)
  ∧ do_update target demo_heap SDL_MapRGB READ_32_UNALIGNED fontdata 16
      [init_rect stale_slot 0 0 10 1 255; wide_crop target]
      {| prev_items := []; screen := wide_screen |}
    = Crash (BadLoad 8192 10).
Proof. by destruct target. Qed.

(** ** A list diffed against itself *)

Lemma strcmp_cells_same pa pb i (cells : list Z) :
  0 ∈ cells → strcmp_cells pa pb i cells cells = Done 0.
Proof.
  revert i. induction cells as [| c cells IH]; intros i Hin.
  - by apply elem_of_nil in Hin.
  - cbn [strcmp_cells]. rewrite Z.eqb_refl. cbn [andb].
    destruct (Z.eqb_spec c 0) as [-> | Hc]; cbn [negb]; [done|].
    apply IH. apply elem_of_cons in Hin as [? | ?]; [congruence | done].
Qed.

Lemma cmp_display_item_same target heap it :
  text_ok target heap it → cmp_display_item target heap it it = Done true.
Proof.
  intros Hok. unfold cmp_display_item.
  assert (primitive_eqb (item_primitive it) (item_primitive it) = true) as ->
    by by destruct (item_primitive it).
  rewrite !Z.eqb_refl. cbn [negb orb andb].
  destruct (item_primitive it) eqn:Hp; try done.
  destruct (Hok Hp) as (cells & Hcells & Hnul).
  unfold strcmp. rewrite Hcells. by rewrite strcmp_cells_same.
Qed.

(** Diffing a list of well-formed items against itself. *)
Lemma dumb_diff_same_list target heap (items : list BaseDisplayItem) damaged :
  Forall (text_ok target heap) items →
  dumb_diff target heap items items damaged = Done damaged.
Proof.
  intros Hok. apply diff_equivalent. induction Hok as [| it items Hit _ IH].
  - constructor.
  - constructor; [by apply cmp_display_item_same | done].
Qed.

(** ** The theorems at concrete scenes *)

(** The transparent image at 4096 over a blue rectangle, on the 8x2
    screen. *)
Lemma fall_through_to_rect_witness :
  (Z.to_nat (screen_w demo_screen) ≤ 8)%nat
  ∧ (∃ s',
       repaint LP64 demo_heap rgb888 read_32_be [] 8
         {| rect_x := 0; rect_y := 0; rect_width := 4; rect_height := 1;
            valid := true |}
         [init_image LP64 stale_slot 0 0 None 4 1 4096;
          init_rect stale_slot 0 0 4 1 255] demo_screen = Done s'
       ∧ fall_through_outcome (rgb888 0 0 255) demo_screen s')
  ∧ (∃ s',
       do_update LP64 demo_heap rgb888 read_32_be [] 8
         [init_image LP64 stale_slot 0 0 None 4 1 4096;
          init_rect stale_slot 0 0 4 1 255]
         {| prev_items := []; screen := demo_screen |}
       = Done {| prev_items := [init_image LP64 stale_slot 0 0 None 4 1 4096;
                                init_rect stale_slot 0 0 4 1 255];
                 screen := s' |}
       ∧ fall_through_outcome (rgb888 0 0 255) demo_screen s').
Proof.
  split; [cbn; lia|].
  apply (fall_through_to_rect LP64 demo_heap rgb888 read_32_be [] 8 stale_slot stale_slot
           4096 [0; 0; 0; 0] demo_screen).
  - unfold ptr_limit, two32. lia.
  - reflexivity.
  - reflexivity.
  - repeat constructor.
  - cbn. lia.
  - cbn. lia.
  - reflexivity.
  - cbn. lia.
Defined.

(** A rectangle and the text "Hi", decoded twice: the second text item
    owns another copy of the string. *)
Lemma dumb_diff_equivalent_lists_witness :
  Forall2 (λ n o, cmp_display_item LP64 demo_heap n o = Done true)
    [rect_a; demo_text LP64 16384] [rect_a; demo_text LP64 12288]
  ∧ dumb_diff LP64 demo_heap [rect_a; demo_text LP64 12288]
      [rect_a; demo_text LP64 16384] no_damage = Done no_damage.
Proof.
  assert (H : Forall2 (λ n o, cmp_display_item LP64 demo_heap n o = Done true)
                [rect_a; demo_text LP64 16384] [rect_a; demo_text LP64 12288]).
  { repeat constructor. }
  split; [exact H|].
  exact (proj1 (dumb_diff_equivalent_lists LP64 demo_heap
                  [rect_a; demo_text LP64 12288] [rect_a; demo_text LP64 16384]
                  no_damage H)).
Defined.

(** The sprite at 20480: the first pixel is opaque, the second is
    transparent, so one pixel is drawn.  The word 0xFF332211 is read as
    0x112233FF, which the mapping turns into 0x112233. *)
Lemma draw_image_x_counts_written_witness :
  draw_image_x LP64 demo_heap rgb888 read_32_be 0 0 4 (demo_sprite LP64) demo_screen
  = Done (1, {| screen_w := 8; screen_h := 2;
                screen_pixels := <[0%nat := 1122867]> (screen_pixels demo_screen) |})
  ∧ 0 ≤ 1 ≤ 4
  ∧ ∃ p0, load demo_heap 20480 0 = Done p0
          ∧ (1 = 0 ↔ Z.land (p0 ≫ 24) 255 = 0 ∧ brcolor (demo_sprite LP64) = 0).
Proof.
  assert (H : draw_image_x LP64 demo_heap rgb888 read_32_be
      0 0 4 (demo_sprite LP64) demo_screen
              = Done (1, {| screen_w := 8; screen_h := 2;
                            screen_pixels :=
                              <[0%nat := 1122867]> (screen_pixels demo_screen) |}))
    by reflexivity.
  split; [exact H|].
  pose proof (draw_image_x_counts_written LP64 demo_heap rgb888 read_32_be 0 0 4
                (demo_sprite LP64) demo_screen
                ltac:(cbn; lia) ltac:(cbn; lia) ltac:(lia)) as Hspec.
  cbv zeta in Hspec. destruct Hspec as [_ Hspec].
  destruct (Hspec _ _ H) as (Hn & Hfirst & _).
  split; [exact Hn | exact Hfirst].
Defined.

(** The same two rectangles in two consecutive frames. *)
Lemma do_update_skips_repaint_witness :
  dumb_diff LP64 demo_heap [rect_a; rect_b] [rect_a; rect_b] no_damage
  = Done no_damage
  ∧ valid no_damage = false
  ∧ do_update LP64 demo_heap rgb888 read_32_be [] 8 [rect_a; rect_b]
      {| prev_items := [rect_a; rect_b]; screen := demo_screen |}
    = Done {| prev_items := [rect_a; rect_b]; screen := demo_screen |}.
Proof.
  split; [reflexivity|]. split; [reflexivity|].
  exact (do_update_skips_repaint LP64 demo_heap rgb888 read_32_be [] 8 [rect_a; rect_b]
           {| prev_items := [rect_a; rect_b]; screen := demo_screen |} no_damage
           eq_refl eq_refl).
Defined.


(** * Further properties *)

(** ** Rectangles *)

Lemma update_damaged_area_union area damage :
  valid area = true →
  let r := update_damaged_area area damage in
  valid r = true
  ∧ covers r damage
  ∧ (rect_x area ≤ rect_x damage → rect_y area ≤ rect_y damage →
     covers r area
     ∧ rect_x r = rect_x area ∧ rect_y r = rect_y area
     ∧ rect_x r + rect_width r
       = Z.max (rect_x area + rect_width area) (rect_x damage + rect_width damage)
     ∧ rect_y r + rect_height r
       = Z.max (rect_y area + rect_height area)
               (rect_y damage + rect_height damage)).
Proof.
  intros Hv. unfold update_damaged_area, covers. rewrite Hv. cbn.
  rewrite !int_min_spec, !int_max_spec. repeat split; lia.
Qed.

(** The union covers the rectangle that is added; it covers the
    accumulator as well, and is the least such rectangle, when the added
    rectangle starts neither left of nor above the accumulator. *)
Theorem update_damaged_area_covers area damage :
  valid area = true →
  let r := update_damaged_area area damage in
  valid r = true
  ∧ covers r damage
  ∧ (rect_x area ≤ rect_x damage → rect_y area ≤ rect_y damage →
     covers r area
     ∧ rect_x r = rect_x area ∧ rect_y r = rect_y area
     ∧ rect_x r + rect_width r
       = Z.max (rect_x area + rect_width area) (rect_x damage + rect_width damage)
     ∧ rect_y r + rect_height r
       = Z.max (rect_y area + rect_height area)
               (rect_y damage + rect_height damage)).
Proof. exact (update_damaged_area_union area damage). Qed.

(** [clip_rectangle] keeps the valid flag.  Its result begins neither
    left of nor above the clip region and ends neither right of nor below
    it.  For a rectangle of non-negative size that begins no further than
    the right and bottom edges of a region of non-negative size, the
    result has a non-negative size and the region covers it.  A rectangle
    that begins beyond the right edge of the region is given a negative
    width, and the left edge of the result is then outside the region.  A
    rectangle that begins inside the region is cut to the intersection of
    the two, and one that the region covers is returned as it is. *)
Theorem clip_rectangle_bounds rectangle clip_region :
  let r := clip_rectangle rectangle clip_region in
  valid r = valid rectangle
  ∧ rect_x clip_region ≤ rect_x r ∧ rect_y clip_region ≤ rect_y r
  ∧ rect_x r + rect_width r ≤ rect_x clip_region + rect_width clip_region
  ∧ rect_y r + rect_height r ≤ rect_y clip_region + rect_height clip_region
  ∧ (0 ≤ rect_width rectangle → 0 ≤ rect_height rectangle →
     0 ≤ rect_width clip_region → 0 ≤ rect_height clip_region →
     rect_x rectangle ≤ rect_x clip_region + rect_width clip_region →
     rect_y rectangle ≤ rect_y clip_region + rect_height clip_region →
     0 ≤ rect_width r ∧ 0 ≤ rect_height r ∧ covers clip_region r)
  ∧ (rect_x clip_region + rect_width clip_region < rect_x rectangle →
     rect_x clip_region + rect_width clip_region < rect_x r
     ∧ rect_width r < 0)
  ∧ (rect_x clip_region ≤ rect_x rectangle →
     rect_y clip_region ≤ rect_y rectangle →
     rect_x r = rect_x rectangle ∧ rect_y r = rect_y rectangle
     ∧ rect_x r + rect_width r
       = Z.min (rect_x rectangle + rect_width rectangle)
               (rect_x clip_region + rect_width clip_region)
     ∧ rect_y r + rect_height r
       = Z.min (rect_y rectangle + rect_height rectangle)
               (rect_y clip_region + rect_height clip_region))
  ∧ (covers clip_region rectangle → r = rectangle).
Proof.
  unfold clip_rectangle, covers. cbn.
  rewrite !int_min_spec, !int_max_spec.
  split; [done|]. split; [lia|]. split; [lia|]. split; [lia|]. split; [lia|].
  split; [lia|]. split; [lia|]. split; [lia|].
  intros (Hx & Hy & Hw & Hh). destruct rectangle as [x y w h v]. cbn in *.
  f_equal; lia.
Qed.

(** ** The differ on added and removed items *)

Lemma covers_trans r q p : covers r q → covers q p → covers r p.
Proof. unfold covers. lia. Qed.

Lemma fold_damage_covers (rest : list BaseDisplayItem) acc :
  valid acc = true →
  Forall (λ it, rect_x acc ≤ item_x it ∧ rect_y acc ≤ item_y it) rest →
  let d := fold_left (λ d it, update_damaged_area d (item_rect it)) rest acc in
  valid d = true ∧ rect_x d = rect_x acc ∧ rect_y d = rect_y acc
  ∧ covers d acc ∧ Forall (λ it, covers d (item_rect it)) rest.
Proof.
  intros Hv Hall. revert acc Hv Hall.
  induction rest as [| it rest IH]; intros acc Hv Hall.
  - cbn. split; [done|]. split; [done|]. split; [done|].
    split; [unfold covers; lia | constructor].
  - apply Forall_cons in Hall as [[Hx Hy] Hall]. cbn [fold_left].
    destruct (update_damaged_area_union acc (item_rect it) Hv)
      as (Hv1 & Hc1 & Hacc).
    destruct (Hacc Hx Hy) as (Hc2 & Hx1 & Hy1 & _).
    destruct (IH (update_damaged_area acc (item_rect it))) as
      (Hvd & Hxd & Hyd & Hcd & Hrest); [done | |].
    { rewrite Hx1, Hy1. done. }
    cbv zeta. split; [done|]. split; [congruence|]. split; [congruence|]. split.
    + by apply (covers_trans _ _ _ Hcd).
    + constructor; [by apply (covers_trans _ _ _ Hcd) | done].
Qed.

(** The first frame, or any frame after an empty scene: when no item
    starts left of or above the first item of the new list, the damage is
    valid and covers the bounding box of every new item. *)
Theorem dumb_diff_first_frame_covers target heap first rest :
  Forall (λ it, item_x first ≤ item_x it ∧ item_y first ≤ item_y it) rest →
  ∃ d, dumb_diff target heap [] (first :: rest) no_damage = Done d
       ∧ valid d = true
       ∧ Forall (λ it, covers d (item_rect it)) (first :: rest).
Proof.
  intros Hall. unfold dumb_diff. cbn [length Z.of_nat Z.eqb fold_left].
  change (update_damaged_area no_damage (item_rect first)) with (item_rect first).
  destruct (fold_damage_covers rest (item_rect first) eq_refl Hall)
    as (Hv & _ & _ & Hc & Hrest).
  eexists. split; [reflexivity|]. split; [done|]. by constructor.
Qed.

Lemma scan_orig_none target heap orig it n k :
  (∀ i, k ≤ i < k + Z.of_nat n →
        ∃ o, item_at orig i = Done o ∧ cmp_display_item target heap it o = Done false) →
  scan_orig target heap orig n k it = Done None.
Proof.
  revert k. induction n as [| n IH]; intros k Hall; [done|].
  cbn [scan_orig]. destruct (Hall k) as (o & Ho & Hcmp); [lia|].
  rewrite Ho. cbn [rbind]. rewrite Hcmp. cbn [rbind].
  apply IH. intros i Hi. apply Hall. lia.
Qed.

Lemma item_at_inside (arr : list BaseDisplayItem) i :
  0 ≤ i < Z.of_nat (length arr) →
  ∃ o, item_at arr i = Done o ∧ o ∈ arr.
Proof.
  intros Hi. unfold item_at. destruct (Z.ltb_spec i 0); [lia|].
  destruct (lookup_lt_is_Some_2 arr (Z.to_nat i)) as [o Ho]; [lia|].
  exists o. rewrite Ho. split; [done|]. by apply list_elem_of_lookup_2 in Ho.
Qed.

Lemma diff_loop_all_new target heap orig new damaged :
  orig ≠ [] →
  Forall (λ n, Forall (λ o, cmp_display_item target heap n o = Done false) orig)
         new →
  diff_loop target heap orig new 0 damaged
  = Done (fold_left (λ d it, update_damaged_area d (item_rect it)) new damaged).
Proof.
  intros Horig Hall. revert damaged.
  induction Hall as [| n new Hn _ IH]; intros damaged; [done|].
  cbn [diff_loop fold_left].
  rewrite Forall_forall in Hn.
  destruct (item_at_inside orig 0) as (o0 & Ho0 & Hin0).
  { destruct orig; [done | cbn; lia]. }
  rewrite Ho0. cbn [rbind]. rewrite (Hn _ Hin0). cbn [rbind].
  rewrite scan_orig_none; [cbn [rbind]; apply IH|].
  intros i Hi. destruct (item_at_inside orig i) as (o & Ho & Hin); [lia|].
  exists o. split; [done | by apply Hn].
Qed.

(** A scene in which no item is equivalent to any item of the previous
    scene is treated like a first frame: every new box is added to the
    damage, in list order, and no previous box is. *)
Theorem dumb_diff_all_new target heap orig new damaged :
  Forall (λ n, Forall (λ o, cmp_display_item target heap n o = Done false) orig)
         new →
  dumb_diff target heap orig new damaged
  = Done (fold_left (λ d it, update_damaged_area d (item_rect it)) new damaged).
Proof.
  intros Hall. unfold dumb_diff. destruct orig as [| o orig]; [done|].
  change (Z.of_nat (length (o :: orig)) =? 0) with false. cbv iota.
  by apply diff_loop_all_new.
Qed.

Lemma diff_loop_prefix target heap (pre kept removed new : list BaseDisplayItem)
    damaged :
  Forall2 (λ n o, cmp_display_item target heap n o = Done true) new kept →
  diff_loop target heap (pre ++ kept ++ removed) new (Z.of_nat (length pre)) damaged
  = Done damaged.
Proof.
  intros Hall. revert pre.
  induction Hall as [| n o new' kept' Hcmp _ IH]; intros pre; [done|].
  cbn [diff_loop app].
  rewrite (item_at_lookup _ _ o) by (by apply list_lookup_middle).
  cbn [rbind]. rewrite Hcmp. cbn [rbind].
  specialize (IH (pre ++ [o])).
  rewrite <- app_assoc, length_app in IH. cbn in IH.
  replace (Z.of_nat (length pre) + 1) with (Z.of_nat (length pre + 1)) by lia.
  exact IH.
Qed.

(** Items removed from the end of the scene are not noticed: when the
    new list is equivalent, item by item, to the beginning of the
    previous list, the diff reports no damage and [do_update] leaves the
    screen as it is, whatever the removed items were. *)
Theorem dumb_diff_ignores_removed_tail target heap SDL_MapRGB READ_32_UNALIGNED fontdata
    fuel
    kept removed new damaged s :
  Forall2 (λ n o, cmp_display_item target heap n o = Done true) new kept →
  dumb_diff target heap (kept ++ removed) new damaged = Done damaged
  ∧ do_update target heap SDL_MapRGB READ_32_UNALIGNED fontdata fuel new
      {| prev_items := kept ++ removed; screen := s |}
    = Done {| prev_items := new; screen := s |}.
Proof.
  intros Hall.
  assert (Hd : ∀ d, dumb_diff target heap (kept ++ removed) new d = Done d).
  { intros d. unfold dumb_diff.
    destruct (Z.eqb_spec (Z.of_nat (length (kept ++ removed))) 0) as [Hz | Hnz].
    - destruct kept; [| cbn in Hz; lia]. by inversion Hall.
    - exact (diff_loop_prefix target heap [] kept removed new d Hall). }
  split; [apply Hd|]. unfold do_update. cbv zeta. cbn [prev_items screen].
  by rewrite Hd.
Qed.

(** ** Text items are compared by content *)

Lemma c_string_cons c rest :
  c_string (c :: rest) = if c =? 0 then [] else c :: c_string rest.
Proof. reflexivity. Qed.

Lemma strcmp_cells_content pa pb i (sa sb : list Z) :
  0 ∈ sa → 0 ∈ sb →
  ∃ r, strcmp_cells pa pb i sa sb = Done r
       ∧ (r = 0 ↔ c_string sa = c_string sb).
Proof.
  revert sb i. induction sa as [| ca sa IH]; intros sb i Ha Hb.
  - by apply elem_of_nil in Ha.
  - destruct sb as [| cb sb]; [by apply elem_of_nil in Hb|].
    cbn [strcmp_cells]. rewrite !c_string_cons.
    destruct (Z.eqb_spec ca cb) as [<- | Hne]; cbn [andb].
    + destruct (Z.eqb_spec ca 0) as [-> | Hnz]; cbn [negb].
      * exists 0. by split.
      * apply elem_of_cons in Ha as [? | Ha]; [congruence|].
        apply elem_of_cons in Hb as [? | Hb]; [congruence|].
        destruct (IH sb (i + 1) Ha Hb) as (r & Hr & Hiff).
        exists r. split; [done|]. rewrite Hiff. split; [congruence|].
        by intros [= ->].
    + exists (ca - cb). split; [done|]. split; [lia|].
      destruct (Z.eqb_spec ca 0), (Z.eqb_spec cb 0); try done; try lia.
      by intros [= ? _].
Qed.

(** Two text items with the same box and the same colours are equivalent
    exactly when their strings have the same content, wherever the
    strings are stored. *)
Theorem cmp_display_item_text_by_content target heap a b sa sb :
  item_primitive a = Text → item_primitive b = Text →
  item_x a = item_x b → item_y a = item_y b →
  item_width a = item_width b → item_height a = item_height b →
  brcolor a = brcolor b →
  text_data_fgcolor (data a) = text_data_fgcolor (data b) →
  heap !! text_data_text target (data a) = Some sa → 0 ∈ sa →
  heap !! text_data_text target (data b) = Some sb → 0 ∈ sb →
  ∃ r, cmp_display_item target heap a b = Done r
       ∧ (r = true ↔ c_string sa = c_string sb).
Proof.
  intros Ha Hb Hx Hy Hw Hh Hbr Hfg Hsa Hza Hsb Hzb.
  unfold cmp_display_item. rewrite Ha, Hb, Hx, Hy, Hw, Hh, Hbr, Hfg.
  rewrite !Z.eqb_refl. cbn [primitive_eqb negb orb].
  unfold strcmp. rewrite Hsa, Hsb.
  destruct (strcmp_cells_content (text_data_text target (data a))
              (text_data_text target (data b)) 0 sa sb Hza Hzb) as (r & -> & Hiff).
  cbn [rbind]. exists (r =? 0). split; [done|].
  rewrite <- Hiff. apply Z.eqb_eq.
Qed.

(** ** The diff only ever adds damage *)

Lemma damage_skipped_valid orig n l damaged d :
  damage_skipped orig n l damaged = Done d →
  (valid damaged = true → valid d = true)
  ∧ (valid d = false → d = damaged).
Proof.
  revert l damaged. induction n as [| n IH]; intros l damaged H.
  - cbn in H. injection H as <-. done.
  - cbn [damage_skipped] in H.
    destruct (item_at orig l) as [ol | |]; cbn [rbind] in H; try done.
    apply IH in H as [Hv Hinv]. split.
    + intros _. apply Hv. unfold update_damaged_area. by destruct (valid damaged).
    + intros Hd. specialize (Hinv Hd). subst d.
      unfold update_damaged_area in Hd. by destruct (valid damaged).
Qed.

Lemma diff_loop_valid target heap orig new j damaged d :
  diff_loop target heap orig new j damaged = Done d →
  (valid damaged = true → valid d = true)
  ∧ (valid d = false → d = damaged).
Proof.
  revert j damaged. induction new as [| n new IH]; intros j damaged H.
  - cbn in H. injection H as <-. done.
  - cbn [diff_loop] in H.
    destruct (item_at orig j) as [oj | |]; cbn [rbind] in H; try done.
    destruct (cmp_display_item target heap n oj) as [[|] | |];
      cbn [rbind] in H; try done.
    + by apply IH in H.
    + destruct (scan_orig target heap orig _ (j + 1) n) as [[k|] | |];
        cbn [rbind] in H; try done.
      * destruct (damage_skipped orig _ (k - j) damaged) as [d' | |] eqn:Ed;
          cbn [rbind] in H; try done.
        apply damage_skipped_valid in Ed as [Hv1 Hi1].
        apply IH in H as [Hv2 Hi2]. split; [tauto|].
        intros Hd. specialize (Hi2 Hd). subst d'. by apply Hi1.
      * apply IH in H as [Hv Hinv]. split.
        -- intros _. apply Hv. unfold update_damaged_area.
           by destruct (valid damaged).
        -- intros Hd. specialize (Hinv Hd). subst d.
           unfold update_damaged_area in Hd. by destruct (valid damaged).
Qed.

Lemma fold_damage_valid (new : list BaseDisplayItem) damaged :
  let d := fold_left (λ d it, update_damaged_area d (item_rect it)) new damaged in
  (valid damaged = true → valid d = true)
  ∧ (valid d = false → d = damaged).
Proof.
  revert damaged. induction new as [| n new IH]; intros damaged; [done|].
  cbn [fold_left]. cbv zeta. destruct (IH (update_damaged_area damaged (item_rect n)))
    as [Hv Hinv]. split.
  - intros _. apply Hv. unfold update_damaged_area. by destruct (valid damaged).
  - intros Hd. specialize (Hinv Hd). rewrite Hinv in Hd.
    unfold update_damaged_area in Hd. by destruct (valid damaged).
Qed.

(** A diff never withdraws damage: a rectangle that is valid before the
    diff is valid after it, and a rectangle that is invalid after the diff
    is the very rectangle the diff was given. *)
Theorem dumb_diff_only_adds_damage target heap orig new damaged d :
  dumb_diff target heap orig new damaged = Done d →
  (valid damaged = true → valid d = true)
  ∧ (valid d = false → d = damaged).
Proof.
  unfold dumb_diff. destruct (Z.of_nat (length orig) =? 0).
  - intros [= <-]. apply fold_damage_valid.
  - apply diff_loop_valid.
Qed.

(** ** The four renderer loops as one loop *)

Section Runs.

Variable target : abi.
Variable heap : gmap Z (list Z).
Variable SDL_MapRGB : Z → Z → Z → Z.
Variable READ_32_UNALIGNED : Z → Z.
Variable fontdata : list Z.

Lemma image_run_pixel_run n pix src0 base vb bg drawn s :
  image_run heap SDL_MapRGB READ_32_UNALIGNED n pix (src0 + drawn) base vb bg drawn s
  = pixel_run n (image_sample heap SDL_MapRGB READ_32_UNALIGNED
      pix src0 vb bg) base drawn s.
Proof.
  revert drawn s. induction n as [| n IH]; intros drawn s; [done|].
  cbn [image_run pixel_run]. unfold image_sample at 1.
  destruct (load heap pix (src0 + drawn)) as [p | |]; cbn [rbind]; try done.
  unfold pixel_choice.
  destruct (negb (Z.land (p ≫ 24) 255 =? 0)).
  - destruct (store_pixel _ _ s) as [t | |]; cbn [rbind]; try done.
    rewrite <- IH. by replace (src0 + (drawn + 1)) with (src0 + drawn + 1) by lia.
  - destruct vb; [| done].
    destruct (store_pixel _ _ s) as [t | |]; cbn [rbind]; try done.
    rewrite <- IH. by replace (src0 + (drawn + 1)) with (src0 + drawn + 1) by lia.
Qed.

Lemma scaled_run_pixel_run n j0 pix src0 row_off sx xs base vb bg drawn s :
  0 ≤ drawn →
  scaled_run heap SDL_MapRGB READ_32_UNALIGNED n (j0 + drawn) pix
    (if drawn =? 0 then src0 else row_off + sx + Z.quot (j0 + drawn - 1) xs)
    row_off sx xs base vb bg drawn s
  = pixel_run n (scaled_sample heap SDL_MapRGB READ_32_UNALIGNED
      pix src0 row_off sx xs j0 vb bg)
      base drawn s.
Proof.
  revert drawn s. induction n as [| n IH]; intros drawn s Hd; [done|].
  cbn [scaled_run pixel_run]. unfold scaled_sample at 1.
  destruct (load heap pix _) as [p | |]; cbn [rbind]; try done.
  unfold pixel_choice.
  assert (Hnext : ∀ t,
    scaled_run heap SDL_MapRGB READ_32_UNALIGNED n (j0 + drawn + 1) pix
      (row_off + sx + Z.quot (j0 + drawn) xs) row_off sx xs base vb bg
      (drawn + 1) t
    = pixel_run n (scaled_sample heap SDL_MapRGB READ_32_UNALIGNED
        pix src0 row_off sx xs j0 vb bg)
        base (drawn + 1) t).
  { intros t. rewrite <- IH by lia.
    destruct (Z.eqb_spec (drawn + 1) 0); [lia|].
    by replace (j0 + (drawn + 1)) with (j0 + drawn + 1) by lia;
       replace (j0 + drawn + 1 - 1) with (j0 + drawn) by lia. }
  destruct (negb (Z.land (p ≫ 24) 255 =? 0)).
  - destruct (store_pixel _ _ s) as [t | |]; cbn [rbind]; try done.
  - destruct vb; [| done].
    destruct (store_pixel _ _ s) as [t | |]; cbn [rbind]; try done.
Qed.

Lemma rect_run_pixel_run n base color drawn s :
  rect_run n base color drawn s
  = pixel_run n (λ _, Done (Some color)) base drawn s.
Proof.
  revert drawn s. induction n as [| n IH]; intros drawn s; [done|].
  cbn [rect_run pixel_run rbind].
  destruct (store_pixel _ _ s) as [t | |]; cbn [rbind]; try done.
Qed.

Lemma text_run_pixel_run n j0 text dy base fg vb bg drawn s :
  text_run heap fontdata n (j0 + drawn) text dy base fg vb bg drawn s
  = pixel_run n (text_sample heap fontdata text dy fg vb bg j0) base drawn s.
Proof.
  revert drawn s. induction n as [| n IH]; intros drawn s; [done|].
  cbn [text_run pixel_run]. cbv zeta. unfold text_sample at 1.
  destruct (load heap text _) as [c | |]; cbn [rbind]; try done.
  destruct (glyph_byte fontdata _) as [row | |]; cbn [rbind]; try done.
  unfold pixel_choice.
  destruct (negb (Z.land row _ =? 0)).
  - destruct (store_pixel _ _ s) as [t | |]; cbn [rbind]; try done.
    rewrite <- IH. by replace (j0 + (drawn + 1)) with (j0 + drawn + 1) by lia.
  - destruct vb; [| done].
    destruct (store_pixel _ _ s) as [t | |]; cbn [rbind]; try done.
    rewrite <- IH. by replace (j0 + (drawn + 1)) with (j0 + drawn + 1) by lia.
Qed.

(** What a returning run has done. *)
Lemma pixel_run_outcome n sample base drawn s r s' :
  pixel_run n sample base drawn s = Done (r, s') →
  drawn ≤ r ≤ drawn + Z.of_nat n
  ∧ screen_w s' = screen_w s ∧ screen_h s' = screen_h s
  ∧ length (screen_pixels s') = length (screen_pixels s)
  ∧ (∀ i : nat, Z.of_nat i < base + drawn ∨ base + r ≤ Z.of_nat i →
       screen_pixels s' !! i = screen_pixels s !! i)
  ∧ (∀ k, drawn ≤ k < r →
       ∃ v, sample k = Done (Some v)
            ∧ screen_pixels s' !! Z.to_nat (base + k) = Some v)
  ∧ (r < drawn + Z.of_nat n → sample r = Done None).
Proof.
  revert drawn s. induction n as [| n IH]; intros drawn s H.
  - cbn in H. injection H as <- <-. repeat split; try done; intros; lia.
  - cbn [pixel_run] in H.
    destruct (sample drawn) as [[v |] | |] eqn:Es; cbn [rbind] in H; try done.
    + destruct (store_pixel (base + drawn) v s) as [t | |] eqn:Est;
        cbn [rbind] in H; try done.
      apply store_pixel_done in Est as (Hi & Hw & Hh & Hpx).
      apply IH in H as (Hr & Hw' & Hh' & Hlen & Hframe & Hdrawn & Hstop).
      split; [lia|]. split; [congruence|]. split; [congruence|].
      split; [by rewrite Hlen, Hpx, length_insert|].
      split; [| split].
      * intros i Hi'. rewrite Hframe by lia. rewrite Hpx.
        apply list_lookup_insert_ne. lia.
      * intros k Hk. destruct (Z.eq_dec k drawn) as [-> | Hne].
        -- exists v. split; [done|]. rewrite Hframe by lia. rewrite Hpx.
           apply list_lookup_insert_eq. lia.
        -- apply Hdrawn. lia.
      * intros Hlt. apply Hstop. lia.
    + injection H as <- <-. repeat split; try done; intros; lia.
Qed.

(** A run returns when every sample is defined and the frame buffer has
    room for it. *)
Lemma pixel_run_returns n sample base drawn s :
  (∀ k, drawn ≤ k < drawn + Z.of_nat n → ∃ c, sample k = Done c) →
  0 ≤ base + drawn →
  base + drawn + Z.of_nat n ≤ Z.of_nat (length (screen_pixels s)) →
  ∃ r s', pixel_run n sample base drawn s = Done (r, s').
Proof.
  revert drawn s. induction n as [| n IH]; intros drawn s Hs Hb Hroom.
  - by exists drawn, s.
  - cbn [pixel_run]. destruct (Hs drawn) as [c ->]; [lia|]. cbn [rbind].
    destruct c as [v |]; [| by exists drawn, s].
    rewrite store_pixel_inside by lia. cbn [rbind].
    apply IH; cbn [screen_pixels]; rewrite ?length_insert; try lia.
    intros k Hk. apply Hs. lia.
Qed.

(** A run whose samples never say stop is complete. *)
Lemma pixel_run_complete n sample base drawn s r s' :
  pixel_run n sample base drawn s = Done (r, s') →
  (∀ k, sample k ≠ Done None) →
  r = drawn + Z.of_nat n.
Proof.
  intros H Hnone. apply pixel_run_outcome in H as (Hr & _ & _ & _ & _ & _ & Hstop).
  destruct (Z.lt_ge_cases r (drawn + Z.of_nat n)) as [Hlt | Hge]; [| lia].
  by apply Hstop, Hnone in Hlt.
Qed.

End Runs.

(** ** What each row renderer draws *)

Lemma land_bit row m :
  0 ≤ m → (Z.land row (Z.shiftl 1 m) =? 0) = negb (Z.testbit row m).
Proof.
  intros Hm. rewrite Z.shiftl_1_l.
  destruct (Z.testbit row m) eqn:Hbit; cbn [negb].
  - apply Z.eqb_neq. intros Hz.
    assert (Hb : Z.testbit (Z.land row (2 ^ m)) m = true)
      by by rewrite Z.land_spec, Hbit, Z.pow2_bits_true.
    rewrite Hz, Z.bits_0 in Hb. done.
  - apply Z.eqb_eq. apply Z.bits_inj'. intros i Hi.
    rewrite Z.land_spec, Z.bits_0, Z.pow2_bits_eqb by done.
    destruct (Z.eqb_spec m i) as [<- | _]; [by rewrite Hbit | apply andb_false_r].
Qed.

Lemma run_length width j0 max_line_len :
  Z.of_nat (Z.to_nat ((if width >? j0 + max_line_len then j0 + max_line_len
                       else width) - j0))
  = Z.max 0 (Z.min (width - j0) max_line_len).
Proof. destruct (Z.gtb_spec width (j0 + max_line_len)); lia. Qed.

Section Renderers.

Variable target : abi.
Variable heap : gmap Z (list Z).
Variable SDL_MapRGB : Z → Z → Z → Z.
Variable READ_32_UNALIGNED : Z → Z.
Variable fontdata : list Z.

Lemma draw_rect_x_outcome xpos ypos max_line_len item s :
  item_x item ≤ xpos < item_x item + item_width item →
  1 ≤ max_line_len →
  let base := screen_w s * ypos + xpos in
  let span := Z.min (item_width item - (xpos - item_x item)) max_line_len in
  0 ≤ base → base + span ≤ Z.of_nat (length (screen_pixels s)) →
  ∃ s', draw_rect_x SDL_MapRGB xpos ypos max_line_len item s = Done (span, s')
        ∧ (∀ k, 0 ≤ k < span →
             screen_pixels s' !! Z.to_nat (base + k)
             = Some (uint32_color_to_surface SDL_MapRGB (brcolor item)))
        ∧ (∀ i : nat, Z.of_nat i < base ∨ base + span ≤ Z.of_nat i →
             screen_pixels s' !! i = screen_pixels s !! i)
        ∧ length (screen_pixels s') = length (screen_pixels s)
        ∧ screen_w s' = screen_w s ∧ screen_h s' = screen_h s.
Proof.
  intros Hx Hmax base span Hbase Hroom.
  unfold draw_rect_x. cbv zeta. fold base. rewrite rect_run_pixel_run.
  set (n := Z.to_nat _).
  assert (Hn : Z.of_nat n = span) by (subst n span; rewrite run_length; lia).
  destruct (pixel_run_returns n (λ _, Done (Some
              (uint32_color_to_surface SDL_MapRGB (brcolor item)))) base 0 s)
    as (r & s' & Hrun); [by eauto | lia | lia |].
  pose proof (pixel_run_complete _ _ _ _ _ _ _ Hrun) as Hr.
  rewrite Hr in Hrun by done. rewrite Z.add_0_l, Hn in Hrun.
  apply pixel_run_outcome in Hrun as Hout.
  destruct Hout as (_ & Hw & Hh & Hlen & Hframe & Hdrawn & _).
  exists s'. split; [done|]. split; [| split; [| done]].
  - intros k Hk. destruct (Hdrawn k) as (v & [= <-] & Hv); [lia | done].
  - intros i Hi. apply Hframe. lia.
Qed.

(** A rectangle is opaque: inside its box [draw_rect_x] draws the whole
    span it was asked for, up to the right edge of the box, in the mapped
    colour of the item, and touches no other pixel; it returns whenever
    the frame buffer has room for the span. *)
Theorem draw_rect_x_fills xpos ypos max_line_len item s :
  item_x item ≤ xpos < item_x item + item_width item →
  1 ≤ max_line_len →
  let base := screen_w s * ypos + xpos in
  let span := Z.min (item_width item - (xpos - item_x item)) max_line_len in
  0 ≤ base → base + span ≤ Z.of_nat (length (screen_pixels s)) →
  ∃ s', draw_rect_x SDL_MapRGB xpos ypos max_line_len item s = Done (span, s')
        ∧ (∀ k, 0 ≤ k < span →
             screen_pixels s' !! Z.to_nat (base + k)
             = Some (uint32_color_to_surface SDL_MapRGB (brcolor item)))
        ∧ (∀ i : nat, Z.of_nat i < base ∨ base + span ≤ Z.of_nat i →
             screen_pixels s' !! i = screen_pixels s !! i)
        ∧ length (screen_pixels s') = length (screen_pixels s)
        ∧ screen_w s' = screen_w s ∧ screen_h s' = screen_h s.
Proof. apply draw_rect_x_outcome. Qed.

(** The pixels of a text run come from the glyph table: pixel [k] of a
    run that starts at offset [j0] of the box belongs to the character
    [(j0 + k) / 8] of the string, and is decided by bit
    [7 - (j0 + k) % 8], counted from the least significant one, of the
    glyph byte of row [ypos - y]: foreground where the bit is set,
    background where it is clear.  A run is cut short only at a clear bit
    of an item without background, and no other pixel is touched. *)
Theorem draw_text_x_glyph_bits xpos ypos max_line_len item s n s' :
  item_x item ≤ xpos →
  draw_text_x target heap SDL_MapRGB fontdata xpos ypos max_line_len item s
  = Done (n, s') →
  let j0 := xpos - item_x item in
  let base := screen_w s * ypos + xpos in
  let span := Z.max 0 (Z.min (item_width item - j0) max_line_len) in
  let text := text_data_text target (data item) in
  0 ≤ n ≤ span
  ∧ (∀ k, 0 ≤ k < n →
       ∃ c row,
         load heap text (Z.quot (j0 + k) 8) = Done c
         ∧ glyph_byte fontdata (c mod 256 * 16 + (ypos - item_y item)) = Done row
         ∧ (Z.testbit row (7 - Z.rem (j0 + k) 8) = false → brcolor item ≠ 0)
         ∧ screen_pixels s' !! Z.to_nat (base + k)
           = Some (uint32_color_to_surface SDL_MapRGB
                     (if Z.testbit row (7 - Z.rem (j0 + k) 8)
                      then text_data_fgcolor (data item) else brcolor item)))
  ∧ (n < span →
       ∃ c row,
         load heap text (Z.quot (j0 + n) 8) = Done c
         ∧ glyph_byte fontdata (c mod 256 * 16 + (ypos - item_y item)) = Done row
         ∧ Z.testbit row (7 - Z.rem (j0 + n) 8) = false ∧ brcolor item = 0)
  ∧ (∀ i : nat, Z.of_nat i < base ∨ base + n ≤ Z.of_nat i →
       screen_pixels s' !! i = screen_pixels s !! i)
  ∧ length (screen_pixels s') = length (screen_pixels s)
  ∧ screen_w s' = screen_w s ∧ screen_h s' = screen_h s.
Proof.
  intros Hx H j0 base span text.
  unfold draw_text_x in H. cbv zeta in H. fold j0 base text in H.
  match type of H with
  | text_run _ _ ?m ?j ?t ?dy ?b ?fg ?vb ?bg 0 ?s0 = _ =>
      pose proof (text_run_pixel_run heap fontdata m j t dy b fg vb bg 0 s0) as Heq
  end.
  rewrite Z.add_0_r in Heq. rewrite Heq in H. clear Heq.
  apply pixel_run_outcome in H as (Hn & Hw & Hh & Hlen & Hframe & Hdrawn & Hstop).
  rewrite run_length in Hn, Hstop. fold span in Hn, Hstop.
  assert (Hbit : ∀ k, 0 ≤ k → ∀ row,
    negb (Z.land row (Z.shiftl 1 (7 - Z.rem (j0 + k) CHAR_WIDTH)) =? 0)
    = Z.testbit row (7 - Z.rem (j0 + k) 8)).
  { intros k Hk row. unfold CHAR_WIDTH. rewrite land_bit, negb_involutive; [done|].
    pose proof (Z.rem_bound_pos (j0 + k) 8). lia. }
  assert (Hsample : ∀ k o, 0 ≤ k →
    text_sample heap fontdata text (ypos - item_y item)
      (uint32_color_to_surface SDL_MapRGB (text_data_fgcolor (data item)))
      (negb (brcolor item =? 0))
      (uint32_color_to_surface SDL_MapRGB (brcolor item)) j0 k = Done o →
    ∃ c row,
      load heap text (Z.quot (j0 + k) 8) = Done c
      ∧ glyph_byte fontdata (c mod 256 * 16 + (ypos - item_y item)) = Done row
      ∧ o = pixel_choice (Z.testbit row (7 - Z.rem (j0 + k) 8))
              (uint32_color_to_surface SDL_MapRGB (text_data_fgcolor (data item)))
              (negb (brcolor item =? 0))
              (uint32_color_to_surface SDL_MapRGB (brcolor item))).
  { intros k o Hk Hs. unfold text_sample in Hs. unfold CHAR_WIDTH in Hs at 1.
    destruct (load heap text _) as [c | |] eqn:El; cbn [rbind] in Hs; try done.
    destruct (glyph_byte fontdata _) as [row | |] eqn:Eg; cbn [rbind] in Hs;
      try done.
    rewrite Hbit in Hs by done. injection Hs as <-. by exists c, row. }
  split; [lia|]. split; [| split; [| split; [| done]]].
  - intros k Hk. destruct (Hdrawn k) as (v & Hv & Hpx); [lia|].
    apply Hsample in Hv as (c & row & Hc & Hrow & Hchoice); [| lia].
    exists c, row. split; [done|]. split; [done|]. rewrite Hpx.
    unfold pixel_choice in Hchoice.
    destruct (Z.testbit row _); [by injection Hchoice as -> |].
    destruct (Z.eqb_spec (brcolor item) 0); cbn [negb] in Hchoice; [done|].
    by injection Hchoice as ->.
  - intros Hlt. specialize (Hstop ltac:(lia)).
    apply Hsample in Hstop as (c & row & Hc & Hrow & Hchoice); [| lia].
    exists c, row. split; [done|]. split; [done|].
    unfold pixel_choice in Hchoice.
    destruct (Z.testbit row _); [done|].
    destruct (Z.eqb_spec (brcolor item) 0); cbn [negb] in Hchoice; done.
  - intros i Hi. apply Hframe. lia.
Qed.

End Renderers.

Lemma Done_inj {A : Type} (a b : A) : Done a = Done b → a = b.
Proof. by intros [= ->]. Qed.

Lemma pixel_choice_with_background opaque color bgcolor :
  pixel_choice opaque color true bgcolor ≠ None.
Proof. unfold pixel_choice. by destruct opaque. Qed.

Section Sampling.

Variable target : abi.
Variable heap : gmap Z (list Z).
Variable SDL_MapRGB : Z → Z → Z → Z.
Variable READ_32_UNALIGNED : Z → Z.
Variable fontdata : list Z.

(** The pixels of a scaled cropped run are taken from the row
    [source_y + (ypos - y) / y_scale] of the backing image.  The first
    pixel of a run that starts at offset [j0] of the box comes from
    column [source_x + j0 / x_scale]; pixel [k >= 1] comes from column
    [source_x + (j0 + k - 1) / x_scale], the column of the offset before
    its own.  A pixel whose word has a non-zero alpha byte is stored as
    the mapped value that [READ_32_UNALIGNED] gives for the word, any
    other as the mapped background.  A call only returns for non-zero
    scale factors. *)
Theorem draw_scaled_cropped_img_x_samples xpos ypos max_line_len item s n s' :
  draw_scaled_cropped_img_x target heap SDL_MapRGB READ_32_UNALIGNED
      xpos ypos max_line_len item s
  = Done (n, s') →
  let j0 := xpos - item_x item in
  let base := screen_w s * ypos + xpos in
  let pix := image_data_with_size_pix target (data item) in
  let img_width := image_data_with_size_width (data item) in
  let row := source_y item + Z.quot (ypos - item_y item) (y_scale item) in
  let width1 :=
    if source_x item + Z.quot (item_width item) (x_scale item) >? img_width
    then (img_width - source_x item) * x_scale item else item_width item in
  let span := Z.max 0 (Z.min (width1 - j0) max_line_len) in
  x_scale item ≠ 0 ∧ y_scale item ≠ 0
  ∧ 0 ≤ n ≤ span
  ∧ (∀ k, 0 ≤ k < n →
       ∃ p, load heap pix
              (row * img_width + source_x item
               + Z.quot (j0 + Z.max 0 (k - 1)) (x_scale item)) = Done p
            ∧ (Z.land (p ≫ 24) 255 = 0 → brcolor item ≠ 0)
            ∧ screen_pixels s' !! Z.to_nat (base + k)
              = Some (uint32_color_to_surface SDL_MapRGB
                        (if Z.land (p ≫ 24) 255 =? 0 then brcolor item
                         else READ_32_UNALIGNED p)))
  ∧ (n < span →
       ∃ p, load heap pix
              (row * img_width + source_x item
               + Z.quot (j0 + Z.max 0 (n - 1)) (x_scale item)) = Done p
            ∧ Z.land (p ≫ 24) 255 = 0 ∧ brcolor item = 0)
  ∧ (∀ i : nat, Z.of_nat i < base ∨ base + n ≤ Z.of_nat i →
       screen_pixels s' !! i = screen_pixels s !! i)
  ∧ length (screen_pixels s') = length (screen_pixels s)
  ∧ screen_w s' = screen_w s ∧ screen_h s' = screen_h s.
Proof.
  intros H j0 base pix img_width row width1 span.
  unfold draw_scaled_cropped_img_x in H. cbv zeta in H.
  fold j0 base pix img_width row in H. fold width1 in H.
  destruct (Z.eqb_spec (y_scale item) 0) as [| Hys]; [done|].
  destruct (Z.eqb_spec (x_scale item) 0) as [| Hxs]; [done|].
  cbn [orb] in H.
  match type of H with
  | scaled_run _ _ _ ?m ?j ?p ?src ?ro ?sx ?xs ?b ?vb ?bg 0 ?s0 = _ =>
      pose proof (scaled_run_pixel_run heap SDL_MapRGB READ_32_UNALIGNED
          m j p src ro sx xs b vb bg
                    0 s0 (Z.le_refl 0)) as Heq
  end.
  cbn [Z.eqb] in Heq. rewrite Z.add_0_r in Heq. rewrite Heq in H. clear Heq.
  apply pixel_run_outcome in H as (Hn & Hw & Hh & Hlen & Hframe & Hdrawn & Hstop).
  rewrite run_length in Hn, Hstop. fold span in Hn, Hstop.
  assert (Hsample : ∀ k o, 0 ≤ k →
    scaled_sample heap SDL_MapRGB READ_32_UNALIGNED pix
      (row * img_width + source_x item + Z.quot j0 (x_scale item))
      (row * img_width) (source_x item) (x_scale item) j0
      (negb (brcolor item =? 0))
      (uint32_color_to_surface SDL_MapRGB (brcolor item)) k = Done o →
    ∃ p, load heap pix
           (row * img_width + source_x item
            + Z.quot (j0 + Z.max 0 (k - 1)) (x_scale item)) = Done p
         ∧ o = pixel_choice (negb (Z.land (p ≫ 24) 255 =? 0))
                 (uint32_color_to_surface SDL_MapRGB (READ_32_UNALIGNED p))
                 (negb (brcolor item =? 0))
                 (uint32_color_to_surface SDL_MapRGB (brcolor item))).
  { intros k o Hk Hs. unfold scaled_sample in Hs.
    replace (if k =? 0
             then row * img_width + source_x item + Z.quot j0 (x_scale item)
             else row * img_width + source_x item
                  + Z.quot (j0 + k - 1) (x_scale item))
      with (row * img_width + source_x item
            + Z.quot (j0 + Z.max 0 (k - 1)) (x_scale item)) in Hs.
    2:{ destruct (Z.eqb_spec k 0) as [-> | Hk0].
        - by rewrite Z.add_0_r.
        - by replace (j0 + Z.max 0 (k - 1)) with (j0 + k - 1) by lia. }
    destruct (load heap pix _) as [p | |] eqn:El; cbn [rbind] in Hs; try done.
    apply Done_inj in Hs. exists p. by split. }
  split; [done|]. split; [done|]. split; [lia|].
  split; [| split; [| split; [| done]]].
  - intros k Hk. destruct (Hdrawn k) as (v & Hv & Hpx); [lia|].
    apply Hsample in Hv as (p & Hp & Hchoice); [| lia].
    exists p. split; [done|]. rewrite Hpx. unfold pixel_choice in Hchoice.
    destruct (Z.eqb_spec (Z.land (p ≫ 24) 255) 0) as [Ha | Ha];
      cbn [negb] in Hchoice.
    + destruct (Z.eqb_spec (brcolor item) 0); cbn [negb] in Hchoice; [done|].
      by injection Hchoice as ->.
    + injection Hchoice as ->. split; [lia | done].
  - intros Hlt. specialize (Hstop ltac:(lia)).
    apply Hsample in Hstop as (p & Hp & Hchoice); [| lia].
    exists p. split; [done|]. unfold pixel_choice in Hchoice.
    destruct (Z.eqb_spec (Z.land (p ≫ 24) 255) 0) as [Ha | Ha];
      cbn [negb] in Hchoice; [| done].
    destruct (Z.eqb_spec (brcolor item) 0); cbn [negb] in Hchoice; done.
  - intros i Hi. apply Hframe. lia.
Qed.

(** A renderer whose item has a background stops at no pixel: when it
    returns, it has drawn the whole span it was asked for. *)
Lemma backed_run_length xpos ypos max_line_len item s n s' :
  brcolor item ≠ 0 →
  let j0 := xpos - item_x item in
  let width1 :=
    if source_x item + Z.quot (item_width item) (x_scale item)
       >? image_data_with_size_width (data item)
    then (image_data_with_size_width (data item) - source_x item) * x_scale item
    else item_width item in
  (draw_image_x target heap SDL_MapRGB READ_32_UNALIGNED
      xpos ypos max_line_len item s = Done (n, s') →
   n = Z.max 0 (Z.min (item_width item - j0) max_line_len))
  ∧ (draw_text_x target heap SDL_MapRGB fontdata xpos ypos max_line_len item s
     = Done (n, s') →
     n = Z.max 0 (Z.min (item_width item - j0) max_line_len))
  ∧ (draw_scaled_cropped_img_x target heap SDL_MapRGB READ_32_UNALIGNED
      xpos ypos max_line_len item s
     = Done (n, s') →
     n = Z.max 0 (Z.min (width1 - j0) max_line_len)).
Proof.
  intros Hbr j0 width1.
  assert (Hvb : negb (brcolor item =? 0) = true)
    by by destruct (Z.eqb_spec (brcolor item) 0).
  split; [| split]; intros H.
  - unfold draw_image_x in H. cbv zeta in H. fold j0 in H. rewrite Hvb in H.
    match type of H with
    | image_run _ _ _ ?m ?p ?src ?b ?vb ?bg 0 ?s0 = _ =>
        pose proof (image_run_pixel_run heap SDL_MapRGB READ_32_UNALIGNED
            m p src b vb bg 0 s0) as Heq
    end.
    rewrite Z.add_0_r in Heq. rewrite Heq in H. clear Heq.
    apply pixel_run_complete in H; [by rewrite H, run_length|].
    intros k. unfold image_sample.
    destruct (load heap _ _); cbn [rbind]; try done.
    intros Hc. by apply Done_inj, pixel_choice_with_background in Hc.
  - unfold draw_text_x in H. cbv zeta in H. fold j0 in H. rewrite Hvb in H.
    match type of H with
    | text_run _ _ ?m ?j ?t ?dy ?b ?fg ?vb ?bg 0 ?s0 = _ =>
        pose proof (text_run_pixel_run heap fontdata m j t dy b fg vb bg 0 s0) as Heq
    end.
    rewrite Z.add_0_r in Heq. rewrite Heq in H. clear Heq.
    apply pixel_run_complete in H; [by rewrite H, run_length|].
    intros k. unfold text_sample.
    destruct (load heap _ _); cbn [rbind]; try done.
    destruct (glyph_byte fontdata _); cbn [rbind]; try done.
    intros Hc. by apply Done_inj, pixel_choice_with_background in Hc.
  - unfold draw_scaled_cropped_img_x in H. cbv zeta in H.
    fold j0 in H. fold width1 in H. rewrite Hvb in H.
    destruct (_ || _); [done|].
    match type of H with
    | scaled_run _ _ _ ?m ?j ?p ?src ?ro ?sx ?xs ?b ?vb ?bg 0 ?s0 = _ =>
        pose proof (scaled_run_pixel_run heap SDL_MapRGB READ_32_UNALIGNED
            m j p src ro sx xs b vb bg
                      0 s0 (Z.le_refl 0)) as Heq
    end.
    cbn [Z.eqb] in Heq. rewrite Z.add_0_r in Heq. rewrite Heq in H. clear Heq.
    apply pixel_run_complete in H; [by rewrite H, run_length|].
    intros k. unfold scaled_sample.
    destruct (load heap _ _); cbn [rbind]; try done.
    intros Hc. by apply Done_inj, pixel_choice_with_background in Hc.
Qed.

(** With a background, an image or a text never falls through inside
    its box: the renderer draws the whole span, which is at least one
    pixel.  A scaled cropped image with a background draws its whole
    clipped span, and it returns 0, so that the compositor goes on to the
    items behind it, exactly at the positions of its box from the clipped
    width on. *)
Theorem fall_through_with_background xpos ypos max_line_len item s n s' :
  brcolor item ≠ 0 →
  item_x item ≤ xpos < item_x item + item_width item →
  1 ≤ max_line_len →
  let j0 := xpos - item_x item in
  let width1 :=
    if source_x item + Z.quot (item_width item) (x_scale item)
       >? image_data_with_size_width (data item)
    then (image_data_with_size_width (data item) - source_x item) * x_scale item
    else item_width item in
  (draw_image_x target heap SDL_MapRGB READ_32_UNALIGNED xpos ypos max_line_len
     item s = Done (n, s') →
   n = Z.min (item_width item - j0) max_line_len ∧ 1 ≤ n)
  ∧ (draw_text_x target heap SDL_MapRGB fontdata xpos ypos max_line_len item s
     = Done (n, s') →
     n = Z.min (item_width item - j0) max_line_len ∧ 1 ≤ n)
  ∧ (draw_scaled_cropped_img_x target heap SDL_MapRGB READ_32_UNALIGNED xpos ypos
       max_line_len item s = Done (n, s') →
     n = Z.max 0 (Z.min (width1 - j0) max_line_len)
     ∧ (n = 0 ↔ width1 ≤ j0)).
Proof.
  intros Hbr Hx Hmax j0 width1.
  pose proof (backed_run_length xpos ypos max_line_len item s n s' Hbr) as Hb.
  cbv zeta in Hb. fold j0 in Hb. fold width1 in Hb.
  destruct Hb as (Himage & Htext & Hscaled).
  split; [| split]; intros H.
  - apply Himage in H. subst j0. lia.
  - apply Htext in H. subst j0. lia.
  - apply Hscaled in H. split; [exact H | lia].
Qed.

End Sampling.

(** ** The compositor *)

Section Compositor.

Variable target : abi.
Variable heap : gmap Z (list Z).
Variable SDL_MapRGB : Z → Z → Z → Z.
Variable READ_32_UNALIGNED : Z → Z.
Variable fontdata : list Z.

Lemma pixel_run_only_span n sample base s r s' :
  pixel_run n sample base 0 s = Done (r, s') →
  0 ≤ r ∧ only_span_written base r s s'.
Proof.
  intros H. apply pixel_run_outcome in H as (Hr & Hw & Hh & Hlen & Hframe & _).
  split; [lia|]. repeat split; try done. intros i Hi. apply Hframe. lia.
Qed.

Lemma renderer_only_span xpos ypos max_line_len item s r s' :
  match item_primitive item with
  | Image => draw_image_x target heap SDL_MapRGB READ_32_UNALIGNED
      xpos ypos max_line_len item s
  | ScaledCroppedImage =>
      draw_scaled_cropped_img_x target heap SDL_MapRGB READ_32_UNALIGNED
          xpos ypos max_line_len item s
  | Rect => draw_rect_x SDL_MapRGB xpos ypos max_line_len item s
  | Text => draw_text_x target heap SDL_MapRGB fontdata xpos ypos max_line_len item s
  | Invalid => Done (0, s)
  end = Done (r, s') →
  0 ≤ r ∧ only_span_written (screen_w s * ypos + xpos) r s s'.
Proof.
  destruct (item_primitive item); intros H.
  - apply Done_inj in H. injection H as <- <-.
    split; [lia|]. by repeat split.
  - unfold draw_image_x in H. cbv zeta in H.
    match type of H with
    | image_run _ _ _ ?m ?p ?src ?b ?vb ?bg 0 ?s0 = _ =>
        pose proof (image_run_pixel_run heap SDL_MapRGB READ_32_UNALIGNED
            m p src b vb bg 0 s0) as Heq
    end.
    rewrite Z.add_0_r in Heq. rewrite Heq in H. by apply pixel_run_only_span in H.
  - unfold draw_scaled_cropped_img_x in H. cbv zeta in H.
    destruct (_ || _); [done|].
    match type of H with
    | scaled_run _ _ _ ?m ?j ?p ?src ?ro ?sx ?xs ?b ?vb ?bg 0 ?s0 = _ =>
        pose proof (scaled_run_pixel_run heap SDL_MapRGB READ_32_UNALIGNED
            m j p src ro sx xs b vb bg
                      0 s0 (Z.le_refl 0)) as Heq
    end.
    cbn [Z.eqb] in Heq. rewrite Z.add_0_r in Heq. rewrite Heq in H.
    by apply pixel_run_only_span in H.
  - unfold draw_rect_x in H. cbv zeta in H. rewrite rect_run_pixel_run in H.
    by apply pixel_run_only_span in H.
  - unfold draw_text_x in H. cbv zeta in H.
    match type of H with
    | text_run _ _ ?m ?j ?t ?dy ?b ?fg ?vb ?bg 0 ?s0 = _ =>
        pose proof (text_run_pixel_run heap fontdata m j t dy b fg vb bg 0 s0) as Heq
    end.
    rewrite Z.add_0_r in Heq. rewrite Heq in H. by apply pixel_run_only_span in H.
Qed.

Lemma draw_x_from_only_span rest i below xpos ypos items s n s' :
  draw_x_from target heap SDL_MapRGB READ_32_UNALIGNED fontdata
      rest i below xpos ypos items s
  = Done (n, s') →
  only_span_written (screen_w s * ypos + xpos) n s s'.
Proof.
  revert i below s. induction rest as [| item rest IH]; intros i below s H.
  - cbn in H. apply Done_inj in H. injection H as <- <-. by repeat split.
  - cbn [draw_x_from] in H. cbv zeta in H.
    destruct (outside xpos ypos item); [by apply IH in H|].
    match type of H with
    | rbind ?r _ = _ => destruct r as [[d t] | |] eqn:Er
    end; cbn [rbind] in H; try done.
    apply renderer_only_span in Er as (Hd & Hw & Hh & Hlen & Hframe).
    destruct (Z.eqb_spec d 0) as [-> | Hd0]; cbn [negb] in H.
    + apply IH in H as (Hw' & Hh' & Hlen' & Hframe').
      rewrite Hw in Hframe'.
      split; [congruence|]. split; [congruence|]. split; [congruence|].
      intros j Hj. rewrite Hframe' by done. apply Hframe. lia.
    + apply Done_inj in H. injection H as <- <-. by repeat split.
Qed.

(** A compositor step never writes outside the span it reports: after
    [draw_x] has returned [n] for the pixel ([xpos], [ypos]), only the
    [n] pixels from that one on can differ from before, and the size of
    the frame buffer is the same. *)
Theorem draw_x_writes_only_its_span xpos ypos items s n s' :
  draw_x target heap SDL_MapRGB READ_32_UNALIGNED fontdata
      xpos ypos items s = Done (n, s') →
  let base := screen_w s * ypos + xpos in
  (∀ i : nat, Z.of_nat i < base ∨ base + n ≤ Z.of_nat i →
     screen_pixels s' !! i = screen_pixels s !! i)
  ∧ length (screen_pixels s') = length (screen_pixels s)
  ∧ screen_w s' = screen_w s ∧ screen_h s' = screen_h s.
Proof.
  intros H. apply draw_x_from_only_span in H as (Hw & Hh & Hlen & Hframe).
  by repeat split.
Qed.

Lemma repaint_row_geometry fuel xpos xend ypos items s s' :
  repaint_row target heap SDL_MapRGB READ_32_UNALIGNED fontdata
      fuel xpos xend ypos items s = Done s' →
  screen_w s' = screen_w s ∧ screen_h s' = screen_h s
  ∧ length (screen_pixels s') = length (screen_pixels s)
  ∧ ∀ i : nat, Z.of_nat i < screen_w s * ypos + xpos →
      screen_pixels s' !! i = screen_pixels s !! i.
Proof.
  revert xpos s. induction fuel as [| fuel IH]; intros xpos s H.
  - cbn in H. destruct (xpos <? xend); [done|].
    apply Done_inj in H. by subst s'.
  - cbn [repaint_row] in H. destruct (xpos <? xend).
    + destruct (draw_x target heap SDL_MapRGB READ_32_UNALIGNED fontdata
        xpos ypos items s)
        as [[d t] | |] eqn:Ed; cbn [rbind] in H; try done.
      pose proof (draw_x_from_positive _ _ _ _ _ _ _ _ _ _ _ _ _ _ Ed) as Hd.
      apply draw_x_from_only_span in Ed as (Hw & Hh & Hlen & Hframe).
      apply IH in H as (Hw' & Hh' & Hlen' & Hframe').
      split; [congruence|]. split; [congruence|]. split; [congruence|].
      intros i Hi. rewrite Hframe' by (rewrite Hw; lia). apply Hframe. lia.
    + apply Done_inj in H. by subst s'.
Qed.

Lemma repaint_rows_geometry fuel rows ypos damaged items s s' :
  repaint_rows target heap SDL_MapRGB READ_32_UNALIGNED fontdata
      fuel rows ypos damaged items s
  = Done s' →
  screen_w s' = screen_w s ∧ screen_h s' = screen_h s
  ∧ length (screen_pixels s') = length (screen_pixels s).
Proof.
  revert ypos s. induction rows as [| rows IH]; intros ypos s H.
  - cbn in H. apply Done_inj in H. by subst s'.
  - cbn [repaint_rows] in H.
    match type of H with
    | rbind ?r _ = _ => destruct r as [t | |] eqn:Er
    end; cbn [rbind] in H; try done.
    apply repaint_row_geometry in Er as (Hw & Hh & Hlen & _).
    apply IH in H as (Hw' & Hh' & Hlen'). repeat split; congruence.
Qed.

(** An update that returns has adopted the new list as the retained
    list and has kept the width, the height and the number of pixels of
    the screen. *)
Theorem do_update_keeps_geometry fuel items st st' :
  do_update target heap SDL_MapRGB READ_32_UNALIGNED fontdata fuel items st = Done st' →
  prev_items st' = items
  ∧ screen_w (screen st') = screen_w (screen st)
  ∧ screen_h (screen st') = screen_h (screen st)
  ∧ length (screen_pixels (screen st')) = length (screen_pixels (screen st)).
Proof.
  unfold do_update. cbv zeta. intros H.
  destruct (dumb_diff target heap (prev_items st) items no_damage) as [d | |];
    cbn [rbind] in H; try done.
  destruct (negb (valid d)).
  - apply Done_inj in H. by subst st'.
  - match type of H with
    | rbind ?r _ = _ => destruct r as [t | |] eqn:Er
    end; cbn [rbind] in H; try done.
    apply Done_inj in H. subst st'. cbn [prev_items screen].
    apply repaint_rows_geometry in Er as (Hw & Hh & Hlen). by repeat split.
Qed.

End Compositor.

Lemma fold_line_len (l : list BaseDisplayItem) xpos ypos acc :
  let f := λ (line_len : Z) (item : BaseDisplayItem),
    if (xpos <? item_x item) && (ypos >=? item_y item)
       && (ypos <? item_y item + item_height item)
    then
      let len_to_item := item_x item - xpos in
      if line_len >? len_to_item then len_to_item else line_len
    else line_len in
  let r := fold_left f l acc in
  r ≤ acc ∧ (1 ≤ acc → 1 ≤ r)
  ∧ ∀ it, it ∈ l → xpos < item_x it →
          item_y it ≤ ypos < item_y it + item_height it →
          xpos + r ≤ item_x it.
Proof.
  cbv zeta. revert acc. induction l as [| item l IH]; intros acc.
  - cbn. split; [lia|]. split; [done|]. intros it Hin. by apply elem_of_nil in Hin.
  - cbn [fold_left].
    match goal with
    | |- context [fold_left ?f l ?a] =>
        destruct (IH a) as (Hle & Hpos & Hitems); set (acc1 := a) in *
    end.
    assert (Hacc1 : acc1 ≤ acc ∧ (1 ≤ acc → 1 ≤ acc1)
                    ∧ (xpos < item_x item →
                       item_y item ≤ ypos < item_y item + item_height item →
                       xpos + acc1 ≤ item_x item)).
    { subst acc1.
      destruct (Z.ltb_spec xpos (item_x item)),
               (Z.geb_spec ypos (item_y item)),
               (Z.ltb_spec ypos (item_y item + item_height item)); cbn [andb];
        try (destruct (Z.gtb_spec acc (item_x item - xpos))); lia. }
    destruct Hacc1 as (Hle1 & Hpos1 & Hitem).
    split; [lia|]. split; [tauto|].
    intros it Hin Hx Hy. apply elem_of_cons in Hin as [-> | Hin].
    + specialize (Hitem Hx Hy). lia.
    + by apply Hitems.
Qed.

(** The span that the compositor grants to the first item found at a
    pixel is at least 1 and at most the screen width, and it ends at the
    latest where the box of an item of higher priority begins to the right
    on the same row. *)
Theorem find_max_line_len_bounds items count xpos ypos s :
  1 ≤ screen_w s →
  let len := find_max_line_len items count xpos ypos s in
  1 ≤ len ≤ screen_w s
  ∧ ∀ (i : nat) it,
      (i < Z.to_nat count)%nat → items !! i = Some it →
      xpos < item_x it →
      item_y it ≤ ypos < item_y it + item_height it →
      xpos + len ≤ item_x it.
Proof.
  intros Hw. cbv zeta. unfold find_max_line_len.
  destruct (fold_line_len (take (Z.to_nat count) items) xpos ypos (screen_w s))
    as (Hle & Hpos & Hitems).
  split; [split; [by apply Hpos | done]|].
  intros i it Hi Hit Hx Hy. apply Hitems; [| done | done].
  apply list_elem_of_lookup. exists i. by rewrite lookup_take_lt.
Qed.


(** ** A scene of one rectangle *)

Section LoneRect.

Variable target : abi.
Variable heap : gmap Z (list Z).
Variable SDL_MapRGB : Z → Z → Z → Z.
Variable READ_32_UNALIGNED : Z → Z.
Variable fontdata : list Z.

(** The compositor step at the left edge of a rectangle that is alone in
    the scene: the span is the width of the box, cut to the width of the
    screen but not to what is left of the row. *)
Lemma draw_x_lone_rect item ypos s :
  item_primitive item = Rect →
  1 ≤ item_width item →
  item_y item ≤ ypos < item_y item + item_height item →
  let base := screen_w s * ypos + item_x item in
  let span := Z.min (item_width item) (screen_w s) in
  1 ≤ screen_w s →
  0 ≤ base → base + span ≤ Z.of_nat (length (screen_pixels s)) →
  ∃ s', draw_x target heap SDL_MapRGB READ_32_UNALIGNED fontdata
      (item_x item) ypos [item] s
        = Done (span, s')
        ∧ (∀ k, 0 ≤ k < span →
             screen_pixels s' !! Z.to_nat (base + k)
             = Some (uint32_color_to_surface SDL_MapRGB (brcolor item)))
        ∧ (∀ i : nat, Z.of_nat i < base ∨ base + span ≤ Z.of_nat i →
             screen_pixels s' !! i = screen_pixels s !! i)
        ∧ length (screen_pixels s') = length (screen_pixels s)
        ∧ screen_w s' = screen_w s ∧ screen_h s' = screen_h s.
Proof.
  intros Hp Hw Hy base span Hsw Hbase Hroom.
  unfold draw_x. cbn [draw_x_from]. cbv zeta.
  assert (Hout : outside (item_x item) ypos item = false)
    by (apply outside_false; lia).
  rewrite Hout, Hp.
  change (find_max_line_len [item] 0 (item_x item) ypos s) with (screen_w s).
  destruct (draw_rect_x_outcome SDL_MapRGB (item_x item) ypos (screen_w s) item s)
    as (s' & Hrun & Hrest); [lia | lia | | |].
  { fold base. done. }
  { fold base. replace (item_width item - (item_x item - item_x item))
      with (item_width item) by lia. done. }
  replace (item_width item - (item_x item - item_x item))
    with (item_width item) in Hrun, Hrest by lia.
  fold span base in Hrun, Hrest.
  rewrite Hrun. cbn [rbind].
  destruct (Z.eqb_spec span 0); [lia|]. cbn [negb]. by exists s'.
Qed.

Lemma repaint_row_lone_rect fuel item ypos s :
  item_primitive item = Rect →
  0 ≤ item_x item → 1 ≤ item_width item →
  item_x item + item_width item ≤ screen_w s →
  item_y item ≤ ypos < item_y item + item_height item →
  0 ≤ ypos < screen_h s →
  Z.of_nat (length (screen_pixels s)) = screen_w s * screen_h s →
  (1 ≤ fuel)%nat →
  let base := screen_w s * ypos + item_x item in
  ∃ s', repaint_row target heap SDL_MapRGB READ_32_UNALIGNED fontdata fuel (item_x item)
          (item_x item + item_width item) ypos [item] s = Done s'
        ∧ (∀ k, 0 ≤ k < item_width item →
             screen_pixels s' !! Z.to_nat (base + k)
             = Some (uint32_color_to_surface SDL_MapRGB (brcolor item)))
        ∧ (∀ i : nat,
             Z.of_nat i < base ∨ base + item_width item ≤ Z.of_nat i →
             screen_pixels s' !! i = screen_pixels s !! i)
        ∧ length (screen_pixels s') = length (screen_pixels s)
        ∧ screen_w s' = screen_w s ∧ screen_h s' = screen_h s.
Proof.
  intros Hp Hx Hw Hfit Hy Hrow Hlen Hfuel base.
  destruct fuel as [| fuel]; [lia|].
  assert (Hbase : 0 ≤ base) by (subst base; nia).
  assert (Hroom : base + item_width item ≤ Z.of_nat (length (screen_pixels s)))
    by (subst base; nia).
  destruct (draw_x_lone_rect item ypos s) as (s' & Hd & Hrest); try done; try lia.
  replace (Z.min (item_width item) (screen_w s)) with (item_width item)
    in Hd, Hrest by lia.
  fold base in Hrest.
  erewrite repaint_row_step; [| lia | exact Hd].
  rewrite repaint_row_end by lia. by exists s'.
Qed.

Lemma repaint_rows_lone_rect fuel item (rows : nat) ypos s :
  item_primitive item = Rect →
  0 ≤ item_x item → 1 ≤ item_width item →
  item_x item + item_width item ≤ screen_w s →
  item_y item ≤ ypos →
  ypos + Z.of_nat rows ≤ item_y item + item_height item →
  0 ≤ ypos → ypos + Z.of_nat rows ≤ screen_h s →
  Z.of_nat (length (screen_pixels s)) = screen_w s * screen_h s →
  (1 ≤ fuel)%nat →
  ∃ s', repaint_rows target heap SDL_MapRGB READ_32_UNALIGNED fontdata fuel rows ypos
          (item_rect item) [item] s = Done s'
        ∧ (∀ cx cy, item_x item ≤ cx < item_x item + item_width item →
             ypos ≤ cy < ypos + Z.of_nat rows →
             screen_pixels s' !! Z.to_nat (screen_w s * cy + cx)
             = Some (uint32_color_to_surface SDL_MapRGB (brcolor item)))
        ∧ (∀ i : nat,
             (∀ cy, ypos ≤ cy < ypos + Z.of_nat rows →
                    Z.of_nat i < screen_w s * cy + item_x item
                    ∨ screen_w s * cy + item_x item + item_width item ≤ Z.of_nat i) →
             screen_pixels s' !! i = screen_pixels s !! i)
        ∧ length (screen_pixels s') = length (screen_pixels s)
        ∧ screen_w s' = screen_w s ∧ screen_h s' = screen_h s.
Proof.
  intros Hp Hx Hw Hfit. revert ypos s Hfit.
  induction rows as [| rows IH]; intros ypos s Hfit Hy Hy' Hy0 Hrows Hlen Hfuel.
  - exists s. cbn [repaint_rows]. split; [done|].
    split; [intros; lia|]. by repeat split.
  - cbn [repaint_rows item_rect rect_x rect_width].
    destruct (repaint_row_lone_rect fuel item ypos s)
      as (s1 & Hrow & Hin1 & Hout1 & Hlen1 & Hw1 & Hh1); try done; try lia.
    rewrite Hrow. cbn [rbind].
    destruct (IH (ypos + 1) s1) as (s' & Hrest & Hin & Hout & Hlen' & Hw' & Hh');
      try lia; try congruence.
    change (repaint_rows target heap SDL_MapRGB READ_32_UNALIGNED fontdata
        fuel rows (ypos + 1)
              (item_rect item) [item] s1 = Done s') in Hrest.
    exists s'. split; [exact Hrest|]. rewrite Hw1 in Hin, Hout.
    split; [| split; [| repeat split; congruence]].
    + intros cx cy Hcx Hcy. destruct (Z.eq_dec cy ypos) as [-> | Hne].
      * rewrite Hout.
        -- replace (screen_w s * ypos + cx)
             with (screen_w s * ypos + item_x item + (cx - item_x item)) by lia.
           apply Hin1. lia.
        -- intros cy' Hcy'. left. nia.
      * apply Hin; [done | lia].
    + intros i Hi. rewrite Hout.
      * apply Hout1. specialize (Hi ypos). lia.
      * intros cy Hcy. apply Hi. lia.
Qed.

(** A rectangle that lies on the screen and is alone in the scene:
    repainting its box, with one unit of fuel per row, gives every pixel of
    the box the mapped colour of the rectangle and leaves every other pixel
    of the screen as it was. *)
Theorem repaint_lone_rect fuel item s :
  item_primitive item = Rect →
  0 ≤ item_x item → 0 ≤ item_y item →
  1 ≤ item_width item → 0 ≤ item_height item →
  item_x item + item_width item ≤ screen_w s →
  item_y item + item_height item ≤ screen_h s →
  Z.of_nat (length (screen_pixels s)) = screen_w s * screen_h s →
  (1 ≤ fuel)%nat →
  ∃ s', repaint target heap SDL_MapRGB READ_32_UNALIGNED fontdata
      fuel (item_rect item) [item] s
        = Done s'
        ∧ (∀ cx cy,
             item_x item ≤ cx < item_x item + item_width item →
             item_y item ≤ cy < item_y item + item_height item →
             pixel_at s' cx cy
             = Some (uint32_color_to_surface SDL_MapRGB (brcolor item)))
        ∧ (∀ cx cy,
             0 ≤ cx < screen_w s → 0 ≤ cy < screen_h s →
             ¬ (item_x item ≤ cx < item_x item + item_width item
                ∧ item_y item ≤ cy < item_y item + item_height item) →
             pixel_at s' cx cy = pixel_at s cx cy)
        ∧ length (screen_pixels s') = length (screen_pixels s)
        ∧ screen_w s' = screen_w s ∧ screen_h s' = screen_h s.
Proof.
  intros Hp Hx Hy Hw Hh Hfitx Hfity Hlen Hfuel.
  destruct (repaint_rows_lone_rect fuel item (Z.to_nat (item_height item))
              (item_y item) s)
    as (s' & Hrun & Hin & Hout & Hlen' & Hw' & Hh'); try done; try lia.
  exists s'. split; [exact Hrun|]. unfold pixel_at. rewrite Hw'.
  split; [| split; [| by repeat split]].
  - intros cx cy Hcx Hcy. apply Hin; lia.
  - intros cx cy Hcx Hcy Hbox. apply Hout. intros cy' Hcy'.
    rewrite Z2Nat.id by nia.
    destruct (Z.lt_trichotomy cy cy') as [Hlt | [-> | Hgt]].
    + left. nia.
    + assert (¬ (item_x item ≤ cx < item_x item + item_width item)) by lia. lia.
    + right. nia.
Qed.

(** A row is not cut at the right edge of the screen.  For a rectangle
    that is alone in the scene, begins on the screen right of column 0 and
    reaches beyond the right edge, the step at its left edge runs on into
    the next row: the pixel of column 0 of that row, which is outside the
    box, takes the colour of the rectangle. *)
Theorem draw_x_spills_into_next_row item ypos s :
  item_primitive item = Rect →
  0 < item_x item < screen_w s →
  screen_w s < item_x item + item_width item →
  item_y item ≤ ypos < item_y item + item_height item →
  0 ≤ ypos → ypos + 2 ≤ screen_h s →
  Z.of_nat (length (screen_pixels s)) = screen_w s * screen_h s →
  ∃ n s', draw_x target heap SDL_MapRGB READ_32_UNALIGNED fontdata
      (item_x item) ypos [item] s
          = Done (n, s')
          ∧ screen_w s - item_x item < n
          ∧ outside 0 (ypos + 1) item = true
          ∧ pixel_at s' 0 (ypos + 1)
            = Some (uint32_color_to_surface SDL_MapRGB (brcolor item)).
Proof.
  intros Hp Hx Hover Hy Hy0 Hrows Hlen.
  destruct (draw_x_lone_rect item ypos s) as (s' & Hd & Hin & _ & _ & Hw' & _);
    try done; try lia; try nia.
  exists (Z.min (item_width item) (screen_w s)), s'.
  split; [exact Hd|]. split; [lia|]. split.
  - unfold outside. destruct (Z.ltb_spec 0 (item_x item)); [done | lia].
  - unfold pixel_at. rewrite Hw'.
    replace (screen_w s * (ypos + 1) + 0)
      with (screen_w s * ypos + item_x item + (screen_w s - item_x item)) by lia.
    apply Hin. lia.
Qed.

End LoneRect.

(** ** Filling an item: members, colours and text metrics *)

Lemma int_of_word_of_int v :
  -2147483648 ≤ v < 2147483648 → int_of_word (word_of_int v) = v.
Proof.
  intros Hv. unfold int_of_word, word_of_int, two32.
  rewrite Z.mod_mod by lia.
  assert (Hm : v mod 4294967296 = if v <? 0 then v + 4294967296 else v).
  { destruct (Z.ltb_spec v 0).
    - rewrite <- (Z_mod_plus_full v 1 4294967296). apply Z.mod_small. lia.
    - apply Z.mod_small. lia. }
  rewrite Hm. destruct (Z.ltb_spec v 0);
    match goal with |- context [?a <? ?b] => destruct (Z.ltb_spec a b) end; lia.
Qed.

Lemma ptr_at_set_ptr target i pix d :
  (i < 3)%nat → 0 ≤ pix < ptr_limit target →
  ptr_at target i (set_ptr target i pix d) = pix.
Proof.
  intros Hi Hp.
  destruct target; cbn in Hp; unfold two32 in Hp;
    destruct i as [| [| [| i]]]; try lia; cbn; unfold two32;
    rewrite ?(Z.mod_small pix) by lia; try done.
  all: rewrite (Z.mod_small (pix / 4294967296))
         by (split; [apply Z.div_pos; lia | apply Z.div_lt_upper_bound; lia]).
  all: pose proof (Z.div_mod pix 4294967296); lia.
Qed.

(** What [init_item] stores through a member of the union is read back
    through the same member, on both targets: the pixel pointer of an
    image; the backing width, height and pixel pointer of a scaled cropped
    image; the foreground colour and the string of a text. *)
Theorem union_members_read_back target d :
  (∀ pix, 0 ≤ pix < ptr_limit target →
     image_data_pix target (set_image_data target pix d) = pix)
  ∧ (∀ width height pix,
       -2147483648 ≤ width < 2147483648 → -2147483648 ≤ height < 2147483648 →
       0 ≤ pix < ptr_limit target →
       let d' := set_image_data_with_size target width height pix d in
       image_data_with_size_width d' = width
       ∧ image_data_with_size_height d' = height
       ∧ image_data_with_size_pix target d' = pix)
  ∧ (∀ fgcolor text,
       0 ≤ text < ptr_limit target →
       let d' := set_text_data target fgcolor text d in
       text_data_fgcolor d' = fgcolor ∧ text_data_text target d' = text).
Proof.
  split; [| split].
  - intros pix Hp. apply (ptr_at_set_ptr target 0); [lia | done].
  - intros width height pix Hw Hh Hp. cbv zeta. split; [| split].
    + rewrite <- (int_of_word_of_int width Hw) at 2. by destruct target.
    + rewrite <- (int_of_word_of_int height Hh) at 2. by destruct target.
    + apply (ptr_at_set_ptr target 2); [lia | done].
  - intros fgcolor text Hp. cbv zeta. split; [by destruct target|].
    unfold text_data_text, set_text_data. destruct target.
    + apply (ptr_at_set_ptr ILP32 1); [lia | done].
    + apply (ptr_at_set_ptr LP64 2); [lia | done].
Qed.

Lemma brcolor_byte c t :
  8 ≤ t ≤ 24 →
  Z.land (Z.shiftr (Z.lor (Z.shiftl c 8 mod two32) 255) t) 255
  = Z.land (Z.shiftr c (t - 8)) 255.
Proof.
  intros Ht. change 255 with (Z.ones 8). change two32 with (2 ^ 32).
  apply Z.bits_inj'. intros i Hi.
  rewrite !Z.land_spec, !Z.shiftr_spec, Z.lor_spec by done.
  rewrite !Z.testbit_ones_nonneg by lia.
  destruct (Z.ltb_spec i 8) as [Hlt | Hge]; [| by rewrite !andb_false_r].
  destruct (Z.ltb_spec (i + t) 8); [lia|].
  rewrite !andb_true_r, orb_false_r.
  rewrite Z.mod_pow2_bits_low by lia.
  rewrite Z.shiftl_spec by lia. f_equal. lia.
Qed.

(** A colour 0xRRGGBB given in a request is stored as
    [color << 8 | 0xFF], which is never the no-fill value 0, not even for
    black, and the renderers hand exactly its three bytes to
    [SDL_MapRGB]; the atom [transparent] is stored as 0. *)
Theorem brcolor_round_trip (SDL_MapRGB : Z → Z → Z → Z) c :
  uint32_color_to_surface SDL_MapRGB (brcolor_of (Some c))
  = SDL_MapRGB (Z.land (Z.shiftr c 16) 255) (Z.land (Z.shiftr c 8) 255)
               (Z.land c 255)
  ∧ brcolor_of (Some c) ≠ 0
  ∧ brcolor_of None = 0.
Proof.
  split; [| split; [| done]].
  - unfold uint32_color_to_surface, brcolor_of.
    rewrite !brcolor_byte by lia. by rewrite Z.shiftr_0_r.
  - unfold brcolor_of. intros Hz.
    assert (Hb : Z.testbit (Z.lor (Z.shiftl c 8 mod two32) 255) 0 = true)
      by (rewrite Z.lor_spec; apply orb_true_r).
    rewrite Hz in Hb. done.
Qed.

Lemma strlen_cells_chars p i chars rest :
  Forall (λ c, c ≠ 0) chars →
  strlen_cells p i (chars ++ 0 :: rest) = Done (i + Z.of_nat (length chars)).
Proof.
  intros Hnz. revert i. induction Hnz as [| c chars Hc _ IH]; intros i.
  - cbn. f_equal. lia.
  - cbn [app strlen_cells length]. destruct (Z.eqb_spec c 0); [done|].
    rewrite IH. f_equal. lia.
Qed.

Lemma c_string_chars chars rest :
  Forall (λ c, c ≠ 0) chars → c_string (chars ++ 0 :: rest) = chars.
Proof.
  induction 1 as [| c chars Hc _ IH]; [done|].
  cbn. destruct (Z.eqb_spec c 0); [done | by rewrite IH].
Qed.

(** A text item is 16 pixels high and 8 pixels wide per character of its
    string, whatever the characters are; [init_item] records the string
    and the position it was given. *)
Theorem init_text_metrics target heap old x y fgcolor bgcolor text chars rest :
  heap !! text = Some (chars ++ 0 :: rest) →
  Forall (λ c, c ≠ 0) chars →
  0 ≤ text < ptr_limit target →
  ∃ it, init_text target heap old x y fgcolor bgcolor text = Done it
        ∧ item_primitive it = Text
        ∧ item_x it = x ∧ item_y it = y
        ∧ item_height it = 16
        ∧ item_width it = 8 * Z.of_nat (length chars)
        ∧ text_data_text target (data it) = text
        ∧ text_ok target heap it.
Proof.
  intros Hheap Hnz Hp. unfold init_text, strlen. rewrite Hheap.
  rewrite strlen_cells_chars by done. cbn [rbind].
  eexists. split; [reflexivity|]. cbn [item_primitive item_x item_y item_height
    item_width data].
  assert (Htext : text_data_text target
            (set_text_data target (brcolor_of (Some fgcolor)) text (data old))
          = text).
  { unfold text_data_text, set_text_data. destruct target.
    - apply (ptr_at_set_ptr ILP32 1); [lia | done].
    - apply (ptr_at_set_ptr LP64 2); [lia | done]. }
  repeat split; try done; try lia.
  intros _. cbn [data]. rewrite Htext. eexists. split; [done|].
  apply elem_of_app. right. apply elem_of_cons. by left.
Qed.

(** ** Releasing the previous list *)

Lemma free_done p (heap heap' : gmap Z (list Z)) :
  free p heap = Some heap' →
  ∀ q, heap' !! q = if decide (q = p ∧ p ≠ 0) then None else heap !! q.
Proof.
  unfold free. intros H q. destruct (Z.eqb_spec p 0) as [-> | Hp].
  - injection H as <-. by destruct (decide _) as [[_ ?] |].
  - destruct (heap !! p) eqn:Hh; [| done]. injection H as <-.
    destruct (decide _) as [[-> _] | Hn].
    + apply lookup_delete_eq.
    + apply lookup_delete_ne. intros <-. by apply Hn.
Qed.

Lemma destroy_items_released target items (heap heap' : gmap Z (list Z)) :
  destroy_items target items heap = Some heap' →
  ∀ q, heap' !! q
       = if decide (q ∈ text_pointers target items ∧ q ≠ 0) then None
         else heap !! q.
Proof.
  revert heap. induction items as [| item items IH]; intros heap H q.
  - cbn in H. injection H as <-. destruct (decide _) as [[Hin _] |]; [| done].
    by apply elem_of_nil in Hin.
  - cbn [destroy_items text_pointers] in *.
    destruct (item_primitive item); try (by apply IH).
    destruct (free _ heap) as [heap1 |] eqn:Hf; [| done].
    rewrite (IH _ H q), (free_done _ _ _ Hf q).
    destruct (decide (q ∈ text_pointers target items ∧ q ≠ 0)) as [[Hin Hq] | Hn1],
             (decide (q = text_data_text target (data item)
                      ∧ text_data_text target (data item) ≠ 0)) as [[Heq Hp] | Hn2],
             (decide (q ∈ text_data_text target (data item)
                          :: text_pointers target items ∧ q ≠ 0)) as [[Hin' Hq'] | Hn3];
      try done.
    + exfalso. apply Hn3. split; [by apply elem_of_cons; right | done].
    + exfalso. apply Hn3. split; [by apply elem_of_cons; right | done].
    + exfalso. apply Hn3. split; [by apply elem_of_cons; left | by subst q].
    + exfalso. apply elem_of_cons in Hin' as [Heq | Hin].
      * apply Hn2. split; [done | by subst q].
      * apply Hn1. by split.
Qed.

(** Releasing a list frees the strings of its text items and nothing
    else: when these strings are distinct live blocks, [destroy_items]
    succeeds, afterwards none of them is allocated, and every other block
    of the heap, the pixel buffers of images among them, is as before. *)
Theorem destroy_items_frees_only_texts target items (heap : gmap Z (list Z)) :
  NoDup (text_pointers target items) →
  Forall (λ p, p ≠ 0 ∧ is_Some (heap !! p)) (text_pointers target items) →
  ∃ heap', destroy_items target items heap = Some heap'
           ∧ (∀ p, p ∈ text_pointers target items → heap' !! p = None)
           ∧ (∀ p, p ∉ text_pointers target items → heap' !! p = heap !! p).
Proof.
  intros Hnd Hlive.
  assert (Hrun : ∃ heap', destroy_items target items heap = Some heap').
  { revert heap Hnd Hlive. induction items as [| item items IH];
      intros heap Hnd Hlive; [by eexists|].
    cbn [destroy_items text_pointers] in *.
    destruct (item_primitive item); try (by apply IH).
    apply NoDup_cons in Hnd as [Hnotin Hnd].
    apply Forall_cons in Hlive as [[Hp [blk Hblk]] Hlive].
    unfold free.
    destruct (Z.eqb_spec (text_data_text target (data item)) 0); [done|].
    rewrite Hblk.
    apply IH; [done|]. rewrite Forall_forall in Hlive. apply Forall_forall.
    intros p Hin. destruct (Hlive p Hin) as [Hp0 Hsome]. split; [done|].
    rewrite lookup_delete_ne; [done|]. by intros <-. }
  destruct Hrun as [heap' Hrun]. exists heap'. split; [done|].
  pose proof (destroy_items_released _ _ _ _ Hrun) as Hrel.
  split; intros p Hp; rewrite Hrel.
  - destruct (decide _) as [| Hn]; [done|]. exfalso. apply Hn. split; [done|].
    rewrite Forall_forall in Hlive. by apply Hlive.
  - destruct (decide _) as [[Hin _] |]; done.
Qed.

Lemma destroy_items_stays_free target items (heap heap' : gmap Z (list Z)) p :
  destroy_items target items heap = Some heap' → heap !! p = None →
  heap' !! p = None.
Proof.
  intros H Hp. rewrite (destroy_items_released _ _ _ _ H).
  by destruct (decide _).
Qed.

Lemma destroy_items_freed_again target items (heap : gmap Z (list Z)) it :
  it ∈ items → item_primitive it = Text →
  text_data_text target (data it) ≠ 0 →
  heap !! text_data_text target (data it) = None →
  destroy_items target items heap = None.
Proof.
  intros Hin Hp Hnz. revert heap.
  induction items as [| item items IH]; intros heap Hfree;
    [by apply elem_of_nil in Hin|].
  apply elem_of_cons in Hin as [<- | Hin].
  - cbn [destroy_items]. rewrite Hp. unfold free.
    destruct (Z.eqb_spec (text_data_text target (data it)) 0); [done|].
    by rewrite Hfree.
  - cbn [destroy_items].
    destruct (item_primitive item); try (by apply IH).
    destruct (free _ heap) as [heap1 |] eqn:Hf; [| done].
    apply IH; [done|]. rewrite (free_done _ _ _ Hf). by destruct (decide _).
Qed.

(** Two text items of one list that share a string make [destroy_items]
    free it twice, which is undefined. *)
Theorem destroy_items_shared_text target l1 a l2 b l3 (heap : gmap Z (list Z)) :
  item_primitive a = Text → item_primitive b = Text →
  text_data_text target (data a) = text_data_text target (data b) →
  text_data_text target (data a) ≠ 0 →
  destroy_items target (l1 ++ a :: l2 ++ b :: l3) heap = None.
Proof.
  intros Ha Hb Heq Hnz. revert heap.
  induction l1 as [| item l1 IH]; intros heap.
  - cbn [app destroy_items]. rewrite Ha.
    destruct (free _ heap) as [heap1 |] eqn:Hf; [| done].
    apply (destroy_items_freed_again _ _ _ b).
    + apply elem_of_app. right. apply elem_of_cons. by left.
    + done.
    + by rewrite <- Heq.
    + rewrite <- Heq, (free_done _ _ _ Hf). destruct (decide _) as [| Hn]; [done|].
      exfalso. by apply Hn.
  - cbn [app destroy_items].
    destruct (item_primitive item); try apply IH.
    by destruct (free _ heap).
Qed.

(** ** Drawing one pixel of a surface *)

(** [epd_draw_pixel] is safe on a surface whose buffer has
    [width * height] pixels: it returns for every position, draws opaque
    black at a position on the surface, changes no other pixel, and does
    nothing for a position off the surface. *)
Theorem epd_draw_pixel_checks_bounds xpos ypos color surface :
  Z.of_nat (length (surface_buffer surface))
  = surface_width surface * surface_height surface →
  ∃ surface',
    epd_draw_pixel xpos ypos color surface = Done surface'
    ∧ surface_width surface' = surface_width surface
    ∧ surface_height surface' = surface_height surface
    ∧ length (surface_buffer surface') = length (surface_buffer surface)
    ∧ (0 ≤ xpos < surface_width surface → 0 ≤ ypos < surface_height surface →
       surface_buffer surface' !! Z.to_nat (surface_width surface * ypos + xpos)
       = Some 4278190080)
    ∧ (∀ cx cy,
         0 ≤ cx < surface_width surface → 0 ≤ cy < surface_height surface →
         (cx, cy) ≠ (xpos, ypos) →
         surface_buffer surface' !! Z.to_nat (surface_width surface * cy + cx)
         = surface_buffer surface !! Z.to_nat (surface_width surface * cy + cx))
    ∧ (¬ (0 ≤ xpos < surface_width surface ∧ 0 ≤ ypos < surface_height surface) →
       surface' = surface).
Proof.
  intros Hlen. unfold epd_draw_pixel.
  destruct (Z.ltb_spec xpos 0), (Z.ltb_spec ypos 0),
           (Z.geb_spec xpos (surface_width surface)),
           (Z.geb_spec ypos (surface_height surface)); cbn [orb];
    try (exists surface; repeat split; try done; intros; lia).
  assert (Hi : 0 ≤ surface_width surface * ypos + xpos
               < Z.of_nat (length (surface_buffer surface))) by nia.
  destruct (Z.leb_spec 0 (surface_width surface * ypos + xpos)); [| lia].
  destruct (Z.ltb_spec (surface_width surface * ypos + xpos)
              (Z.of_nat (length (surface_buffer surface)))); [| lia].
  cbn [andb]. eexists. split; [reflexivity|].
  cbn [surface_width surface_height surface_buffer].
  split; [done|]. split; [done|]. split; [by rewrite length_insert|].
  split; [| split].
  - intros _ _. apply list_lookup_insert_eq. lia.
  - intros cx cy Hcx Hcy Hne. apply list_lookup_insert_ne.
    intros Heq. apply Hne.
    assert (0 ≤ surface_width surface * cy + cx) by nia.
    assert (surface_width surface * ypos + xpos
            = surface_width surface * cy + cx) by lia.
    assert (cy = ypos) by nia. subst cy. f_equal. lia.
  - intros Hout. lia.
Qed.

(** ** Keyboard events *)


(** ** Copying the screen to the window *)

Lemma quot_bound a b q : 1 ≤ b → 0 ≤ a < q * b → 0 ≤ Z.quot a b < q.
Proof.
  intros Hb Ha. rewrite Z.quot_div_nonneg by lia.
  split; [apply Z.div_pos; lia | apply Z.div_lt_upper_bound; lia].
Qed.

Lemma store_window_inside i v win :
  0 ≤ i < Z.of_nat (length (window_pixels win)) →
  store_window i v win
  = Done {| window_w := window_w win; window_h := window_h win;
            window_pixels := <[Z.to_nat i := v]> (window_pixels win) |}.
Proof.
  intros Hi. unfold store_window.
  destruct (Z.leb_spec 0 i), (Z.ltb_spec i (Z.of_nat (length (window_pixels win))));
    try lia. reflexivity.
Qed.

Lemma scale_up_row_copies n xpos ypos scale s win :
  1 ≤ scale → 0 ≤ xpos → 0 ≤ ypos →
  xpos + Z.of_nat n ≤ window_w win →
  window_w win = screen_w s * scale →
  ypos < screen_h s * scale →
  Z.of_nat (length (screen_pixels s)) = screen_w s * screen_h s →
  window_w win * (ypos + 1) ≤ Z.of_nat (length (window_pixels win)) →
  ∃ win', scale_up_row n xpos ypos scale s win = Done win'
          ∧ window_w win' = window_w win ∧ window_h win' = window_h win
          ∧ length (window_pixels win') = length (window_pixels win)
          ∧ (∀ x, xpos ≤ x < xpos + Z.of_nat n →
               window_pixels win' !! Z.to_nat (window_w win * ypos + x)
               = screen_pixels s
                   !! Z.to_nat (screen_w s * Z.quot ypos scale + Z.quot x scale))
          ∧ (∀ i : nat,
               Z.of_nat i < window_w win * ypos + xpos
               ∨ window_w win * ypos + xpos + Z.of_nat n ≤ Z.of_nat i →
               window_pixels win' !! i = window_pixels win !! i).
Proof.
  intros Hscale Hx Hy. revert xpos win Hx.
  induction n as [| n IH]; intros xpos win Hx Hfit Hww Hrow Hlen Hroom.
  - exists win. cbn [scale_up_row]. repeat split; try done. intros; lia.
  - cbn [scale_up_row]. destruct (Z.eqb_spec scale 0); [lia|].
    pose proof (quot_bound xpos scale (screen_w s) Hscale ltac:(lia)) as Hxq.
    pose proof (quot_bound ypos scale (screen_h s) Hscale ltac:(lia)) as Hyq.
    assert (Hidx : 0 ≤ screen_w s * Z.quot ypos scale + Z.quot xpos scale
                   < Z.of_nat (length (screen_pixels s))) by nia.
    unfold load_pixel.
    destruct (Z.ltb_spec (screen_w s * Z.quot ypos scale + Z.quot xpos scale) 0);
      [lia|].
    destruct (lookup_lt_is_Some_2 (screen_pixels s)
                (Z.to_nat (screen_w s * Z.quot ypos scale + Z.quot xpos scale)))
      as [v Hv]; [lia|].
    rewrite Hv. cbn [rbind].
    assert (Hdst : 0 ≤ window_w win * ypos + xpos
                   < Z.of_nat (length (window_pixels win))) by nia.
    rewrite store_window_inside by done. cbn [rbind].
    set (win1 := {| window_w := window_w win; window_h := window_h win;
                    window_pixels := <[Z.to_nat (window_w win * ypos + xpos) := v]>
                                       (window_pixels win) |}).
    destruct (IH (xpos + 1) win1) as (win' & Hrun & Hw & Hh & Hl & Hin & Hout);
      try done; cbn [win1 window_w window_pixels]; rewrite ?length_insert;
      try lia.
    exists win'. split; [exact Hrun|]. cbn [win1 window_w window_h window_pixels] in *.
    rewrite length_insert in Hl.
    split; [done|]. split; [done|]. split; [done|]. split.
    + intros x Hx'. destruct (Z.eq_dec x xpos) as [-> | Hne].
      * rewrite Hout by lia. rewrite list_lookup_insert_eq by lia. by rewrite Hv.
      * apply Hin. lia.
    + intros i Hi. rewrite Hout by lia. apply list_lookup_insert_ne. lia.
Qed.

Lemma scale_up_rows_copies n ypos scale s win :
  1 ≤ scale → 0 ≤ ypos → 0 ≤ screen_w s →
  ypos + Z.of_nat n ≤ window_h win →
  window_w win = screen_w s * scale →
  window_h win = screen_h s * scale →
  Z.of_nat (length (screen_pixels s)) = screen_w s * screen_h s →
  Z.of_nat (length (window_pixels win)) = window_w win * window_h win →
  ∃ win', scale_up_rows n ypos scale s win = Done win'
          ∧ window_w win' = window_w win ∧ window_h win' = window_h win
          ∧ length (window_pixels win') = length (window_pixels win)
          ∧ (∀ x y, 0 ≤ x < window_w win → ypos ≤ y < ypos + Z.of_nat n →
               window_pixels win' !! Z.to_nat (window_w win * y + x)
               = screen_pixels s
                   !! Z.to_nat (screen_w s * Z.quot y scale + Z.quot x scale))
          ∧ (∀ i : nat,
               Z.of_nat i < window_w win * ypos
               ∨ window_w win * (ypos + Z.of_nat n) ≤ Z.of_nat i →
               window_pixels win' !! i = window_pixels win !! i).
Proof.
  intros Hscale Hy Hw0. revert ypos win Hy.
  induction n as [| n IH]; intros ypos win Hy Hfit Hww Hwh Hlen Hwlen.
  - exists win. cbn [scale_up_rows]. repeat split; try done. intros; lia.
  - cbn [scale_up_rows].
    assert (Hww0 : 0 ≤ window_w win) by nia.
    destruct (scale_up_row_copies (Z.to_nat (window_w win)) 0 ypos scale s win)
      as (win1 & Hrow & Hw1 & Hh1 & Hl1 & Hin1 & Hout1); try done; try lia; try nia.
    rewrite Hrow. cbn [rbind].
    destruct (IH (ypos + 1) win1) as (win' & Hrun & Hw & Hh & Hl & Hin & Hout);
      try lia; try congruence.
    exists win'. split; [exact Hrun|]. rewrite Hw1 in Hin, Hout.
    split; [congruence|]. split; [congruence|]. split; [congruence|]. split.
    + intros x y Hx Hy'. destruct (Z.eq_dec y ypos) as [-> | Hne].
      * rewrite Hout by (left; nia). apply Hin1. lia.
      * apply Hin; [done | lia].
    + intros i Hi. rewrite Hout by nia. apply Hout1. nia.
Qed.

(** The copy after an update magnifies the screen into the window: for
    a window [scale] times as wide and as high as the screen, with
    buffers of the matching sizes, it returns, and the window pixel at
    column [x] of row [y] is then the screen pixel at column [x / scale]
    of row [y / scale]. *)
Theorem scale_up_magnifies scale s win :
  1 ≤ scale → 0 ≤ screen_w s → 0 ≤ screen_h s →
  window_w win = screen_w s * scale →
  window_h win = screen_h s * scale →
  Z.of_nat (length (screen_pixels s)) = screen_w s * screen_h s →
  Z.of_nat (length (window_pixels win)) = window_w win * window_h win →
  ∃ win', scale_up scale s win = Done win'
          ∧ window_w win' = window_w win ∧ window_h win' = window_h win
          ∧ length (window_pixels win') = length (window_pixels win)
          ∧ ∀ x y, 0 ≤ x < window_w win → 0 ≤ y < window_h win →
              window_pixels win' !! Z.to_nat (window_w win * y + x)
              = pixel_at s (Z.quot x scale) (Z.quot y scale).
Proof.
  intros Hscale Hw Hh Hww Hwh Hlen Hwlen. unfold scale_up.
  destruct (scale_up_rows_copies (Z.to_nat (window_h win)) 0 scale s win)
    as (win' & Hrun & Hw' & Hh' & Hl & Hin & _); try done; try lia; try nia.
  exists win'. split; [exact Hrun|]. split; [done|]. split; [done|].
  split; [done|]. intros x y Hx Hy. unfold pixel_at. apply Hin; lia.
Qed.

(** ** Priority by list order *)

Section Priority.

Variable target : abi.
Variable heap : gmap Z (list Z).
Variable SDL_MapRGB : Z → Z → Z → Z.
Variable READ_32_UNALIGNED : Z → Z.
Variable fontdata : list Z.

Lemma draw_x_from_skips pre rest i below xpos ypos items s :
  Forall (λ it, outside xpos ypos it = true) pre →
  draw_x_from target heap SDL_MapRGB READ_32_UNALIGNED fontdata
      (pre ++ rest) i below xpos ypos items s
  = draw_x_from target heap SDL_MapRGB READ_32_UNALIGNED fontdata
      rest (i + Z.of_nat (length pre))
      below xpos ypos items s.
Proof.
  intros Hout. revert i. induction Hout as [| it pre Hit _ IH]; intros i.
  - cbn. by rewrite Z.add_0_r.
  - cbn [app draw_x_from length]. rewrite Hit, IH. f_equal. lia.
Qed.

(** List order is depth.  At a pixel that the items in front of a
    rectangle do not cover, the rectangle is drawn and the items behind it
    are not consulted: whatever follows the rectangle in the list, the
    pixel takes the colour of the rectangle and the step advances by at
    least one column. *)
Theorem draw_x_rect_occludes pre r rest xpos ypos s :
  Forall (λ it, outside xpos ypos it = true) pre →
  item_primitive r = Rect →
  outside xpos ypos r = false →
  1 ≤ screen_w s →
  0 ≤ screen_w s * ypos + xpos →
  screen_w s * ypos + xpos
    + Z.min (item_width r - (xpos - item_x r)) (screen_w s)
  ≤ Z.of_nat (length (screen_pixels s)) →
  ∃ n s', draw_x target heap SDL_MapRGB READ_32_UNALIGNED fontdata
      xpos ypos (pre ++ r :: rest) s
          = Done (n, s')
          ∧ 1 ≤ n
          ∧ pixel_at s' xpos ypos
            = Some (uint32_color_to_surface SDL_MapRGB (brcolor r))
          ∧ draw_x target heap SDL_MapRGB READ_32_UNALIGNED fontdata
              xpos ypos (pre ++ [r]) s
            = Done (n, s').
Proof.
  intros Hpre Hr Hin Hw Hbase Hroom.
  apply outside_false in Hin as Hbox. destruct Hbox as [Hx Hy].
  assert (Hstep : ∀ tail,
    take (Z.to_nat (0 + Z.of_nat (length pre))) (pre ++ r :: tail) = pre).
  { intros tail. replace (Z.to_nat (0 + Z.of_nat (length pre))) with (length pre)
      by lia. by rewrite take_app_length. }
  assert (Hrun : ∀ tail, ∃ n s',
    draw_x target heap SDL_MapRGB READ_32_UNALIGNED fontdata
        xpos ypos (pre ++ r :: tail) s
    = Done (n, s')
    ∧ 1 ≤ n
    ∧ pixel_at s' xpos ypos = Some (uint32_color_to_surface SDL_MapRGB (brcolor r))
    ∧ n = Z.min (item_width r - (xpos - item_x r))
                (fold_left
                   (λ line_len item,
                      if (xpos <? item_x item) && (ypos >=? item_y item)
                         && (ypos <? item_y item + item_height item)
                      then
                        let len_to_item := item_x item - xpos in
                        if line_len >? len_to_item then len_to_item else line_len
                      else line_len) pre (screen_w s))
    ∧ ∀ k, 0 ≤ k < n →
        screen_pixels s' !! Z.to_nat (screen_w s * ypos + xpos + k)
        = Some (uint32_color_to_surface SDL_MapRGB (brcolor r))).
  { intros tail. unfold draw_x. rewrite draw_x_from_skips by done.
    cbn [draw_x_from]. cbv zeta. rewrite Hin, Hr.
    unfold find_max_line_len. rewrite Hstep.
    destruct (fold_line_len pre xpos ypos (screen_w s)) as (Hle & Hpos & _).
    set (len := fold_left _ pre (screen_w s)) in *.
    specialize (Hpos Hw).
    destruct (draw_rect_x_outcome SDL_MapRGB xpos ypos len r s)
      as (s' & Hd & Hpx & _ & _ & Hw' & _); [done | lia | done | lia |].
    rewrite Hd. cbn [rbind].
    set (n := Z.min (item_width r - (xpos - item_x r)) len) in *.
    assert (Hn : 1 ≤ n) by lia.
    destruct (Z.eqb_spec n 0); [lia|]. cbn [negb].
    exists n, s'. split; [done|]. split; [done|]. split; [| by split].
    unfold pixel_at. rewrite Hw'.
    replace (screen_w s * ypos + xpos) with (screen_w s * ypos + xpos + 0) by lia.
    apply Hpx. lia. }
  destruct (Hrun rest) as (n & s' & Hd & Hn & Hpx & Hlen & Hall).
  destruct (Hrun []) as (n1 & s1 & Hd1 & _ & _ & Hlen1 & Hall1).
  exists n, s'. split; [done|]. split; [done|]. split; [done|].
  rewrite Hd1. subst n1.
  destruct (draw_x_from_only_span target heap SDL_MapRGB READ_32_UNALIGNED fontdata
      _ _ _ _ _ _ _ _ _ Hd)
    as (Hw' & Hh' & Hl' & Hf').
  destruct (draw_x_from_only_span target heap SDL_MapRGB READ_32_UNALIGNED fontdata
      _ _ _ _ _ _ _ _ _ Hd1)
    as (Hw1 & Hh1 & Hl1 & Hf1).
  do 2 f_equal; [congruence|].
  destruct s' as [w' h' px'], s1 as [w1 h1 px1]. cbn in *. subst w' h' w1 h1.
  f_equal. apply list_eq. intros i.
  destruct (Z.lt_ge_cases (Z.of_nat i) (screen_w s * ypos + xpos)) as [Hlo | Hlo];
    [by rewrite Hf', Hf1 by lia|].
  destruct (Z.lt_ge_cases (Z.of_nat i) (screen_w s * ypos + xpos + n)) as [Hhi | Hhi];
    [| by rewrite Hf', Hf1 by lia].
  specialize (Hall (Z.of_nat i - (screen_w s * ypos + xpos)) ltac:(lia)).
  specialize (Hall1 (Z.of_nat i - (screen_w s * ypos + xpos)) ltac:(lia)).
  replace (Z.to_nat (screen_w s * ypos + xpos
                     + (Z.of_nat i - (screen_w s * ypos + xpos)))) with i
    in Hall, Hall1 by lia.
  by rewrite Hall, Hall1.
Qed.

End Priority.

(** ** The further theorems at concrete inputs *)

Lemma update_damaged_area_covers_witness :
  let area := {| rect_x := 0; rect_y := 0; rect_width := 10; rect_height := 10;
                 valid := true |} in
  let damage := {| rect_x := 5; rect_y := 5; rect_width := 10; rect_height := 10;
                   valid := true |} in
  valid area = true
  ∧ covers (update_damaged_area area damage) damage
  ∧ covers (update_damaged_area area damage) area.
Proof.
  cbv zeta. split; [reflexivity|].
  destruct (update_damaged_area_covers
              {| rect_x := 0; rect_y := 0; rect_width := 10; rect_height := 10;
                 valid := true |}
              {| rect_x := 5; rect_y := 5; rect_width := 10; rect_height := 10;
                 valid := true |} eq_refl) as (_ & Hd & Ha).
  split; [exact Hd|]. apply Ha; cbn; lia.
Defined.

Lemma clip_rectangle_bounds_witness :
  let rectangle := {| rect_x := 5; rect_y := 1; rect_width := 10; rect_height := 10;
                      valid := true |} in
  let far := {| rect_x := 100; rect_y := 0; rect_width := 5; rect_height := 5;
                valid := true |} in
  let clip_region := {| rect_x := 0; rect_y := 0; rect_width := 8; rect_height := 2;
                        valid := true |} in
  clip_rectangle rectangle clip_region
  = {| rect_x := 5; rect_y := 1; rect_width := 3; rect_height := 1; valid := true |}
  ∧ covers clip_region (clip_rectangle rectangle clip_region)
  ∧ clip_rectangle far clip_region
    = {| rect_x := 100; rect_y := 0; rect_width := -92; rect_height := 2;
         valid := true |}
  ∧ rect_width (clip_rectangle far clip_region) < 0.
Proof.
  cbv zeta. split; [reflexivity|]. split; [| split; [reflexivity|]].
  - destruct (clip_rectangle_bounds
                {| rect_x := 5; rect_y := 1; rect_width := 10; rect_height := 10;
                   valid := true |}
                {| rect_x := 0; rect_y := 0; rect_width := 8; rect_height := 2;
                   valid := true |}) as (_ & _ & _ & _ & _ & H & _).
    apply H; cbn; lia.
  - destruct (clip_rectangle_bounds
                {| rect_x := 100; rect_y := 0; rect_width := 5; rect_height := 5;
                   valid := true |}
                {| rect_x := 0; rect_y := 0; rect_width := 8; rect_height := 2;
                   valid := true |}) as (_ & _ & _ & _ & _ & _ & H & _).
    apply H; cbn; lia.
Defined.

Lemma dumb_diff_first_frame_covers_witness :
  Forall (λ it, item_x rect_a ≤ item_x it ∧ item_y rect_a ≤ item_y it) [rect_b]
  ∧ ∃ d, dumb_diff LP64 demo_heap [] [rect_a; rect_b] no_damage = Done d
         ∧ valid d = true
         ∧ Forall (λ it, covers d (item_rect it)) [rect_a; rect_b].
Proof.
  assert (H : Forall (λ it, item_x rect_a ≤ item_x it ∧ item_y rect_a ≤ item_y it)
                [rect_b])
    by (constructor; [cbn; lia | constructor]).
  split; [exact H|].
  exact (dumb_diff_first_frame_covers LP64 demo_heap rect_a [rect_b] H).
Defined.

Lemma dumb_diff_all_new_witness :
  Forall (λ n, Forall (λ o, cmp_display_item LP64 demo_heap n o = Done false)
                 [rect_a]) [rect_b]
  ∧ dumb_diff LP64 demo_heap [rect_a] [rect_b] no_damage = Done (item_rect rect_b).
Proof.
  assert (H : Forall (λ n, Forall (λ o, cmp_display_item LP64 demo_heap n o
                                        = Done false) [rect_a]) [rect_b])
    by (constructor; [constructor; [reflexivity | constructor] | constructor]).
  split; [exact H|].
  exact (dumb_diff_all_new LP64 demo_heap [rect_a] [rect_b] no_damage H).
Defined.

Lemma dumb_diff_ignores_removed_tail_witness :
  Forall2 (λ n o, cmp_display_item LP64 demo_heap n o = Done true) [rect_a] [rect_a]
  ∧ do_update LP64 demo_heap rgb888 read_32_be [] 8 [rect_a]
      {| prev_items := [rect_a; rect_b]; screen := demo_screen |}
    = Done {| prev_items := [rect_a]; screen := demo_screen |}.
Proof.
  assert (H : Forall2 (λ n o, cmp_display_item LP64 demo_heap n o = Done true)
                [rect_a] [rect_a])
    by (constructor; [reflexivity | constructor]).
  split; [exact H|].
  exact (proj2 (dumb_diff_ignores_removed_tail LP64 demo_heap rgb888 read_32_be [] 8
                  [rect_a] [rect_b] [rect_a] no_damage demo_screen H)).
Defined.

Lemma cmp_display_item_text_by_content_witness :
  0 ∈ [72; 105; 0]
  ∧ ∃ r, cmp_display_item LP64 demo_heap (demo_text LP64 12288)
           (demo_text LP64 16384) = Done r
         ∧ (r = true ↔ c_string [72; 105; 0] = c_string [72; 105; 0]).
Proof.
  assert (Hz : 0 ∈ [72; 105; 0])
    by (do 2 apply list_elem_of_further; apply list_elem_of_here).
  split; [exact Hz|].
  exact (cmp_display_item_text_by_content LP64 demo_heap (demo_text LP64 12288)
           (demo_text LP64 16384) [72; 105; 0] [72; 105; 0]
           eq_refl eq_refl eq_refl eq_refl eq_refl eq_refl eq_refl eq_refl
           eq_refl Hz eq_refl Hz).
Defined.

Lemma dumb_diff_only_adds_damage_witness :
  let damaged := {| rect_x := 0; rect_y := 0; rect_width := 1; rect_height := 1;
                    valid := true |} in
  valid damaged = true
  ∧ ∃ d, dumb_diff LP64 demo_heap [rect_a] [rect_b] damaged = Done d
         ∧ valid d = true.
Proof.
  cbv zeta. split; [reflexivity|].
  assert (H : {d | dumb_diff LP64 demo_heap [rect_a] [rect_b]
                     {| rect_x := 0; rect_y := 0; rect_width := 1;
                        rect_height := 1; valid := true |} = Done d})
    by (eexists; vm_compute; reflexivity).
  destruct H as [d H]. exists d. split; [exact H|].
  exact (proj1 (dumb_diff_only_adds_damage LP64 demo_heap [rect_a] [rect_b]
                  {| rect_x := 0; rect_y := 0; rect_width := 1; rect_height := 1;
                     valid := true |} d H) eq_refl).
Defined.

Lemma draw_rect_x_fills_witness :
  item_x rect_a ≤ 0 < item_x rect_a + item_width rect_a
  ∧ ∃ s', draw_rect_x rgb888 0 0 16 rect_a wide_screen = Done (10, s')
          ∧ ∀ k, 0 ≤ k < 10 →
              screen_pixels s' !! Z.to_nat (0 + k) = Some (rgb888 255 0 0).
Proof.
  assert (Hx : item_x rect_a ≤ 0 < item_x rect_a + item_width rect_a)
    by (by vm_compute).
  split; [exact Hx|].
  destruct (draw_rect_x_fills rgb888 0 0 16 rect_a wide_screen Hx
              ltac:(lia) ltac:(by vm_compute) ltac:(by vm_compute))
    as (s' & Hrun & Hin & _).
  exists s'. split; [exact Hrun | exact Hin].
Defined.

Lemma draw_text_x_glyph_bits_witness :
  item_x (demo_label LP64) ≤ 0
  ∧ draw_text_x LP64 demo_heap rgb888 demo_font 0 0 16 (demo_label LP64) text_screen
    = Done (1, {| screen_w := 16; screen_h := 16;
                  screen_pixels := <[0%nat := rgb888 255 255 255]>
                                     (screen_pixels text_screen) |})
  ∧ 0 ≤ 1 ≤ Z.max 0 (Z.min (item_width (demo_label LP64) - (0 - 0)) 16).
Proof.
  assert (Hx : item_x (demo_label LP64) ≤ 0) by (by vm_compute).
  assert (H : draw_text_x LP64 demo_heap rgb888 demo_font 0 0 16 (demo_label LP64)
                text_screen
              = Done (1, {| screen_w := 16; screen_h := 16;
                            screen_pixels := <[0%nat := rgb888 255 255 255]>
                                               (screen_pixels text_screen) |}))
    by (vm_compute; reflexivity).
  split; [exact Hx|]. split; [exact H|].
  exact (proj1 (draw_text_x_glyph_bits LP64 demo_heap rgb888 demo_font 0 0 16
                  (demo_label LP64) text_screen 1 _ Hx H)).
Defined.

Lemma draw_scaled_cropped_img_x_samples_witness :
  ∃ s', draw_scaled_cropped_img_x LP64 demo_heap rgb888 read_32_be 0 0 16
          (narrow_crop LP64) wide_screen = Done (4, s')
        ∧ x_scale (narrow_crop LP64) ≠ 0 ∧ y_scale (narrow_crop LP64) ≠ 0
        ∧ screen_pixels s' !! 2%nat = Some 589824
        ∧ screen_pixels s' !! 3%nat = Some 655360.
Proof.
  assert (H : {s' | draw_scaled_cropped_img_x LP64 demo_heap rgb888 read_32_be 0 0 16
                      (narrow_crop LP64) wide_screen = Done (4, s')})
    by (eexists; vm_compute; reflexivity).
  destruct H as [s' H]. exists s'. split; [exact H|].
  destruct (draw_scaled_cropped_img_x_samples LP64 demo_heap rgb888 read_32_be 0 0 16
              (narrow_crop LP64) wide_screen 4 s' H) as (Hxs & Hys & _ & Hpx & _).
  split; [exact Hxs|]. split; [exact Hys|]. split.
  - destruct (Hpx 2 ltac:(lia)) as (p & Hl & _ & Hv).
    vm_compute in Hl. apply Done_inj in Hl. subst p. exact Hv.
  - destruct (Hpx 3 ltac:(lia)) as (p & Hl & _ & Hv).
    vm_compute in Hl. apply Done_inj in Hl. subst p. exact Hv.
Defined.

Lemma fall_through_with_background_witness :
  (brcolor (demo_backed LP64) ≠ 0
   ∧ ∃ s', draw_image_x LP64 demo_heap rgb888 read_32_be 0 0 16 (demo_backed LP64)
             wide_screen = Done (4, s')
           ∧ 1 ≤ 4)
  ∧ brcolor (backed_crop LP64) ≠ 0
  ∧ outside 5 0 (backed_crop LP64) = false
  ∧ draw_scaled_cropped_img_x LP64 demo_heap rgb888 read_32_be 5 0 16
      (backed_crop LP64) wide_screen = Done (0, wide_screen)
  ∧ (0 = 0 ↔ 4 ≤ 5).
Proof.
  assert (Hbr : brcolor (demo_backed LP64) ≠ 0) by (vm_compute; discriminate).
  assert (Hbc : brcolor (backed_crop LP64) ≠ 0) by (vm_compute; discriminate).
  assert (H : {s' | draw_image_x LP64 demo_heap rgb888 read_32_be 0 0 16
                      (demo_backed LP64) wide_screen = Done (4, s')})
    by (eexists; vm_compute; reflexivity).
  assert (Hc : draw_scaled_cropped_img_x LP64 demo_heap rgb888 read_32_be 5 0 16
                 (backed_crop LP64) wide_screen = Done (0, wide_screen))
    by reflexivity.
  split.
  - split; [exact Hbr|]. destruct H as [s' H]. exists s'. split; [exact H|].
    exact (proj2 (proj1 (fall_through_with_background LP64 demo_heap rgb888
                           read_32_be demo_font 0 0 16 (demo_backed LP64)
                           wide_screen 4 s' Hbr ltac:(by vm_compute) ltac:(lia))
                    H)).
  - split; [exact Hbc|]. split; [reflexivity|]. split; [exact Hc|].
    exact (proj2 (proj2 (proj2 (fall_through_with_background LP64 demo_heap rgb888
                                  read_32_be demo_font 5 0 16 (backed_crop LP64)
                                  wide_screen 0 wide_screen Hbc
                                  ltac:(by vm_compute) ltac:(lia)))
                    Hc)).
Defined.

Lemma draw_x_writes_only_its_span_witness :
  ∃ s', draw_x LP64 demo_heap rgb888 read_32_be [] 0 0 [rect_a] demo_screen = Done (8, s')
        ∧ length (screen_pixels s') = length (screen_pixels demo_screen).
Proof.
  assert (H : {s' | draw_x LP64 demo_heap rgb888 read_32_be [] 0 0 [rect_a] demo_screen
                    = Done (8, s')})
    by (eexists; vm_compute; reflexivity).
  destruct H as [s' H]. exists s'. split; [exact H|].
  exact (proj1 (proj2 (draw_x_writes_only_its_span LP64 demo_heap rgb888 read_32_be [] 0 0
                         [rect_a] demo_screen 8 s' H))).
Defined.

Lemma do_update_keeps_geometry_witness :
  ∃ st', do_update LP64 demo_heap rgb888 read_32_be [] 8 [rect_a]
           {| prev_items := []; screen := demo_screen |} = Done st'
         ∧ prev_items st' = [rect_a]
         ∧ screen_w (screen st') = 8.
Proof.
  assert (H : {st' | do_update LP64 demo_heap rgb888 read_32_be [] 8 [rect_a]
                       {| prev_items := []; screen := demo_screen |} = Done st'})
    by (eexists; vm_compute; reflexivity).
  destruct H as [st' H]. exists st'. split; [exact H|].
  destruct (do_update_keeps_geometry LP64 demo_heap rgb888 read_32_be [] 8 [rect_a]
              {| prev_items := []; screen := demo_screen |} st' H)
    as (Hp & Hw & _).
  split; [exact Hp | exact Hw].
Defined.

Lemma find_max_line_len_bounds_witness :
  1 ≤ screen_w demo_screen
  ∧ 1 ≤ find_max_line_len [init_rect stale_slot 5 0 2 2 255; rect_a] 1 0 0 demo_screen
      ≤ screen_w demo_screen.
Proof.
  assert (Hw : 1 ≤ screen_w demo_screen) by (by vm_compute).
  split; [exact Hw|].
  exact (proj1 (find_max_line_len_bounds
                  [init_rect stale_slot 5 0 2 2 255; rect_a] 1 0 0 demo_screen Hw)).
Defined.

Lemma repaint_lone_rect_witness :
  let item := init_rect stale_slot 1 0 4 2 255 in
  item_x item + item_width item ≤ screen_w demo_screen
  ∧ ∃ s', repaint LP64 demo_heap rgb888 read_32_be []
      1 (item_rect item) [item] demo_screen
          = Done s'
          ∧ ∀ cx cy, item_x item ≤ cx < item_x item + item_width item →
              item_y item ≤ cy < item_y item + item_height item →
              pixel_at s' cx cy = Some (uint32_color_to_surface rgb888 (brcolor item)).
Proof.
  cbv zeta. split; [by vm_compute|].
  destruct (repaint_lone_rect LP64 demo_heap rgb888 read_32_be [] 1
              (init_rect stale_slot 1 0 4 2 255) demo_screen eq_refl
              ltac:(by vm_compute) ltac:(by vm_compute) ltac:(by vm_compute) ltac:(by vm_compute)
              ltac:(by vm_compute) ltac:(by vm_compute) eq_refl ltac:(lia))
    as (s' & Hrun & Hin & _).
  exists s'. split; [exact Hrun | exact Hin].
Defined.

Lemma draw_x_spills_into_next_row_witness :
  let item := init_rect stale_slot 6 0 4 1 255 in
  screen_w demo_screen < item_x item + item_width item
  ∧ ∃ n s', draw_x LP64 demo_heap rgb888 read_32_be [] (item_x item) 0 [item] demo_screen
            = Done (n, s')
            ∧ outside 0 1 item = true
            ∧ pixel_at s' 0 1 = Some (uint32_color_to_surface rgb888 (brcolor item)).
Proof.
  cbv zeta. split; [by vm_compute|].
  destruct (draw_x_spills_into_next_row LP64 demo_heap rgb888 read_32_be []
              (init_rect stale_slot 6 0 4 1 255) 0 demo_screen eq_refl
              ltac:(by vm_compute) ltac:(by vm_compute) ltac:(by vm_compute) ltac:(lia)
              ltac:(by vm_compute) eq_refl)
    as (n & s' & Hrun & _ & Hout & Hpx).
  exists n, s'. split; [exact Hrun|]. split; [exact Hout | exact Hpx].
Defined.

Lemma union_members_read_back_witness :
  0 ≤ 8192 < ptr_limit LP64
  ∧ image_data_with_size_width
      (set_image_data_with_size LP64 10 1 8192 (data stale_slot)) = 10
  ∧ image_data_with_size_pix LP64
      (set_image_data_with_size LP64 10 1 8192 (data stale_slot)) = 8192.
Proof.
  assert (Hp : 0 ≤ 8192 < ptr_limit LP64) by (unfold ptr_limit, two32; lia).
  split; [exact Hp|].
  destruct (union_members_read_back LP64 (data stale_slot)) as (_ & Hsize & _).
  destruct (Hsize 10 1 8192 ltac:(lia) ltac:(lia) Hp) as (Hw & _ & Hpix).
  split; [exact Hw | exact Hpix].
Defined.

Lemma init_text_metrics_witness :
  demo_heap !! 12288 = Some ([72; 105] ++ 0 :: [])
  ∧ ∃ it, init_text LP64 demo_heap stale_slot 0 0 16777215 None 12288 = Done it
          ∧ item_height it = 16 ∧ item_width it = 8 * 2.
Proof.
  split; [reflexivity|].
  destruct (init_text_metrics LP64 demo_heap stale_slot 0 0 16777215 None 12288
              [72; 105] [] eq_refl
              ltac:(constructor; [lia | constructor; [lia | constructor]])
              ltac:(unfold ptr_limit, two32; lia))
    as (it & Hit & _ & _ & _ & Hh & Hw & _).
  exists it. split; [exact Hit|]. split; [exact Hh | exact Hw].
Defined.

Lemma destroy_items_frees_only_texts_witness :
  let items := [rect_a; demo_text LP64 12288; demo_sprite LP64; demo_text LP64 16384] in
  text_pointers LP64 items = [12288; 16384]
  ∧ ∃ heap', destroy_items LP64 items demo_heap = Some heap'
             ∧ heap' !! 12288 = None
             ∧ heap' !! 20480 = demo_heap !! 20480.
Proof.
  cbv zeta. split; [reflexivity|].
  destruct (destroy_items_frees_only_texts LP64
              [rect_a; demo_text LP64 12288; demo_sprite LP64; demo_text LP64 16384]
              demo_heap) as (heap' & Hrun & Hfreed & Hkept).
  - change (NoDup [12288; 16384]).
    constructor; [| constructor; [apply not_elem_of_nil | constructor]].
    apply not_elem_of_cons. split; [lia | apply not_elem_of_nil].
  - change (Forall (λ p, p ≠ 0 ∧ is_Some (demo_heap !! p)) [12288; 16384]).
    constructor; [split; [lia | by eexists] |].
    constructor; [split; [lia | by eexists] | constructor].
  - exists heap'. split; [exact Hrun|]. split.
    + apply Hfreed. change (12288 ∈ [12288; 16384]). apply list_elem_of_here.
    + apply Hkept. change (20480 ∉ [12288; 16384]).
      apply not_elem_of_cons. split; [lia|].
      apply not_elem_of_cons. split; [lia | apply not_elem_of_nil].
Defined.

Lemma destroy_items_shared_text_witness :
  text_data_text LP64 (data (demo_text LP64 12288)) ≠ 0
  ∧ destroy_items LP64 [demo_text LP64 12288; rect_a; demo_text LP64 12288] demo_heap
    = None.
Proof.
  assert (Hnz : text_data_text LP64 (data (demo_text LP64 12288)) ≠ 0)
    by (vm_compute; discriminate).
  split; [exact Hnz|].
  exact (destroy_items_shared_text LP64 [] (demo_text LP64 12288) [rect_a]
           (demo_text LP64 12288) [] demo_heap eq_refl eq_refl eq_refl Hnz).
Defined.

Lemma epd_draw_pixel_checks_bounds_witness :
  Z.of_nat (length (surface_buffer demo_surface))
  = surface_width demo_surface * surface_height demo_surface
  ∧ ∃ surface', epd_draw_pixel 4 0 0 demo_surface = Done surface'
                ∧ length (surface_buffer surface')
                  = length (surface_buffer demo_surface).
Proof.
  split; [reflexivity|].
  destruct (epd_draw_pixel_checks_bounds 4 0 0 demo_surface eq_refl)
    as (surface' & Hrun & _ & _ & Hlen & _).
  exists surface'. split; [exact Hrun | exact Hlen].
Defined.


Lemma scale_up_magnifies_witness :
  window_w demo_window = screen_w demo_screen * 2
  ∧ ∃ win', scale_up 2 demo_screen demo_window = Done win'
            ∧ ∀ x y, 0 ≤ x < window_w demo_window → 0 ≤ y < window_h demo_window →
                window_pixels win' !! Z.to_nat (window_w demo_window * y + x)
                = pixel_at demo_screen (Z.quot x 2) (Z.quot y 2).
Proof.
  split; [reflexivity|].
  destruct (scale_up_magnifies 2 demo_screen demo_window ltac:(lia)
              ltac:(by vm_compute) ltac:(by vm_compute) eq_refl eq_refl eq_refl eq_refl)
    as (win' & Hrun & _ & _ & _ & Hpx).
  exists win'. split; [exact Hrun | exact Hpx].
Defined.

Lemma draw_x_rect_occludes_witness :
  outside 0 0 rect_a = false
  ∧ ∃ n s', draw_x LP64 demo_heap rgb888 read_32_be [] 0 0
              ([rect_b] ++ rect_a :: [demo_sprite LP64]) text_screen = Done (n, s')
            ∧ 1 ≤ n
            ∧ pixel_at s' 0 0 = Some (uint32_color_to_surface rgb888 (brcolor rect_a)).
Proof.
  split; [reflexivity|].
  destruct (draw_x_rect_occludes LP64 demo_heap rgb888 read_32_be [] [rect_b] rect_a
              [demo_sprite LP64] 0 0 text_screen
              ltac:(constructor; [reflexivity | constructor]) eq_refl eq_refl
              ltac:(by vm_compute) ltac:(by vm_compute) ltac:(by vm_compute))
    as (n & s' & Hrun & Hn & Hpx & _).
  exists n, s'. split; [exact Hrun|]. split; [exact Hn | exact Hpx].
Defined.
